(** * ergonomadic: the IRC command parser of [irc/commands.go]

    A shallow embedding of the tokenizer ([ParseLine]), the command registry
    and dispatcher ([ParseCommand]), the command constructors and the two
    mode-change parsers, followed by the properties of the specification that
    concern them.

    Go strings are byte sequences: they are modelled by [string], whose
    characters are the 8-bit [ascii].  A [rune] is a Unicode code point, an
    integer.  An out-of-range index panics in Go: indexing goes through the
    [outcome] monad, whose second constructor is the panic. *)

From Stdlib Require Import ZArith Ascii String List Lia Bool.
From stdpp Require Import base strings gmap list.

Local Open Scope Z_scope.

(** ** Bytes and runes *)

Definition rune := Z.

Definition byte_val (c : ascii) : Z := Z.of_N (N_of_ascii c).

Definition byte_of (z : Z) : ascii := ascii_of_N (Z.to_N z).

(** [utf8.RuneError], the replacement character U+FFFD. *)
Definition RuneError : rune := 0xFFFD.

(** The continuation byte [t], six payload bits, onto the accumulator. *)
Definition cont (acc : Z) (t : Z) : Z := Z.lor (Z.shiftl acc 6) (Z.land t 0x3F).

(** Go's table [first] of the [utf8] package, read as: the width of the
    encoding that the lead byte announces, and the range accepted for the
    second byte.  [None] is an invalid lead byte. *)
Definition lead_class (s0 : Z) : option (nat * Z * Z) :=
  if (0xC2 <=? s0) && (s0 <=? 0xDF) then Some (2%nat, 0x80, 0xBF)
  else if s0 =? 0xE0 then Some (3%nat, 0xA0, 0xBF)
  else if s0 =? 0xED then Some (3%nat, 0x80, 0x9F)
  else if (0xE1 <=? s0) && (s0 <=? 0xEF) then Some (3%nat, 0x80, 0xBF)
  else if s0 =? 0xF0 then Some (4%nat, 0x90, 0xBF)
  else if (0xF1 <=? s0) && (s0 <=? 0xF3) then Some (4%nat, 0x80, 0xBF)
  else if s0 =? 0xF4 then Some (4%nat, 0x80, 0x8F)
  else None.

Definition is_cont (t : Z) : bool := (0x80 <=? t) && (t <=? 0xBF).

(** [utf8.DecodeRuneInString]: the first code point of [s] and its width in
    bytes; an invalid or truncated encoding is [RuneError] of width 1. *)
Definition DecodeRuneInString (s : string) : rune * nat :=
  match s with
  | EmptyString => (RuneError, 0%nat)
  | String c0 t0 =>
    let s0 := byte_val c0 in
    if s0 <? 0x80 then (s0, 1%nat)
    else
      match lead_class s0 with
      | None => (RuneError, 1%nat)
      | Some (sz, lo, hi) =>
        match t0 with
        | EmptyString => (RuneError, 1%nat)
        | String c1 t1 =>
          let s1 := byte_val c1 in
          if (s1 <? lo) || (hi <? s1) then (RuneError, 1%nat)
          else if (sz <=? 2)%nat then (cont (Z.land s0 0x1F) s1, 2%nat)
          else
            match t1 with
            | EmptyString => (RuneError, 1%nat)
            | String c2 t2 =>
              let s2 := byte_val c2 in
              if negb (is_cont s2) then (RuneError, 1%nat)
              else if (sz <=? 3)%nat then (cont (cont (Z.land s0 0x0F) s1) s2, 3%nat)
              else
                match t2 with
                | EmptyString => (RuneError, 1%nat)
                | String c3 _ =>
                  let s3 := byte_val c3 in
                  if negb (is_cont s3) then (RuneError, 1%nat)
                  else (cont (cont (cont (Z.land s0 0x07) s1) s2) s3, 4%nat)
                end
            end
        end
      end
  end.

(** [for _, r := range s]: the code points of [s] in order.  After a code
    point of width [w] the loop resumes [w] bytes further; [skip] counts the
    bytes of the current code point still to be passed over. *)
Fixpoint range_runes_from (skip : nat) (s : string) : list rune :=
  match s with
  | EmptyString => []
  | String _ t =>
    match skip with
    | S k => range_runes_from k t
    | O => let '(r, w) := DecodeRuneInString s in r :: range_runes_from (w - 1) t
    end
  end.

Definition range_runes (s : string) : list rune := range_runes_from 0 s.

(** The conversion [string(r)] of a rune: its UTF-8 encoding, and the
    encoding of U+FFFD for a value that is no code point. *)
Definition string_of_rune (r : rune) : string :=
  let b z := byte_of z in
  let tail z := Z.lor 0x80 (Z.land z 0x3F) in
  if (r <? 0) || (0x10FFFF <? r) || ((0xD800 <=? r) && (r <=? 0xDFFF))
  then String (b 0xEF) (String (b 0xBF) (String (b 0xBD) EmptyString))
  else if r <=? 0x7F then String (b r) EmptyString
  else if r <=? 0x7FF then
    String (b (Z.lor 0xC0 (Z.shiftr r 6))) (String (b (tail r)) EmptyString)
  else if r <=? 0xFFFF then
    String (b (Z.lor 0xE0 (Z.shiftr r 12)))
      (String (b (tail (Z.shiftr r 6))) (String (b (tail r)) EmptyString))
  else
    String (b (Z.lor 0xF0 (Z.shiftr r 18)))
      (String (b (tail (Z.shiftr r 12)))
         (String (b (tail (Z.shiftr r 6))) (String (b (tail r)) EmptyString))).

(** ** The string functions the parser calls *)

(** [strings.HasPrefix]. *)
Definition HasPrefix (s prefix : string) : bool := String.prefix prefix s.

(** The slice [s[n:]] for [n] within the string. *)
Fixpoint string_from (n : nat) (s : string) : string :=
  match n, s with
  | S k, String _ t => string_from k t
  | _, _ => s
  end.

(** [strings.Split(s, sep)] for a separator of one byte: the fields between
    the separators, empty fields kept, so never an empty list. *)
Fixpoint strings_Split (s : string) (sep : ascii) : list string :=
  match s with
  | EmptyString => [EmptyString]
  | String c t =>
    if Ascii.eqb c sep then EmptyString :: strings_Split t sep
    else
      match strings_Split t sep with
      | field :: fields => String c field :: fields
      | [] => [String c EmptyString]
      end
  end.

(** [strconv.ParseUint(s, 10, 8)]: a non-empty run of decimal digits whose
    value fits eight bits; no sign, no blank; [None] is the error result. *)
Definition digit_val (c : ascii) : option Z :=
  let v := byte_val c in
  if (48 <=? v) && (v <=? 57) then Some (v - 48) else None.

Fixpoint ParseUint8_digits (s : string) (n : Z) : option Z :=
  match s with
  | EmptyString => Some n
  | String c t =>
    match digit_val c with
    | None => None
    | Some d =>
      let n1 := n * 10 + d in
      if 255 <? n1 then None else ParseUint8_digits t n1
    end
  end.

Definition ParseUint8 (s : string) : option Z :=
  match s with
  | EmptyString => None
  | _ => ParseUint8_digits s 0
  end.

(** ** The expression [spacesExpr], one or more spaces *)

Definition space : ascii := " "%char.

Fixpoint trim_spaces (s : string) : string :=
  match s with
  | String c t => if Ascii.eqb c space then trim_spaces t else s
  | EmptyString => s
  end.

(** The leftmost match of [spacesExpr] in [s]: the text before it and the
    text after it; [None] when [s] has no space. *)
Fixpoint spaces_match (s : string) : option (string * string) :=
  match s with
  | EmptyString => None
  | String c t =>
    if Ascii.eqb c space then Some (EmptyString, trim_spaces t)
    else
      match spaces_match t with
      | Some (before, after) => Some (String c before, after)
      | None => None
      end
  end.

(** [spacesExpr.Split(s, n)]: at most [n] pieces when [n > 0], every piece
    when [n < 0], none when [n = 0]; the last piece is the unsplit rest. *)
Fixpoint spacesExpr_Split_go (fuel : nat) (s : string) (n : Z) : list string :=
  match fuel with
  | O => [s]
  | S fuel' =>
    if n =? 1 then [s]
    else
      match spaces_match s with
      | None => [s]
      | Some (before, after) => before :: spacesExpr_Split_go fuel' after (n - 1)
      end
  end.

Definition spacesExpr_Split (s : string) (n : Z) : list string :=
  if n =? 0 then [] else spacesExpr_Split_go (String.length s) s n.

(** ** Panics *)

Inductive panic : Type :=
  | IndexOutOfRange (index len : nat)
  | SliceBoundsOutOfRange (low len : nat).

Inductive outcome (A : Type) : Type :=
  | Returned (a : A)
  | Panicked (p : panic).

Arguments Returned {A} a.
Arguments Panicked {A} p.

#[global] Instance outcome_ret : MRet outcome := fun A a => Returned a.

#[global] Instance outcome_bind : MBind outcome := fun A B f m =>
  match m with
  | Returned a => f a
  | Panicked p => Panicked p
  end.

(** [l[i]] *)
Definition index {A : Type} (l : list A) (i : nat) : outcome A :=
  match l !! i with
  | Some x => Returned x
  | None => Panicked (IndexOutOfRange i (length l))
  end.

(** [l[i] = x] *)
Definition store {A : Type} (l : list A) (i : nat) (x : A) : outcome (list A) :=
  if (i <? length l)%nat then Returned (<[i := x]> l)
  else Panicked (IndexOutOfRange i (length l)).

(** [l[low:]] *)
Definition slice_from {A : Type} (l : list A) (low : nat) : outcome (list A) :=
  if (low <=? length l)%nat then Returned (drop low l)
  else Panicked (SliceBoundsOutOfRange low (length l)).

(** [s[i]] of a string, a byte *)
Definition byte_at (s : string) (i : nat) : outcome ascii :=
  match String.get i s with
  | Some c => Returned c
  | None => Panicked (IndexOutOfRange i (String.length s))
  end.

(** [s[low:]] of a string *)
Definition string_slice_from (s : string) (low : nat) : outcome string :=
  if (low <=? String.length s)%nat then Returned (string_from low s)
  else Panicked (SliceBoundsOutOfRange low (String.length s)).

(** [for i, x := range l { s = body(i, x, s) }], from index [i] on. *)
Fixpoint for_range {A St : Type} (body : nat -> A -> St -> outcome St)
    (i : nat) (l : list A) (s : St) : outcome St :=
  match l with
  | [] => Returned s
  | x :: l' =>
    match body i x s with
    | Returned s' => for_range body (S i) l' s'
    | Panicked p => Panicked p
    end
  end.

(** ** Declarations of the package that lie outside [commands.go] *)

(** Modelled from the spec: the named types are declared outside
    [commands.go].  A command code is a keyword, a string; a mode and a mode
    operation are one letter or symbol, and [commands.go] converts a byte and
    a rune to them: they are runes.  A mask, a CAP sub-command and a
    capability are strings. *)
Definition StringCode := string.
Definition ModeOp := rune.
Definition UserMode := rune.
Definition ChannelMode := rune.
Definition Mask := string.
Definition CapSubCommand := string.
Definition Capability := string.

(** Modelled from the spec: the constants [Add] and [Remove] are declared
    outside [commands.go]; the spec gives their operator symbols, [+] and
    [-]. *)
Definition Add : ModeOp := byte_val "+".
Definition Remove : ModeOp := byte_val "-".

(** Modelled from the spec: the constants [ChannelOperator] and [Voice] are
    declared outside [commands.go]; the spec's example [+o-v] names their
    letters. *)
Definition ChannelOperator : ChannelMode := byte_val "o".
Definition Voice : ChannelMode := byte_val "v".

(** Modelled from the spec: the methods [ModeOp.String] and
    [UserMode.String] are declared outside [commands.go]; the spec renders an
    operation as its operator symbol and a mode as its letter. *)
Definition ModeOp_String (op : ModeOp) : string := string_of_rune op.
Definition UserMode_String (mode : UserMode) : string := string_of_rune mode.

(** Modelled from the spec: the command codes are declared outside
    [commands.go]; each is the upper-case keyword of its name. *)
Definition AWAY : StringCode := "AWAY".
Definition CAP : StringCode := "CAP".
Definition DEBUG : StringCode := "DEBUG".
Definition INVITE : StringCode := "INVITE".
Definition ISON : StringCode := "ISON".
Definition JOIN : StringCode := "JOIN".
Definition KICK : StringCode := "KICK".
Definition KILL : StringCode := "KILL".
Definition LIST : StringCode := "LIST".
Definition MODE : StringCode := "MODE".
Definition MOTD : StringCode := "MOTD".
Definition NAMES : StringCode := "NAMES".
Definition NICK : StringCode := "NICK".
Definition NOTICE : StringCode := "NOTICE".
Definition OPER : StringCode := "OPER".
Definition PART : StringCode := "PART".
Definition PASS : StringCode := "PASS".
Definition PING : StringCode := "PING".
Definition PONG : StringCode := "PONG".
Definition PRIVMSG : StringCode := "PRIVMSG".
Definition PROXY : StringCode := "PROXY".
Definition QUIT : StringCode := "QUIT".
Definition TIME : StringCode := "TIME".
Definition TOPIC : StringCode := "TOPIC".
Definition USER : StringCode := "USER".
Definition VERSION : StringCode := "VERSION".
Definition WHO : StringCode := "WHO".
Definition WHOIS : StringCode := "WHOIS".

(** The remaining constants and helpers that [commands.go] uses and does not
    declare, and of which the spec fixes no value: they are parameters of the
    development.  [IsChannel] recognises a channel name; [LookupHostname] is
    the reverse lookup of PROXY; [List] is the third mode operation; the six
    channel-mode letters complete the argument-consuming set; [WallOps] and
    [Invisible] are the two user modes of the modern USER command. *)
Class Declarations : Type := {
  IsChannel : string -> bool;
  LookupHostname : string -> string;
  List : ModeOp;
  Key : ChannelMode;
  BanMask : ChannelMode;
  ExceptMask : ChannelMode;
  InviteMask : ChannelMode;
  UserLimit : ChannelMode;
  ChannelCreator : ChannelMode;
  WallOps : UserMode;
  Invisible : UserMode
}.

(** Every byte of [s] is below 0x80. *)
Fixpoint is_ascii (s : string) : bool :=
  match s with
  | EmptyString => true
  | String c t => (byte_val c <? 0x80) && is_ascii t
  end.

Definition upper_byte (c : ascii) : ascii :=
  let v := byte_val c in
  if (97 <=? v) && (v <=? 122) then byte_of (v - 32) else c.

Fixpoint ascii_upper (s : string) : string :=
  match s with
  | EmptyString => EmptyString
  | String c t => String (upper_byte c) (ascii_upper t)
  end.

(** The library functions on Unicode text: [strings.ToUpper] and the two
    normalizers [norm.NFC.String] and [norm.NFKC.String] of the text package.
    Their tables are not part of this repository; what the development uses
    of them is their behaviour on ASCII text, which the normal forms leave
    unchanged and which [ToUpper] maps letter by letter. *)
Class UnicodeText : Type := {
  ToUpper : string -> string;
  NFC_String : string -> string;
  NFKC_String : string -> string;
  ToUpper_ascii : forall s, is_ascii s = true -> ToUpper s = ascii_upper s;
  NFC_ascii : forall s, is_ascii s = true -> NFC_String s = s;
  NFKC_ascii : forall s, is_ascii s = true -> NFKC_String s = s
}.

(** ** The command model *)

Inductive error : Type :=
  | NotEnoughArgsError
  | ErrParseCommand.

(** A [*Client] is a reference; [None] is [nil]. *)
Definition ClientRef := nat.

Record BaseCommand : Type := {
  client : option ClientRef;
  code : StringCode
}.

Module ModeChange.
Record t : Type := { mode : UserMode; op : ModeOp }.
End ModeChange.

Definition ModeChanges := list ModeChange.t.

Module ChannelModeChange.
Record t : Type := { mode : ChannelMode; op : ModeOp; arg : string }.
End ChannelModeChange.

Definition ChannelModeChanges := list ChannelModeChange.t.

(** The values of the interface [editableCommand]: one constructor for each
    command struct, its fields in the order of the declaration, the embedded
    structs flattened. *)
Inductive editableCommand : Type :=
  | UnknownCommand (base : BaseCommand) (args : list string)
  | PingCommand (base : BaseCommand) (server server2 : string)
  | PongCommand (base : BaseCommand) (server1 server2 : string)
  | PassCommand (base : BaseCommand) (hash : option string) (password : string)
      (err : option error)
  | NickCommand (base : BaseCommand) (nickname : string)
  | RFC1459UserCommand (base : BaseCommand) (username realname : string)
      (hostname servername : string)
  | RFC2812UserCommand (base : BaseCommand) (username realname : string)
      (mode : Z) (unused : string)
  | QuitCommand (base : BaseCommand) (message : string)
  | JoinCommand (base : BaseCommand) (channels : gmap string string) (zero : bool)
  | PartCommand (base : BaseCommand) (channels : list string) (message : string)
  | PrivMsgCommand (base : BaseCommand) (target message : string)
  | TopicCommand (base : BaseCommand) (channel : string) (setTopic : bool)
      (topic : string)
  | ModeCommand (base : BaseCommand) (nickname : string) (changes : ModeChanges)
  | ChannelModeCommand (base : BaseCommand) (channel : string)
      (changes : ChannelModeChanges)
  | WhoisCommand (base : BaseCommand) (target : string) (masks : list string)
  | WhoCommand (base : BaseCommand) (mask : Mask) (operatorOnly : bool)
  | OperCommand (base : BaseCommand) (hash : option string) (password : string)
      (err : option error) (name : string)
  | CapCommand (base : BaseCommand) (subCommand : CapSubCommand)
      (capabilities : gmap Capability bool)
  | ProxyCommand (base : BaseCommand) (net sourceIP destIP : string)
      (sourcePort destPort : string) (hostname : string)
  | AwayCommand (base : BaseCommand) (text : string) (away : bool)
  | IsOnCommand (base : BaseCommand) (nicks : list string)
  | MOTDCommand (base : BaseCommand) (target : string)
  | NoticeCommand (base : BaseCommand) (target message : string)
  | KickCommand (base : BaseCommand) (kicks : gmap string string) (comment : string)
  | ListCommand (base : BaseCommand) (channels : list string) (target : string)
  | NamesCommand (base : BaseCommand) (channels : list string) (target : string)
  | DebugCommand (base : BaseCommand) (subCommand : string)
  | VersionCommand (base : BaseCommand) (target : string)
  | InviteCommand (base : BaseCommand) (nickname channel : string)
  | TimeCommand (base : BaseCommand) (target : string)
  | KillCommand (base : BaseCommand) (nickname comment : string)
  | AuthenticateCommand (base : BaseCommand) (arg : string).

(** The zero value of [BaseCommand], which every constructor leaves in place. *)
Definition base0 : BaseCommand := {| client := None; code := EmptyString |}.

Definition Base (cmd : editableCommand) : BaseCommand :=
  match cmd with
  | UnknownCommand b _ | PingCommand b _ _ | PongCommand b _ _
  | PassCommand b _ _ _ | NickCommand b _ | RFC1459UserCommand b _ _ _ _
  | RFC2812UserCommand b _ _ _ _ | QuitCommand b _ | JoinCommand b _ _
  | PartCommand b _ _ | PrivMsgCommand b _ _ | TopicCommand b _ _ _
  | ModeCommand b _ _ | ChannelModeCommand b _ _ | WhoisCommand b _ _
  | WhoCommand b _ _ | OperCommand b _ _ _ _ | CapCommand b _ _
  | ProxyCommand b _ _ _ _ _ _ | AwayCommand b _ _ | IsOnCommand b _
  | MOTDCommand b _ | NoticeCommand b _ _ | KickCommand b _ _
  | ListCommand b _ _ | NamesCommand b _ _ | DebugCommand b _
  | VersionCommand b _ | InviteCommand b _ _ | TimeCommand b _
  | KillCommand b _ _ | AuthenticateCommand b _ => b
  end.

(** [BaseCommand.Code] *)
Definition Code (cmd : editableCommand) : StringCode := code (Base cmd).

Definition with_base (f : BaseCommand -> BaseCommand) (cmd : editableCommand)
    : editableCommand :=
  match cmd with
  | UnknownCommand b a => UnknownCommand (f b) a
  | PingCommand b s s2 => PingCommand (f b) s s2
  | PongCommand b s s2 => PongCommand (f b) s s2
  | PassCommand b h p e => PassCommand (f b) h p e
  | NickCommand b n => NickCommand (f b) n
  | RFC1459UserCommand b u r h s => RFC1459UserCommand (f b) u r h s
  | RFC2812UserCommand b u r m x => RFC2812UserCommand (f b) u r m x
  | QuitCommand b m => QuitCommand (f b) m
  | JoinCommand b c z => JoinCommand (f b) c z
  | PartCommand b c m => PartCommand (f b) c m
  | PrivMsgCommand b t m => PrivMsgCommand (f b) t m
  | TopicCommand b c s t => TopicCommand (f b) c s t
  | ModeCommand b n c => ModeCommand (f b) n c
  | ChannelModeCommand b c ch => ChannelModeCommand (f b) c ch
  | WhoisCommand b t m => WhoisCommand (f b) t m
  | WhoCommand b m o => WhoCommand (f b) m o
  | OperCommand b h p e n => OperCommand (f b) h p e n
  | CapCommand b s c => CapCommand (f b) s c
  | ProxyCommand b n s d sp dp h => ProxyCommand (f b) n s d sp dp h
  | AwayCommand b t a => AwayCommand (f b) t a
  | IsOnCommand b n => IsOnCommand (f b) n
  | MOTDCommand b t => MOTDCommand (f b) t
  | NoticeCommand b t m => NoticeCommand (f b) t m
  | KickCommand b k c => KickCommand (f b) k c
  | ListCommand b c t => ListCommand (f b) c t
  | NamesCommand b c t => NamesCommand (f b) c t
  | DebugCommand b s => DebugCommand (f b) s
  | VersionCommand b t => VersionCommand (f b) t
  | InviteCommand b n c => InviteCommand (f b) n c
  | TimeCommand b t => TimeCommand (f b) t
  | KillCommand b n c => KillCommand (f b) n c
  | AuthenticateCommand b a => AuthenticateCommand (f b) a
  end.

(** [BaseCommand.SetCode] and [BaseCommand.SetClient] *)
Definition SetCode (cmd : editableCommand) (c : StringCode) : editableCommand :=
  with_base (fun b => {| client := client b; code := c |}) cmd.

Definition SetClient (cmd : editableCommand) (cl : option ClientRef) : editableCommand :=
  with_base (fun b => {| client := cl; code := code b |}) cmd.

(** The two results of a constructor, [(editableCommand, error)]; [None] is
    [nil]. *)
Definition parsed : Type := option editableCommand * option error.

Definition parseCommandFunc : Type := list string -> outcome parsed.

Definition ok (cmd : editableCommand) : outcome parsed := Returned (Some cmd, None).
Definition failed (e : error) : outcome parsed := Returned (None, Some e).

(** ** The constructors *)

Section Constructors.
Context `{D : Declarations} `{U : UnicodeText}.

Definition NewUnknownCommand (args : list string) : editableCommand :=
  UnknownCommand base0 args.

(** [args[i]] when [len(args) > i], the zero value otherwise: the optional
    trailing field of many commands. *)
Definition optional (args : list string) (i : nat) : outcome string :=
  if (i <? length args)%nat then index args i else mret EmptyString.

Definition NewPingCommand (args : list string) : outcome parsed :=
  if (length args <? 1)%nat then failed NotEnoughArgsError
  else
    server ← index args 0;
    server2 ← optional args 1;
    ok (PingCommand base0 server server2).

Definition NewPongCommand (args : list string) : outcome parsed :=
  if (length args <? 1)%nat then failed NotEnoughArgsError
  else
    server1 ← index args 0;
    server2 ← optional args 1;
    ok (PongCommand base0 server1 server2).

Definition NewPassCommand (args : list string) : outcome parsed :=
  if (length args <? 1)%nat then failed NotEnoughArgsError
  else
    password ← index args 0;
    ok (PassCommand base0 None password None).

Definition NewNickCommand (args : list string) : outcome parsed :=
  if negb (length args =? 1)%nat then failed NotEnoughArgsError
  else
    nickname ← index args 0;
    ok (NickCommand base0 nickname).

(** [RFC2812UserCommand.Flags]; the method has no other receiver. *)
Definition Flags (cmd : editableCommand) : list UserMode :=
  match cmd with
  | RFC2812UserCommand _ _ _ mode _ =>
    let flags := [] in
    let flags := if Z.land mode 4 =? 4 then flags ++ [WallOps] else flags in
    let flags := if Z.land mode 8 =? 8 then flags ++ [Invisible] else flags in
    flags
  | _ => []
  end.

Definition NewUserCommand (args : list string) : outcome parsed :=
  if negb (length args =? 4)%nat then failed NotEnoughArgsError
  else
    arg1 ← index args 1;
    match ParseUint8 arg1 with
    | Some mode =>
      unused ← index args 2;
      username ← index args 0;
      realname ← index args 3;
      ok (RFC2812UserCommand base0 username realname mode unused)
    | None =>
      hostname ← index args 1;
      servername ← index args 2;
      username ← index args 0;
      realname ← index args 3;
      ok (RFC1459UserCommand base0 username realname hostname servername)
    end.

Definition NewQuitCommand (args : list string) : outcome parsed :=
  message ← optional args 0;
  ok (QuitCommand base0 message).

Definition comma : ascii := ","%char.

Definition NewJoinCommand (args : list string) : outcome parsed :=
  if (length args =? 0)%nat then failed NotEnoughArgsError
  else
    arg0 ← index args 0;
    if String.eqb arg0 "0" then ok (JoinCommand base0 ∅ true)
    else
      let channels := strings_Split arg0 comma in
      let keys := replicate (length channels) EmptyString in
      keys ← (if (1 <? length args)%nat then
                arg1 ← index args 1;
                for_range (fun i key keys => store keys i key) 0
                  (strings_Split arg1 comma) keys
              else mret keys);
      joined ← for_range
                 (fun i channel (m : gmap string string) =>
                    key ← index keys i; mret (<[channel := key]> m))
                 0 channels ∅;
      ok (JoinCommand base0 joined false).

Definition NewPartCommand (args : list string) : outcome parsed :=
  if (length args <? 1)%nat then failed NotEnoughArgsError
  else
    arg0 ← index args 0;
    message ← optional args 1;
    ok (PartCommand base0 (strings_Split arg0 comma) message).

Definition NewPrivMsgCommand (args : list string) : outcome parsed :=
  if (length args <? 2)%nat then failed NotEnoughArgsError
  else
    target ← index args 0;
    message ← index args 1;
    ok (PrivMsgCommand base0 target message).

Definition NewTopicCommand (args : list string) : outcome parsed :=
  if (length args <? 1)%nat then failed NotEnoughArgsError
  else
    channel ← index args 0;
    if (1 <? length args)%nat then
      topic ← index args 1;
      ok (TopicCommand base0 channel true topic)
    else ok (TopicCommand base0 channel false EmptyString).

(** [ModeChanges.String] *)
Definition ModeChanges_String (changes : ModeChanges) : outcome string :=
  if (length changes =? 0)%nat then mret EmptyString
  else
    first ← index changes 0;
    let op := ModeChange.op first in
    let str := ModeOp_String (ModeChange.op first) in
    mret (snd (foldl
      (fun '(op, str) change =>
         if ModeChange.op change =? op
         then (op, str +:+ UserMode_String (ModeChange.mode change))
         else (ModeChange.op change, str +:+ " " +:+ ModeOp_String (ModeChange.op change)))
      (op, str) changes)).

(** The loop of [NewUserModeCommand] over [args[1:]]: the changes gathered,
    or the error of the early return. *)
Fixpoint userModeLoop (rest : list string) (changes : ModeChanges)
    : outcome (ModeChanges + error) :=
  match rest with
  | [] => mret (inl changes)
  | modeChange :: rest' =>
    if (String.length modeChange =? 0)%nat then userModeLoop rest' changes
    else
      b ← byte_at modeChange 0;
      let op : ModeOp := byte_val b in
      if negb (op =? Add) && negb (op =? Remove) then mret (inr ErrParseCommand)
      else
        letters ← string_slice_from modeChange 1;
        userModeLoop rest'
          (changes ++ map (fun mode => {| ModeChange.mode := mode; ModeChange.op := op |})
                          (range_runes letters))
  end.

Definition NewUserModeCommand (args : list string) : outcome parsed :=
  nickname ← index args 0;
  rest ← slice_from args 1;
  r ← userModeLoop rest [];
  match r with
  | inl changes => ok (ModeCommand base0 nickname changes)
  | inr e => failed e
  end.

(** The cases of the switch in [NewChannelModeCommand]: the mode letters that
    take an argument. *)
Definition takes_arg (mode : ChannelMode) : bool :=
  existsb (Z.eqb mode)
    [Key; BanMask; ExceptMask; InviteMask; UserLimit;
     ChannelOperator; ChannelCreator; Voice].

(** The inner loop of [NewChannelModeCommand], over the letters of one mode
    argument: the changes and [skipArgs] after it. *)
Fixpoint channelModeLetters (args : list string) (op : ModeOp) (modes : list rune)
    (changes : ChannelModeChanges) (skipArgs : nat)
    : outcome (ChannelModeChanges * nat) :=
  match modes with
  | [] => mret (changes, skipArgs)
  | mode :: modes' =>
    '(a, skipArgs) ← (if takes_arg mode then
                        if (skipArgs <? length args)%nat then
                          a ← index args skipArgs; mret (a, (skipArgs + 1)%nat)
                        else mret (EmptyString, skipArgs)
                      else mret (EmptyString, skipArgs));
    channelModeLetters args op modes'
      (changes ++ [{| ChannelModeChange.mode := mode; ChannelModeChange.op := op;
                      ChannelModeChange.arg := a |}])
      skipArgs
  end.

(** The outer loop of [NewChannelModeCommand], [for len(args) > 0]; every turn
    drops at least one argument, so [length args] turns are enough. *)
Fixpoint channelModeLoop (fuel : nat) (args : list string) (changes : ChannelModeChanges)
    : outcome ChannelModeChanges :=
  match fuel with
  | O => mret changes
  | S fuel' =>
    if (0 <? length args)%nat then
      arg0 ← index args 0;
      if (String.length arg0 =? 0)%nat then
        args ← slice_from args 1;
        channelModeLoop fuel' args changes
      else
        let modeArg := arg0 in
        b ← byte_at modeArg 0;
        let op : ModeOp := byte_val b in
        '(modeArg, op) ← (if (op =? Add) || (op =? Remove)
                          then modeArg ← string_slice_from modeArg 1; mret (modeArg, op)
                          else mret (modeArg, List));
        '(changes, skipArgs) ← channelModeLetters args op (range_runes modeArg) changes 1;
        args ← slice_from args skipArgs;
        channelModeLoop fuel' args changes
    else mret changes
  end.

Definition NewChannelModeCommand (args : list string) : outcome parsed :=
  channel ← index args 0;
  args ← slice_from args 1;
  changes ← channelModeLoop (length args) args [];
  ok (ChannelModeCommand base0 channel changes).

Definition NewModeCommand (args : list string) : outcome parsed :=
  if (length args =? 0)%nat then failed NotEnoughArgsError
  else
    arg0 ← index args 0;
    if IsChannel arg0 then NewChannelModeCommand args
    else NewUserModeCommand args.

Definition NewWhoisCommand (args : list string) : outcome parsed :=
  if (length args <? 1)%nat then failed NotEnoughArgsError
  else
    '(target, masks) ← (if (1 <? length args)%nat then
                          target ← index args 0;
                          masks ← index args 1;
                          mret (target, masks)
                        else
                          masks ← index args 0;
                          mret (EmptyString, masks));
    ok (WhoisCommand base0 target (strings_Split masks comma)).

Definition NewWhoCommand (args : list string) : outcome parsed :=
  mask ← optional args 0;
  operatorOnly ← (if (1 <? length args)%nat then
                    arg1 ← index args 1; mret (String.eqb arg1 "o")
                  else mret false);
  ok (WhoCommand base0 mask operatorOnly).

Definition NewOperCommand (args : list string) : outcome parsed :=
  if (length args <? 2)%nat then failed NotEnoughArgsError
  else
    name ← index args 0;
    password ← index args 1;
    ok (OperCommand base0 None password None name).

Definition NewCapCommand (args : list string) : outcome parsed :=
  if (length args <? 1)%nat then failed NotEnoughArgsError
  else
    arg0 ← index args 0;
    capabilities ← (if (1 <? length args)%nat then
                      arg1 ← index args 1;
                      mret (foldl (fun (m : gmap Capability bool) str => <[str := true]> m)
                                  ∅ (spacesExpr_Split arg1 (-1)))
                    else mret ∅);
    ok (CapCommand base0 (ToUpper arg0) capabilities).

Definition NewProxyCommand (args : list string) : outcome parsed :=
  if (length args <? 5)%nat then failed NotEnoughArgsError
  else
    net ← index args 0;
    sourceIP ← index args 1;
    destIP ← index args 2;
    sourcePort ← index args 3;
    destPort ← index args 4;
    ok (ProxyCommand base0 net sourceIP destIP sourcePort destPort
          (LookupHostname sourceIP)).

Definition NewAwayCommand (args : list string) : outcome parsed :=
  if (0 <? length args)%nat then
    text ← index args 0;
    ok (AwayCommand base0 text true)
  else ok (AwayCommand base0 EmptyString false).

Definition NewIsOnCommand (args : list string) : outcome parsed :=
  if (length args =? 0)%nat then failed NotEnoughArgsError
  else ok (IsOnCommand base0 args).

Definition NewMOTDCommand (args : list string) : outcome parsed :=
  target ← optional args 0;
  ok (MOTDCommand base0 target).

Definition NewNoticeCommand (args : list string) : outcome parsed :=
  if (length args <? 2)%nat then failed NotEnoughArgsError
  else
    target ← index args 0;
    message ← index args 1;
    ok (NoticeCommand base0 target message).

Definition NewKickCommand (args : list string) : outcome parsed :=
  if (length args <? 2)%nat then failed NotEnoughArgsError
  else
    arg0 ← index args 0;
    arg1 ← index args 1;
    let channels := strings_Split arg0 comma in
    let users := strings_Split arg1 comma in
    if negb (length channels =? length users)%nat && negb (length users =? 1)%nat
    then failed NotEnoughArgsError
    else
      kicks ← for_range
                (fun index_ channel (m : gmap string string) =>
                   if (length users =? 1)%nat then
                     user ← index users 0; mret (<[channel := user]> m)
                   else
                     user ← index users index_; mret (<[channel := user]> m))
                0 channels ∅;
      comment ← optional args 2;
      ok (KickCommand base0 kicks comment).

(** The optional channel list of LIST and NAMES; [nil] is the empty list. *)
Definition optional_list (args : list string) : outcome (list string) :=
  if (0 <? length args)%nat then
    arg0 ← index args 0; mret (strings_Split arg0 comma)
  else mret [].

Definition NewListCommand (args : list string) : outcome parsed :=
  channels ← optional_list args;
  target ← optional args 1;
  ok (ListCommand base0 channels target).

Definition NewNamesCommand (args : list string) : outcome parsed :=
  channels ← optional_list args;
  target ← optional args 1;
  ok (NamesCommand base0 channels target).

Definition NewDebugCommand (args : list string) : outcome parsed :=
  if (length args =? 0)%nat then failed NotEnoughArgsError
  else
    arg0 ← index args 0;
    ok (DebugCommand base0 (ToUpper arg0)).

Definition NewVersionCommand (args : list string) : outcome parsed :=
  target ← optional args 0;
  ok (VersionCommand base0 target).

Definition NewInviteCommand (args : list string) : outcome parsed :=
  if (length args <? 2)%nat then failed NotEnoughArgsError
  else
    nickname ← index args 0;
    channel ← index args 1;
    ok (InviteCommand base0 nickname channel).

Definition NewTimeCommand (args : list string) : outcome parsed :=
  target ← optional args 0;
  ok (TimeCommand base0 target).

Definition NewKillCommand (args : list string) : outcome parsed :=
  if (length args <? 2)%nat then failed NotEnoughArgsError
  else
    nickname ← index args 0;
    comment ← index args 1;
    ok (KillCommand base0 nickname comment).

Definition NewAuthenticateCommand (args : list string) : outcome parsed :=
  if (length args <? 1)%nat then failed NotEnoughArgsError
  else
    arg ← index args 0;
    ok (AuthenticateCommand base0 arg).

(** ** The tokenizer *)

Definition splitArg (line : string) : string * string :=
  let parts := spacesExpr_Split line 2 in
  let arg := if (0 <? length parts)%nat then default EmptyString (parts !! 0%nat)
             else EmptyString in
  let rest := if (1 <? length parts)%nat then default EmptyString (parts !! 1%nat)
              else EmptyString in
  (arg, rest).

(** The loop of [ParseLine], [for len(line) > 0]; every turn shortens the
    line, so [String.length line] turns are enough. *)
Fixpoint ParseLine_loop (fuel : nat) (line : string) (args : list string) : list string :=
  match fuel with
  | O => args
  | S fuel' =>
    if (0 <? String.length line)%nat then
      if HasPrefix line ":" then args ++ [NFC_String (string_from 1 line)]
      else
        let '(arg, line) := splitArg line in
        ParseLine_loop fuel' line (args ++ [NFKC_String arg])
    else args
  end.

Definition ParseLine (line : string) : StringCode * list string :=
  let args := [] in
  let line := if HasPrefix line ":" then snd (splitArg line) else line in
  let '(arg, line) := splitArg line in
  let command := ToUpper arg in
  (command, ParseLine_loop (String.length line) line args).

(** ** The registry and the dispatcher *)

Definition parseCommandFuncs : gmap StringCode parseCommandFunc :=
  list_to_map [
    (AWAY, NewAwayCommand);
    (CAP, NewCapCommand);
    (DEBUG, NewDebugCommand);
    (INVITE, NewInviteCommand);
    (ISON, NewIsOnCommand);
    (JOIN, NewJoinCommand);
    (KICK, NewKickCommand);
    (KILL, NewKillCommand);
    (LIST, NewListCommand);
    (MODE, NewModeCommand);
    (MOTD, NewMOTDCommand);
    (NAMES, NewNamesCommand);
    (NICK, NewNickCommand);
    (NOTICE, NewNoticeCommand);
    (OPER, NewOperCommand);
    (PART, NewPartCommand);
    (PASS, NewPassCommand);
    (PING, NewPingCommand);
    (PONG, NewPongCommand);
    (PRIVMSG, NewPrivMsgCommand);
    (PROXY, NewProxyCommand);
    (QUIT, NewQuitCommand);
    (TIME, NewTimeCommand);
    (TOPIC, NewTopicCommand);
    (USER, NewUserCommand);
    (VERSION, NewVersionCommand);
    (WHO, NewWhoCommand);
    (WHOIS, NewWhoisCommand)
  ].

Definition ParseCommand (line : string) : outcome parsed :=
  let '(code, args) := ParseLine line in
  let constructor := parseCommandFuncs !! code in
  '(cmd, err) ← match constructor with
                | None => mret (Some (NewUnknownCommand args), None)
                | Some constructor => constructor args
                end;
  let cmd := match cmd with
             | Some cmd => Some (SetCode cmd code)
             | None => None
             end in
  mret (cmd, err).

End Constructors.

(** ** The methods of the command values *)

(** [BaseCommand.Client] *)
Definition Client (cmd : editableCommand) : option ClientRef := client (Base cmd).

(** Modelled from the spec: the method [ChannelMode.String] is declared
    outside [commands.go]; the spec renders a mode as its letter. *)
Definition ChannelMode_String (mode : ChannelMode) : string := string_of_rune mode.

(** [ModeChange.String]: the operation, then the mode. *)
Definition ModeChange_String (change : ModeChange.t) : string :=
  ModeOp_String (ModeChange.op change) +:+ UserMode_String (ModeChange.mode change).

(** [ChannelModeChange.String] *)
Definition ChannelModeChange_String (change : ChannelModeChange.t) : string :=
  let str := if (ChannelModeChange.op change =? Add) || (ChannelModeChange.op change =? Remove)
             then ModeOp_String (ChannelModeChange.op change)
             else EmptyString in
  let str := str +:+ ChannelMode_String (ChannelModeChange.mode change) in
  if negb (String.eqb (ChannelModeChange.arg change) EmptyString)
  then str +:+ " " +:+ ChannelModeChange.arg change
  else str.

(** [ChannelModeChanges.String]: one operator symbol, every mode letter, then
    every argument that is not empty. *)
Definition ChannelModeChanges_String (changes : ChannelModeChanges) : outcome string :=
  if (length changes =? 0)%nat then mret EmptyString
  else
    first ← index changes 0;
    let str := if ChannelModeChange.op first =? Remove then "-" else "+" in
    let str := foldl (fun str change =>
                        str +:+ ChannelMode_String (ChannelModeChange.mode change))
                     str changes in
    let str := foldl (fun str change =>
                        if String.eqb (ChannelModeChange.arg change) EmptyString then str
                        else str +:+ " " +:+ ChannelModeChange.arg change)
                     str changes in
    mret str.

(** Modelled from the spec: the server context is declared outside
    [commands.go]; of it the commands read the global password hash and the
    operators' hashes by name.  A hash is a byte slice, [None] when [nil]. *)
Record Server : Type := {
  password : option string;
  operators : gmap string (option string)
}.

(** [PassCommand.LoadPassword] and [OperCommand.LoadPassword]; a name that is
    no key of the map reads as [nil].  The methods have no other receiver. *)
Definition LoadPassword (cmd : editableCommand) (server : Server) : editableCommand :=
  match cmd with
  | PassCommand base _ pass err => PassCommand base (password server) pass err
  | OperCommand base _ pass err name =>
    OperCommand base (default None (operators server !! name)) pass err name
  | _ => cmd
  end.

Section Collaborators.

(** [ComparePassword], of the package and outside [commands.go]: [None] when
    the password matches the hash. *)
Variable ComparePassword : string -> string -> option error.

(** [PassCommand.CheckPassword], which [OperCommand] inherits. *)
Definition CheckPassword (cmd : editableCommand) : editableCommand :=
  match cmd with
  | PassCommand base hash pass err =>
    match hash with
    | None => cmd
    | Some h => PassCommand base hash pass (ComparePassword h pass)
    end
  | OperCommand base hash pass err name =>
    match hash with
    | None => cmd
    | Some h => OperCommand base hash pass (ComparePassword h pass) name
    end
  | _ => cmd
  end.

(** The error a credential check left, [None] for success. *)
Definition password_err (cmd : editableCommand) : option error :=
  match cmd with
  | PassCommand _ _ _ err | OperCommand _ _ _ err _ => err
  | _ => None
  end.

(** [Client.Nick], outside [commands.go], called on the client of the
    command, which may be [nil]. *)
Variable Nick : option ClientRef -> outcome string.

(** [PartCommand.Message]; the method has no other receiver. *)
Definition Message (cmd : editableCommand) : outcome string :=
  match cmd with
  | PartCommand _ _ message =>
    if String.eqb message EmptyString then Nick (Client cmd) else mret message
  | _ => mret EmptyString
  end.

(** [KickCommand.Comment]; the method has no other receiver. *)
Definition Comment (cmd : editableCommand) : outcome string :=
  match cmd with
  | KickCommand _ _ comment =>
    if String.eqb comment EmptyString then Nick (Client cmd) else mret comment
  | _ => mret EmptyString
  end.

End Collaborators.

(** ** Instances for evaluation

    The theorems below hold for every [Declarations] and every
    [UnicodeText].  To run the parser on an input one needs some instance:
    [rfc_declarations] takes the letters of RFC 2811 and RFC 2812, and
    [ascii_text] is the text library restricted to what it does on ASCII. *)

Definition first_byte_in (set : string) (s : string) : bool :=
  match s with
  | String c _ => existsb (Ascii.eqb c) (list_ascii_of_string set)
  | EmptyString => false
  end.

#[local] Instance rfc_declarations : Declarations := {|
  IsChannel := first_byte_in "#&+!";
  LookupHostname := fun ip => ip;
  List := byte_val "=";
  Key := byte_val "k";
  BanMask := byte_val "b";
  ExceptMask := byte_val "e";
  InviteMask := byte_val "I";
  UserLimit := byte_val "l";
  ChannelCreator := byte_val "O";
  WallOps := byte_val "w";
  Invisible := byte_val "i"
|}.

#[local] Instance ascii_text : UnicodeText := {|
  ToUpper := ascii_upper;
  NFC_String := fun s => s;
  NFKC_String := fun s => s;
  ToUpper_ascii := fun s _ => eq_refl;
  NFC_ascii := fun s _ => eq_refl;
  NFKC_ascii := fun s _ => eq_refl
|}.

(** ** Vocabulary of the properties *)

Abbreviation cmode := ChannelModeChange.mode.
Abbreviation cop := ChannelModeChange.op.
Abbreviation carg := ChannelModeChange.arg.
Abbreviation umode := ModeChange.mode.
Abbreviation uop := ModeChange.op.

(** No byte of [s] is a space. *)
Fixpoint no_space (s : string) : bool :=
  match s with
  | EmptyString => true
  | String c t => negb (Ascii.eqb c space) && no_space t
  end.

Definition starts_with_space (s : string) : bool :=
  match s with
  | String c _ => Ascii.eqb c space
  | EmptyString => false
  end.

(** A token: not empty, and without a space. *)
Definition token (s : string) : Prop := no_space s = true /\ s <> EmptyString.

(** The ASCII white space, as [unicode.IsSpace] has it: the space and the
    control characters from TAB to CR. *)
Definition is_white (c : ascii) : bool :=
  let v := byte_val c in (v =? 32) || ((9 <=? v) && (v <=? 13)).

Fixpoint has_whitespace (s : string) : bool :=
  match s with
  | EmptyString => false
  | String c t => is_white c || has_whitespace t
  end.

Definition tab : ascii := "009"%char.

(** [suffix] is the text of [s] from some byte on. *)
Definition string_suffix (suffix s : string) : Prop := exists before, s = before +:+ suffix.

(** [suffix] is what follows some space of [s]. *)
Definition after_space (suffix s : string) : Prop :=
  exists before, s = before +:+ String space suffix.

(** [tok] is a piece of [line]: it stands in the line behind a space, and the
    end of the line or a space follows it. *)
Definition piece (tok line : string) : Prop :=
  exists before after,
    line = before +:+ String space (tok +:+ after)
    /\ (after = EmptyString \/ starts_with_space after = true).

Definition trailing_list (trailing : option string) : list string :=
  match trailing with
  | Some text => [text]
  | None => []
  end.

(** The operation and the letters of a mode argument that starts with the
    byte [b]: a sign is stripped and sets the operation, anything else stays
    a letter under [List]. *)
Definition signed (b : ascii) : bool := ((byte_val b =? Add) || (byte_val b =? Remove))%Z.
Definition token_letters (b : ascii) (t : string) : string :=
  if signed b then t else String b t.

(** A mode argument the user-mode parser accepts: empty, or led by a sign. *)
Definition mode_arg_ok (a : string) : bool :=
  match a with
  | EmptyString => true
  | String b _ => signed b
  end.

(** The changes of one accepted argument. *)
Definition sign_changes (a : string) : ModeChanges :=
  match a with
  | EmptyString => []
  | String b t => map (fun mode => ModeChange.Build_t mode (byte_val b)) (range_runes t)
  end.

Definition join (l : list string) : string := fold_right String.append EmptyString l.

(** The assignments [m[k] = v] of a list of pairs, in order. *)
Definition pair_up (m : gmap string string) (pairs : list (string * string))
    : gmap string string :=
  foldl (fun m p => <[p.1 := p.2]> m) m pairs.

(** The keys of JOIN: those of the second argument, none without it. *)
Definition join_keys (rest : list string) : list string :=
  match rest with
  | [] => []
  | arg1 :: _ => strings_Split arg1 comma
  end.

(** The users of KICK as paired with the channels: the single user for each
    channel, or the users as given. *)
Definition kick_users (channels users : list string) : list string :=
  match users with
  | [user] => replicate (length channels) user
  | _ => users
  end.

(** A constructor whose only error is the arity error. *)
Definition arity_only (f : parseCommandFunc) : Prop :=
  forall args cmd e, f args = Returned (cmd, Some e) -> e = NotEnoughArgsError.

(** The changes of a returned channel-mode command, of a returned user-mode
    command. *)
Definition channel_changes_of (r : outcome parsed) : option ChannelModeChanges :=
  match r with
  | Returned (Some (ChannelModeCommand _ _ changes), None) => Some changes
  | _ => None
  end.

Definition user_changes_of (r : outcome parsed) : option ModeChanges :=
  match r with
  | Returned (Some (ModeCommand _ _ changes), None) => Some changes
  | _ => None
  end.

Section Vocabulary.
Context `{D : Declarations}.

Definition with_arg (c : ChannelModeChange.t) : bool := takes_arg (cmode c).

Definition token_op (b : ascii) : ModeOp := if signed b then byte_val b else List.

End Vocabulary.

Definition dash : rune := byte_val "-".

(** A mode argument that is neither empty nor led by a sign. *)
Definition unsigned_arg (a : string) : Prop :=
  exists b t, a = String b t /\ signed b = false.

(** ** Vocabulary of the further properties *)

(** A middle parameter: a token that does not start with a colon. *)
Definition middle (p : string) : Prop := token p /\ HasPrefix p ":" = false.

(** A command word: no space in it, and no colon at its start. *)
Definition command_word (c : string) : Prop :=
  no_space c = true /\ HasPrefix c ":" = false.

(** [n] spaces. *)
Fixpoint spaces (n : nat) : string :=
  match n with
  | O => EmptyString
  | S n => String space (spaces n)
  end.

(** The end of a line: the trailing parameter behind a colon, after a run of
    [n + 1] spaces, or without one the [n] spaces that end the line. *)
Definition wire_tail (n : nat) (trailing : option string) : string :=
  match trailing with
  | Some text => spaces (S n) +:+ String ":" text
  | None => spaces n
  end.

(** The parameters of a line as written: each middle parameter after a run
    of spaces, one more than the number paired with it, then the end of the
    line. *)
Fixpoint wire_params (params : list (nat * string)) (tail : string) : string :=
  match params with
  | [] => tail
  | (n, p) :: params => spaces (S n) +:+ p +:+ wire_params params tail
  end.

Definition wire (command : string) (params : list (nat * string)) (n : nat)
    (trailing : option string) : string :=
  command +:+ wire_params params (wire_tail n trailing).

(** The text that the separator of a parameter leaves: the parameters that
    follow, without the spaces before the first of them. *)
Definition params_text (params : list (nat * string)) (n : nat) (trailing : option string)
    : string :=
  match params with
  | [] => match trailing with
          | Some text => String ":" text
          | None => EmptyString
          end
  | (_, p) :: params => p +:+ wire_params params (wire_tail n trailing)
  end.

(** What a constructor hands back when it returns: a command whose base is
    still blank and no error, or no command and an error. *)
Definition settled (r : outcome parsed) : Prop :=
  (exists cmd, r = ok cmd /\ Base cmd = base0) \/ (exists e, r = failed e).

(** The fields joined by the byte [sep], as [strings.Join] does. *)
Fixpoint join_with (sep : ascii) (fields : list string) : string :=
  match fields with
  | [] => EmptyString
  | [field] => field
  | field :: fields => field +:+ String sep (join_with sep fields)
  end.

(** No byte of [s] is [sep]. *)
Fixpoint no_byte (sep : ascii) (s : string) : bool :=
  match s with
  | EmptyString => true
  | String c t => negb (Ascii.eqb c sep) && no_byte sep t
  end.

(** The constructors that read a fixed number of leading arguments, each with
    the number it requires and the number it reads. *)
Definition arity_table `{D : Declarations} `{U : UnicodeText}
    : list (parseCommandFunc * nat * nat) :=
  [(NewPingCommand, 1, 2); (NewPongCommand, 1, 2); (NewPassCommand, 1, 1);
   (NewQuitCommand, 0, 1); (NewPartCommand, 1, 2); (NewPrivMsgCommand, 2, 2);
   (NewNoticeCommand, 2, 2); (NewTopicCommand, 1, 2); (NewWhoisCommand, 1, 2);
   (NewWhoCommand, 0, 2); (NewOperCommand, 2, 2); (NewCapCommand, 1, 2);
   (NewProxyCommand, 5, 5); (NewAwayCommand, 0, 1); (NewMOTDCommand, 0, 1);
   (NewListCommand, 0, 2); (NewNamesCommand, 0, 2); (NewDebugCommand, 1, 1);
   (NewVersionCommand, 0, 1); (NewInviteCommand, 2, 2); (NewTimeCommand, 0, 1);
   (NewKillCommand, 2, 2); (NewAuthenticateCommand, 1, 1)]%nat.

(** What a row of the table says of its constructor. *)
Definition reads (row : parseCommandFunc * nat * nat) : Prop :=
  let '(constructor, required, used) := row in
  forall args : list string,
    (constructor args = failed NotEnoughArgsError <-> (length args < required)%nat)
    /\ ((required <= length args)%nat -> exists cmd, constructor args = ok cmd)
    /\ constructor args = constructor (take used args).

(** The capability text of CAP: its second argument split at the runs of
    spaces, nothing without it. *)
Definition cap_pieces (rest : list string) : list string :=
  match rest with
  | [] => []
  | arg1 :: _ => spacesExpr_Split arg1 (-1)
  end.

(** A text of decimal digits, and the number it writes. *)
Fixpoint all_digits (s : string) : bool :=
  match s with
  | EmptyString => true
  | String c t => (48 <=? byte_val c) && (byte_val c <=? 57) && all_digits t
  end.

Fixpoint decimal_from (n : Z) (s : string) : Z :=
  match s with
  | EmptyString => n
  | String c t => decimal_from (n * 10 + (byte_val c - 48)) t
  end.

Definition decimal (s : string) : Z := decimal_from 0 s.

(** The mode field of USER that selects the RFC 2812 form. *)
Definition numeric_mode (s : string) : bool :=
  negb (String.eqb s EmptyString) && all_digits s && (decimal s <=? 255).

(** The last position of [c] in [channels] is [i]. *)
Definition last_at (channels : list string) (c : string) (i : nat) : Prop :=
  channels !! i = Some c /\ forall j, (i < j)%nat -> channels !! j <> Some c.

(** The arguments that the changes hold, in order: the ones that are not
    empty. *)
Definition non_empty (a : string) : bool := negb (String.eqb a EmptyString).

Definition claimed (changes : ChannelModeChanges) : list string :=
  List.filter non_empty (map carg changes).

(** The arguments as they follow the modes in a rendered change list: each
    after one space. *)
Definition spaced (args : list string) : string :=
  join (map (fun a => " " +:+ a) args).

(** * Properties *)

(** ** The model at a few inputs *)

Example range_runes_utf8 : range_runes "aé€" = [97; 233; 8364].
Proof. reflexivity. Qed.

Example range_runes_invalid :
  range_runes (String (byte_of 0xC0) (String (byte_of 0x80) "a")) = [RuneError; RuneError; 97].
Proof. reflexivity. Qed.

Example strings_Split_fields :
  strings_Split "#a,#b,,c" comma = ["#a"; "#b"; EmptyString; "c"]
  /\ strings_Split EmptyString comma = [EmptyString].
Proof. split; reflexivity. Qed.

Example ParseUint8_samples :
  map ParseUint8 ["12"; "255"; "256"; "007"; "+1"; "host"; EmptyString]
  = [Some 12; Some 255; None; Some 7; None; None; None].
Proof. reflexivity. Qed.

Example spacesExpr_Split_pieces :
  spacesExpr_Split "a  b c " 2 = ["a"; "b c "]
  /\ spacesExpr_Split "a  b c " (-1) = ["a"; "b"; "c"; EmptyString]
  /\ spacesExpr_Split " a" 2 = [EmptyString; "a"].
Proof. repeat split; reflexivity. Qed.

Example ParseLine_prefix_and_trailing :
  @ParseLine ascii_text ":irc.example.net  privmsg  #chan  :hello  world "
  = ("PRIVMSG", ["#chan"; "hello  world "]).
Proof. reflexivity. Qed.

Example ParseCommand_nick :
  @ParseCommand rfc_declarations ascii_text ":prefix NICK alice"
  = Returned (Some (NickCommand {| client := None; code := NICK |} "alice"), None).
Proof. reflexivity. Qed.

Example ParseCommand_cap :
  @ParseCommand rfc_declarations ascii_text "CAP req :multi-prefix sasl"
  = Returned (Some (CapCommand {| client := None; code := CAP |} "REQ"
                      (<["multi-prefix" := true]> (<["sasl" := true]> ∅))), None).
Proof. reflexivity. Qed.

Example ParseCommand_arity :
  @ParseCommand rfc_declarations ascii_text "PRIVMSG #chan"
  = Returned (None, Some NotEnoughArgsError).
Proof. reflexivity. Qed.

(** [ModeChanges.String] at a change of operation: a space and the new
    operator symbol, and the letter of that change is not written. *)
Example ModeChanges_String_two_runs :
  ModeChanges_String [ModeChange.Build_t (byte_val "i") Add;
                      ModeChange.Build_t (byte_val "w") Add;
                      ModeChange.Build_t (byte_val "o") Remove]
  = Returned "+iw -".
Proof. reflexivity. Qed.

(** ** Indexing and slicing *)

Section Outcome.
Local Open Scope nat_scope.
Context {A : Type}.
Implicit Types (l : list A) (i : nat).

Lemma index_lookup l i x : l !! i = Some x -> index l i = Returned x.
Proof. intros H. unfold index. now rewrite H. Qed.

Lemma index_head x l : index (x :: l) 0 = Returned x.
Proof. reflexivity. Qed.

Lemma index_lt l i : i < length l -> exists x, l !! i = Some x /\ index l i = Returned x.
Proof.
  intros H. destruct (lookup_lt_is_Some_2 l i H) as [x Hx].
  exists x. split; [exact Hx | now apply index_lookup].
Qed.

Lemma index_ge l i : length l <= i -> index l i = Panicked (IndexOutOfRange i (length l)).
Proof. intros H. unfold index. now rewrite (lookup_ge_None_2 l i H). Qed.

Lemma slice_from_le l i : i <= length l -> slice_from l i = Returned (drop i l).
Proof.
  intros H. unfold slice_from.
  destruct (Nat.leb_spec i (length l)); [reflexivity | lia].
Qed.

Lemma store_lt l i x : i < length l -> store l i x = Returned (<[i := x]> l).
Proof.
  intros H. unfold store.
  destruct (Nat.ltb_spec i (length l)); [reflexivity | lia].
Qed.

Lemma store_ge l i x : length l <= i -> store l i x = Panicked (IndexOutOfRange i (length l)).
Proof.
  intros H. unfold store.
  destruct (Nat.ltb_spec i (length l)); [lia | reflexivity].
Qed.

End Outcome.

Lemma byte_at_head c s : byte_at (String c s) 0 = Returned c.
Proof. reflexivity. Qed.

Lemma string_slice_from_1 c s : string_slice_from (String c s) 1 = Returned s.
Proof. reflexivity. Qed.

Lemma string_length_0 s : (String.length s =? 0)%nat = true -> s = EmptyString.
Proof. destruct s; [reflexivity | discriminate]. Qed.

(** ** The channel-mode parser *)

Section ChannelModes.
Local Open Scope nat_scope.
Context `{D : Declarations}.

Lemma takes_arg_ChannelOperator : takes_arg ChannelOperator = true.
Proof.
  unfold takes_arg. apply existsb_exists. exists ChannelOperator.
  split; [simpl; tauto | apply Z.eqb_refl].
Qed.

Lemma takes_arg_Voice : takes_arg Voice = true.
Proof.
  unfold takes_arg. apply existsb_exists. exists Voice.
  split; [simpl; tauto | apply Z.eqb_refl].
Qed.

(** One mode argument: the letters become changes in order, all under the
    operation of the argument; the letters that take an argument claim
    [args[skipArgs]], [args[skipArgs+1]], ... in their own order, as long as
    arguments remain, and [skipArgs] moves past the claimed ones. *)
Lemma channelModeLetters_returns args op modes :
  forall changes skipArgs,
    skipArgs <= length args ->
    let n := length (List.filter takes_arg modes) in
    exists added,
      channelModeLetters args op modes changes skipArgs
        = Returned (changes ++ added, Nat.min (length args) (skipArgs + n))
      /\ map cmode added = modes
      /\ Forall (fun c => cop c = op) added
      /\ map carg (List.filter with_arg added)
           = take n (drop skipArgs args) ++ replicate (n - (length args - skipArgs)) EmptyString
      /\ Forall (fun c => carg c = EmptyString) (List.filter (fun c => negb (with_arg c)) added).
Proof.
  induction modes as [|mode modes IH]; intros changes skipArgs Hle; cbn zeta.
  - exists []. cbn. rewrite app_nil_r, Nat.add_0_r, Nat.min_r by lia.
    repeat split; auto.
  - cbn [channelModeLetters List.filter].
    destruct (takes_arg mode) eqn:Htakes.
    + destruct (Nat.ltb_spec skipArgs (length args)) as [Hlt|Hge].
      * destruct (index_lt args skipArgs Hlt) as (a & Hlook & Hidx).
        rewrite Hidx. cbn [mbind outcome_bind mret outcome_ret].
        destruct (IH (changes ++ [ChannelModeChange.Build_t mode op a]) (skipArgs + 1))
          as (added & Hrun & Hmodes & Hops & Hargs & Hnone); [lia|].
        exists (ChannelModeChange.Build_t mode op a :: added).
        rewrite Hrun, <- app_assoc. cbn [app length].
        repeat split.
        -- do 2 f_equal. lia.
        -- cbn. now rewrite Hmodes.
        -- constructor; [reflexivity | exact Hops].
        -- cbn [List.filter]. unfold with_arg at 1. cbn [cmode]. rewrite Htakes.
           cbn [map]. rewrite Hargs.
           rewrite (drop_S _ _ _ Hlook). cbn [take app].
           replace (skipArgs + 1) with (S skipArgs) by lia.
           do 3 f_equal. lia.
        -- cbn [List.filter]. unfold with_arg at 1. cbn [cmode]. rewrite Htakes. exact Hnone.
      * cbn [mbind outcome_bind mret outcome_ret].
        destruct (IH (changes ++ [ChannelModeChange.Build_t mode op EmptyString]) skipArgs)
          as (added & Hrun & Hmodes & Hops & Hargs & Hnone); [lia|].
        exists (ChannelModeChange.Build_t mode op EmptyString :: added).
        rewrite Hrun, <- app_assoc. cbn [app length].
        repeat split.
        -- do 2 f_equal. lia.
        -- cbn. now rewrite Hmodes.
        -- constructor; [reflexivity | exact Hops].
        -- cbn [List.filter]. unfold with_arg at 1. cbn [cmode]. rewrite Htakes.
           cbn [map]. rewrite Hargs.
           rewrite !drop_ge by lia. rewrite !take_nil. cbn [app].
           replace (length args - skipArgs) with 0 by lia.
           rewrite !Nat.sub_0_r. reflexivity.
        -- cbn [List.filter]. unfold with_arg at 1. cbn [cmode]. rewrite Htakes. exact Hnone.
    + cbn [mbind outcome_bind mret outcome_ret].
      destruct (IH (changes ++ [ChannelModeChange.Build_t mode op EmptyString]) skipArgs)
        as (added & Hrun & Hmodes & Hops & Hargs & Hnone); [lia|].
      exists (ChannelModeChange.Build_t mode op EmptyString :: added).
      rewrite Hrun, <- app_assoc. cbn [app].
      repeat split.
      * cbn. now rewrite Hmodes.
      * constructor; [reflexivity | exact Hops].
      * cbn [List.filter]. unfold with_arg at 1. cbn [cmode]. rewrite Htakes. exact Hargs.
      * cbn [List.filter]. unfold with_arg at 1. cbn [cmode]. rewrite Htakes.
        cbn [negb]. constructor; [reflexivity | exact Hnone].
Qed.

Lemma channelModeLoop_empty_arg fuel rest changes :
  channelModeLoop (S fuel) (EmptyString :: rest) changes = channelModeLoop fuel rest changes.
Proof. reflexivity. Qed.

Lemma channelModeLoop_token fuel b t rest changes :
  channelModeLoop (S fuel) (String b t :: rest) changes
  = ('(changes, skipArgs) ← channelModeLetters (String b t :: rest) (token_op b)
                              (range_runes (token_letters b t)) changes 1;
     args ← slice_from (String b t :: rest) skipArgs;
     channelModeLoop fuel args changes).
Proof.
  unfold token_op, token_letters, signed.
  cbn [channelModeLoop length Nat.ltb Nat.leb index lookup list_lookup String.length
       Nat.eqb mbind outcome_bind mret outcome_ret byte_at String.get string_slice_from
       string_from].
  destruct ((byte_val b =? Add) || (byte_val b =? Remove))%Z; reflexivity.
Qed.

(** The outer loop returns: no index is out of range, whatever the
    arguments. *)
Lemma channelModeLoop_returns fuel :
  forall args changes, exists added,
    channelModeLoop fuel args changes = Returned (changes ++ added).
Proof.
  induction fuel as [|fuel IH]; intros args changes.
  - exists []. cbn. now rewrite app_nil_r.
  - destruct args as [|[|b t] rest].
    + exists []. cbn. now rewrite app_nil_r.
    + rewrite channelModeLoop_empty_arg. apply IH.
    + rewrite channelModeLoop_token.
      destruct (channelModeLetters_returns (String b t :: rest) (token_op b)
                  (range_runes (token_letters b t)) changes 1)
        as (added & Hrun & _); [cbn; lia|].
      rewrite Hrun. cbn [mbind outcome_bind].
      rewrite slice_from_le by lia. cbn [mbind outcome_bind].
      destruct (IH (drop (Nat.min (length (String b t :: rest))
                            (1 + length (List.filter takes_arg (range_runes (token_letters b t)))))
                         (String b t :: rest)) (changes ++ added)) as (later & Hlater).
      exists (added ++ later). now rewrite Hlater, app_assoc.
Qed.

(** Every turn of the outer loop drops at least one argument, so the result
    does not depend on the fuel once it covers the arguments. *)
Lemma channelModeLoop_fuel fuel :
  forall fuel' args changes,
    length args <= fuel -> length args <= fuel' ->
    channelModeLoop fuel args changes = channelModeLoop fuel' args changes.
Proof.
  induction fuel as [|fuel IH]; intros fuel' args changes Hf Hf'.
  - destruct args; [|cbn in Hf; lia]. now destruct fuel'.
  - destruct args as [|[|b t] rest]; [now destruct fuel'| |];
      (destruct fuel' as [|fuel']; [cbn in Hf'; lia|]).
    + rewrite !channelModeLoop_empty_arg. cbn in Hf, Hf'. apply IH; lia.
    + rewrite !channelModeLoop_token.
      destruct (channelModeLetters_returns (String b t :: rest) (token_op b)
                  (range_runes (token_letters b t)) changes 1)
        as (added & Hrun & _); [cbn; lia|].
      rewrite Hrun. cbn [mbind outcome_bind].
      rewrite slice_from_le by lia. cbn [mbind outcome_bind].
      cbn [length] in *.
      apply IH; rewrite length_drop; cbn [length]; lia.
Qed.

Lemma NewChannelModeCommand_returns channel rest :
  exists changes,
    NewChannelModeCommand (channel :: rest) = ok (ChannelModeCommand base0 channel changes).
Proof.
  unfold NewChannelModeCommand.
  cbn [index lookup list_lookup mbind outcome_bind slice_from length Nat.leb drop].
  rewrite drop_0.
  destruct (channelModeLoop_returns (length rest) rest []) as (added & Hrun).
  rewrite Hrun. exists added. reflexivity.
Qed.

End ChannelModes.

Section ChannelModeRuns.
Local Open Scope nat_scope.
Context `{D : Declarations}.

Lemma channelModeLetters_cons args op mode modes changes skipArgs :
  channelModeLetters args op (mode :: modes) changes skipArgs
  = (let '(a, skipArgs) :=
       if takes_arg mode && (skipArgs <? length args)
       then (default EmptyString (args !! skipArgs), skipArgs + 1)
       else (EmptyString, skipArgs) in
     channelModeLetters args op modes
       (changes ++ [ChannelModeChange.Build_t mode op a]) skipArgs).
Proof.
  cbn [channelModeLetters].
  destruct (takes_arg mode); [|reflexivity].
  destruct (Nat.ltb_spec skipArgs (length args)) as [Hlt|Hge]; [|reflexivity].
  destruct (index_lt args skipArgs Hlt) as (a & Hlook & Hidx).
  rewrite Hidx, Hlook. reflexivity.
Qed.

Lemma plus_o_dash_v :
  NewChannelModeCommand ["#chan"; "+o-v"; "alice"; "bob"]
  = ok (ChannelModeCommand base0 "#chan"
          [ChannelModeChange.Build_t ChannelOperator Add "alice";
           ChannelModeChange.Build_t dash Add (if takes_arg dash then "bob" else EmptyString);
           ChannelModeChange.Build_t Voice Add (if takes_arg dash then EmptyString else "bob")]).
Proof.
  unfold NewChannelModeCommand.
  cbn [index lookup list_lookup mbind outcome_bind slice_from length Nat.leb drop].
  rewrite channelModeLoop_token.
  change (token_op "+") with Add.
  change (range_runes (token_letters "+" "o-v")) with [ChannelOperator; dash; Voice].
  rewrite channelModeLetters_cons, takes_arg_ChannelOperator.
  cbn [andb length Nat.ltb Nat.leb lookup list_lookup default Nat.add app].
  rewrite channelModeLetters_cons.
  destruct (takes_arg dash);
    cbn [andb length Nat.ltb Nat.leb lookup list_lookup default Nat.add app];
    rewrite channelModeLetters_cons, takes_arg_Voice; reflexivity.
Qed.

Lemma plus_o_minus_v :
  NewChannelModeCommand ["#chan"; "+o"; "alice"; "-v"; "bob"]
  = ok (ChannelModeCommand base0 "#chan"
          [ChannelModeChange.Build_t ChannelOperator Add "alice";
           ChannelModeChange.Build_t Voice Remove "bob"]).
Proof.
  unfold NewChannelModeCommand.
  cbn [index lookup list_lookup mbind outcome_bind slice_from length Nat.leb drop].
  rewrite channelModeLoop_token.
  change (token_op "+") with Add.
  change (range_runes (token_letters "+" "o")) with [ChannelOperator].
  rewrite channelModeLetters_cons, takes_arg_ChannelOperator.
  cbn [andb length Nat.ltb Nat.leb lookup list_lookup default channelModeLetters mbind
       outcome_bind mret outcome_ret slice_from drop Nat.add app].
  rewrite channelModeLoop_token.
  change (token_op "-") with Remove.
  change (range_runes (token_letters "-" "v")) with [Voice].
  rewrite channelModeLetters_cons, takes_arg_Voice.
  reflexivity.
Qed.

End ChannelModeRuns.

(** ** The user-mode parser and the rendering of its changes *)

Lemma userModeLoop_accepts rest :
  forall changes,
    forallb mode_arg_ok rest = true ->
    userModeLoop rest changes = Returned (inl (changes ++ List.concat (map sign_changes rest))).
Proof.
  induction rest as [|a rest IH]; intros changes Hok.
  - cbn. now rewrite app_nil_r.
  - cbn [forallb] in Hok. apply andb_prop in Hok as [Ha Hrest].
    destruct a as [|b t].
    + cbn [userModeLoop String.length Nat.eqb map sign_changes List.concat app].
      now apply IH.
    + cbn [mode_arg_ok] in Ha. unfold signed in Ha.
      cbn [userModeLoop String.length Nat.eqb byte_at String.get mbind outcome_bind
           string_slice_from Nat.leb string_from mret outcome_ret].
      rewrite <- negb_orb, Ha. cbn [negb].
      rewrite IH by exact Hrest.
      cbn [map sign_changes List.concat]. now rewrite app_assoc.
Qed.

Lemma userModeLoop_rejects rest :
  forall changes,
    forallb mode_arg_ok rest = false ->
    userModeLoop rest changes = Returned (inr ErrParseCommand).
Proof.
  induction rest as [|a rest IH]; intros changes Hbad; [discriminate|].
  cbn [forallb] in Hbad.
  destruct a as [|b t].
  - cbn [userModeLoop String.length Nat.eqb]. now apply IH.
  - cbn [mode_arg_ok] in Hbad. unfold signed in Hbad.
    cbn [userModeLoop String.length Nat.eqb byte_at String.get mbind outcome_bind
         string_slice_from Nat.leb string_from mret outcome_ret].
    rewrite <- negb_orb.
    destruct ((byte_val b =? Add) || (byte_val b =? Remove)); cbn [negb andb] in *.
    + now apply IH.
    + reflexivity.
Qed.

Lemma NewUserModeCommand_cases nickname rest :
  NewUserModeCommand (nickname :: rest)
  = if forallb mode_arg_ok rest
    then ok (ModeCommand base0 nickname (List.concat (map sign_changes rest)))
    else failed ErrParseCommand.
Proof.
  unfold NewUserModeCommand.
  cbn [index lookup list_lookup mbind outcome_bind slice_from length Nat.leb drop].
  rewrite drop_0.
  destruct (forallb mode_arg_ok rest) eqn:Hok.
  - now rewrite userModeLoop_accepts.
  - now rewrite userModeLoop_rejects.
Qed.

(** *** Rendering *)

Lemma append_cons (x : ascii) (a b : string) : String x a +:+ b = String x (a +:+ b).
Proof. reflexivity. Qed.

Lemma append_assoc (a b c : string) : (a +:+ b) +:+ c = a +:+ (b +:+ c).
Proof. induction a as [|x a IH]; [reflexivity | now rewrite !append_cons, IH]. Qed.

Lemma append_empty_r (a : string) : a +:+ EmptyString = a.
Proof. induction a as [|x a IH]; [reflexivity | now rewrite append_cons, IH]. Qed.

(** A run of changes under one operation appends its letters and leaves the
    current operation in place. *)
Lemma render_run op modes :
  forall str,
    foldl (fun '(op, str) change =>
             if uop change =? op
             then (op, str +:+ UserMode_String (umode change))
             else (uop change, str +:+ " " +:+ ModeOp_String (uop change)))
          (op, str) (map (fun mode => ModeChange.Build_t mode op) modes)
    = (op, str +:+ join (map UserMode_String modes)).
Proof.
  induction modes as [|mode modes IH]; intros str.
  - cbn. now rewrite append_empty_r.
  - cbn [map foldl uop umode]. rewrite Z.eqb_refl, IH.
    cbn [join fold_right map]. now rewrite append_assoc.
Qed.

Lemma ModeChanges_String_run op mode modes :
  ModeChanges_String (map (fun mode => ModeChange.Build_t mode op) (mode :: modes))
  = Returned (ModeOp_String op +:+ join (map UserMode_String (mode :: modes))).
Proof.
  unfold ModeChanges_String.
  cbn [map length Nat.eqb index lookup list_lookup mbind outcome_bind uop].
  change (ModeChange.Build_t mode op :: map (fun mode => ModeChange.Build_t mode op) modes)
    with (map (fun mode => ModeChange.Build_t mode op) (mode :: modes)).
  now rewrite render_run.
Qed.

(** *** ASCII letters survive decoding and encoding *)

Lemma byte_val_range c : 0 <= byte_val c < 256.
Proof.
  unfold byte_val. split; [apply N2Z.is_nonneg|].
  pose proof (N_ascii_bounded c) as H. lia.
Qed.

Lemma byte_of_val c : byte_of (byte_val c) = c.
Proof. unfold byte_of, byte_val. now rewrite N2Z.id, ascii_N_embedding. Qed.

Lemma range_runes_from_ascii s :
  is_ascii s = true -> range_runes_from 0 s = map byte_val (list_ascii_of_string s).
Proof.
  induction s as [|c s IH]; intros Hs; [reflexivity|].
  cbn [is_ascii] in Hs. apply andb_prop in Hs as [Hc Hs].
  cbn [range_runes_from DecodeRuneInString list_ascii_of_string map].
  rewrite Hc. cbn [Nat.sub]. now rewrite IH.
Qed.

Lemma string_of_rune_ascii c : (byte_val c <? 0x80) = true -> string_of_rune (byte_val c) = String c EmptyString.
Proof.
  intros Hc. apply Z.ltb_lt in Hc. pose proof (byte_val_range c) as Hr.
  unfold string_of_rune.
  destruct (Z.ltb_spec (byte_val c) 0); [lia|].
  destruct (Z.ltb_spec 0x10FFFF (byte_val c)); [lia|].
  destruct (Z.leb_spec 0xD800 (byte_val c)); [lia|].
  destruct (Z.leb_spec (byte_val c) 0x7F); [|lia].
  cbn [orb andb]. now rewrite byte_of_val.
Qed.

Lemma join_runes_ascii s :
  is_ascii s = true -> join (map UserMode_String (range_runes s)) = s.
Proof.
  unfold range_runes. intros Hs. rewrite range_runes_from_ascii by exact Hs.
  induction s as [|c s IH]; [reflexivity|].
  cbn [is_ascii] in Hs. apply andb_prop in Hs as [Hc Hs].
  cbn [list_ascii_of_string map join fold_right].
  unfold UserMode_String at 1. rewrite string_of_rune_ascii by exact Hc.
  rewrite append_cons. f_equal. now apply IH.
Qed.

Lemma signed_ascii b : signed b = true -> (byte_val b <? 0x80) = true.
Proof.
  unfold signed, Add, Remove. intros H. apply orb_prop in H.
  apply Z.ltb_lt. change (byte_val "+") with 43 in H. change (byte_val "-") with 45 in H.
  destruct H as [H|H]; apply Z.eqb_eq in H; lia.
Qed.

(** Parsing one signed argument of ASCII letters and rendering the changes
    gives the argument back. *)
Lemma user_mode_round_trip nickname b letters :
  signed b = true -> is_ascii letters = true -> letters <> EmptyString ->
  NewUserModeCommand [nickname; String b letters]
    = ok (ModeCommand base0 nickname (sign_changes (String b letters)))
  /\ ModeChanges_String (sign_changes (String b letters)) = Returned (String b letters).
Proof.
  intros Hb Hascii Hne. split.
  - rewrite NewUserModeCommand_cases. cbn [forallb mode_arg_ok map List.concat].
    rewrite Hb. cbn [andb]. now rewrite app_nil_r.
  - cbn [sign_changes].
    destruct (range_runes letters) as [|mode modes] eqn:Hrunes.
    + exfalso. apply Hne. rewrite <- (join_runes_ascii letters Hascii), Hrunes. reflexivity.
    + pose proof (join_runes_ascii letters Hascii) as Hjoin. rewrite Hrunes in Hjoin.
      rewrite ModeChanges_String_run. f_equal.
      unfold ModeOp_String. rewrite string_of_rune_ascii by now apply signed_ascii.
      rewrite append_cons. f_equal. exact Hjoin.
Qed.

(** ** The errors of the constructors *)

Create HintDb constructors.

#[local] Hint Unfold NewAwayCommand NewCapCommand NewDebugCommand NewInviteCommand
  NewIsOnCommand NewJoinCommand NewKickCommand NewKillCommand NewListCommand
  NewMOTDCommand NewNamesCommand NewNickCommand NewNoticeCommand NewOperCommand
  NewPartCommand NewPassCommand NewPingCommand NewPongCommand NewPrivMsgCommand
  NewProxyCommand NewQuitCommand NewTimeCommand NewTopicCommand NewUserCommand
  NewVersionCommand NewWhoCommand NewWhoisCommand
  optional optional_list ok failed mbind outcome_bind mret outcome_ret : constructors.

Ltac arity_only :=
  intros args cmd e H;
  autounfold with constructors in H;
  repeat case_match; simplify_eq; reflexivity.

Section Errors.
Context `{D : Declarations} `{U : UnicodeText}.

Lemma arity_only_constructors :
  Forall arity_only
    [NewAwayCommand; NewCapCommand; NewDebugCommand; NewInviteCommand; NewIsOnCommand;
     NewJoinCommand; NewKickCommand; NewKillCommand; NewListCommand; NewMOTDCommand;
     NewNamesCommand; NewNickCommand; NewNoticeCommand; NewOperCommand; NewPartCommand;
     NewPassCommand; NewPingCommand; NewPongCommand; NewPrivMsgCommand; NewProxyCommand;
     NewQuitCommand; NewTimeCommand; NewTopicCommand; NewUserCommand; NewVersionCommand;
     NewWhoCommand; NewWhoisCommand].
Proof.
  repeat constructor; arity_only.
Qed.

(** What [NewModeCommand] does, by cases. *)
Lemma NewModeCommand_cases args :
  NewModeCommand args
  = match args with
    | [] => failed NotEnoughArgsError
    | subject :: rest =>
      if IsChannel subject then NewChannelModeCommand (subject :: rest)
      else if forallb mode_arg_ok rest
           then ok (ModeCommand base0 subject (List.concat (map sign_changes rest)))
           else failed ErrParseCommand
    end.
Proof.
  destruct args as [|subject rest]; [reflexivity|].
  unfold NewModeCommand.
  cbn [length Nat.eqb index lookup list_lookup mbind outcome_bind].
  destruct (IsChannel subject); [reflexivity|].
  apply NewUserModeCommand_cases.
Qed.

(** The registry, entry by entry. *)
Lemma parseCommandFuncs_Some code constructor :
  parseCommandFuncs !! code = Some constructor ->
  (code = MODE /\ constructor = NewModeCommand) \/ arity_only constructor.
Proof.
  intros H. unfold parseCommandFuncs in H.
  apply elem_of_list_to_map_2 in H.
  pose proof arity_only_constructors as Hall.
  repeat (apply Forall_cons in Hall as [? Hall]).
  repeat (apply elem_of_cons in H as [H|H]; [simplify_eq; (by right) || (left; by split)|]).
  by apply elem_of_nil in H.
Qed.

Lemma ParseCommand_grammar_error line cmd :
  ParseCommand line = Returned (cmd, Some ErrParseCommand) ->
  fst (ParseLine line) = MODE
  /\ NewModeCommand (snd (ParseLine line)) = failed ErrParseCommand.
Proof.
  unfold ParseCommand. destruct (ParseLine line) as [code args]. cbn [fst snd].
  destruct (parseCommandFuncs !! code) as [constructor|] eqn:Hlook;
    cbn [mbind outcome_bind mret outcome_ret]; [|discriminate].
  destruct (constructor args) as [[c e]|p] eqn:Hrun; cbn [mbind outcome_bind mret outcome_ret];
    [|discriminate].
  intros H. injection H as _ ->.
  apply parseCommandFuncs_Some in Hlook as [[-> ->]|Harity].
  - split; [reflexivity|].
    rewrite NewModeCommand_cases in Hrun |- *.
    destruct args as [|subject rest]; [discriminate|].
    destruct (IsChannel subject).
    + destruct (NewChannelModeCommand_returns subject rest) as [changes Hc].
      rewrite Hc in Hrun. discriminate.
    + destruct (forallb mode_arg_ok rest); [discriminate | reflexivity].
  - apply Harity in Hrun. discriminate.
Qed.

End Errors.

(** ** The tokenizer *)

Section Tokens.
Local Open Scope nat_scope.

Lemma trim_spaces_start s : starts_with_space (trim_spaces s) = false.
Proof.
  induction s as [|c s IH]; [reflexivity|].
  cbn [trim_spaces]. destruct (Ascii.eqb c space) eqn:Hc; [exact IH|].
  cbn [starts_with_space]. exact Hc.
Qed.

Lemma trim_spaces_length s : String.length (trim_spaces s) <= String.length s.
Proof.
  induction s as [|c s IH]; [reflexivity|].
  cbn [trim_spaces]. destruct (Ascii.eqb c space); cbn [String.length]; lia.
Qed.

Lemma trim_spaces_ascii s : is_ascii s = true -> is_ascii (trim_spaces s) = true.
Proof.
  induction s as [|c s IH]; [reflexivity|].
  intros Hs. cbn [trim_spaces]. destruct (Ascii.eqb c space); [|exact Hs].
  cbn [is_ascii] in Hs. apply andb_prop in Hs as [_ Hs]. now apply IH.
Qed.

Lemma string_suffix_refl s : string_suffix s s.
Proof. now exists EmptyString. Qed.

Lemma string_suffix_cons c suffix s : string_suffix suffix s -> string_suffix suffix (String c s).
Proof. intros [before ->]. now exists (String c before). Qed.

Lemma string_suffix_trans a b c : string_suffix a b -> string_suffix b c -> string_suffix a c.
Proof. intros [p ->] [q ->]. exists (q +:+ p). now rewrite append_assoc. Qed.

Lemma trim_spaces_suffix s : string_suffix (trim_spaces s) s.
Proof.
  induction s as [|c s IH]; [apply string_suffix_refl|].
  cbn [trim_spaces]. destruct (Ascii.eqb c space).
  - now apply string_suffix_cons.
  - apply string_suffix_refl.
Qed.

Lemma spaces_match_suffix s before after :
  spaces_match s = Some (before, after) -> string_suffix after s.
Proof.
  revert before after. induction s as [|c s IH]; intros before after; [discriminate|].
  cbn [spaces_match]. destruct (Ascii.eqb c space).
  - intros [= <- <-]. apply string_suffix_cons, trim_spaces_suffix.
  - destruct (spaces_match s) as [[before' after']|] eqn:Hs; [|discriminate].
    intros [= <- <-]. apply string_suffix_cons. now apply (IH before').
Qed.

Lemma spaces_match_None s : spaces_match s = None -> no_space s = true.
Proof.
  induction s as [|c s IH]; [reflexivity|].
  cbn [spaces_match no_space]. destruct (Ascii.eqb c space); [discriminate|].
  destruct (spaces_match s) as [[before after]|]; [discriminate|].
  intros _. now rewrite IH.
Qed.

Lemma spaces_match_Some s before after :
  spaces_match s = Some (before, after) ->
  no_space before = true
  /\ starts_with_space after = false
  /\ String.length after < String.length s
  /\ (starts_with_space s = false -> before <> EmptyString)
  /\ (is_ascii s = true -> is_ascii before = true /\ is_ascii after = true).
Proof.
  revert before after. induction s as [|c s IH]; intros before after; [discriminate|].
  cbn [spaces_match starts_with_space String.length is_ascii].
  destruct (Ascii.eqb c space) eqn:Hc.
  - intros [= <- <-]. repeat split.
    + apply trim_spaces_start.
    + pose proof (trim_spaces_length s). lia.
    + discriminate.
    + apply andb_prop in H as [_ H]. now apply trim_spaces_ascii.
  - destruct (spaces_match s) as [[before' after']|] eqn:Hs; [|discriminate].
    intros [= <- <-].
    destruct (IH before' after' eq_refl) as (Hb & Ha & Hlen & _ & Hascii).
    repeat split.
    + cbn [no_space]. now rewrite Hc, Hb.
    + exact Ha.
    + lia.
    + discriminate.
    + cbn [is_ascii]. apply andb_prop in H as [H1 H2]. rewrite H1. now apply Hascii.
    + apply andb_prop in H as [_ H2]. now apply Hascii.
Qed.

Lemma splitArg_cases line :
  splitArg line = match spaces_match line with
                  | Some (before, after) => (before, after)
                  | None => (line, EmptyString)
                  end.
Proof.
  unfold splitArg, spacesExpr_Split. cbn [Z.eqb].
  destruct line as [|c t]; [reflexivity|].
  cbn [String.length spacesExpr_Split_go]. cbn [Z.eqb Pos.eqb].
  destruct (spaces_match (String c t)) as [[before after]|]; [|reflexivity].
  now destruct (String.length t).
Qed.

Lemma splitArg_spec line arg rest :
  splitArg line = (arg, rest) ->
  no_space arg = true
  /\ starts_with_space rest = false
  /\ (line <> EmptyString -> String.length rest < String.length line)
  /\ (starts_with_space line = false -> line <> EmptyString -> arg <> EmptyString)
  /\ (is_ascii line = true -> is_ascii arg = true /\ is_ascii rest = true)
  /\ string_suffix rest line.
Proof.
  rewrite splitArg_cases.
  destruct (spaces_match line) as [[before after]|] eqn:Hm.
  - intros [= <- <-].
    destruct (spaces_match_Some _ _ _ Hm) as (Hb & Ha & Hlen & Hne & Hascii).
    repeat split; auto; try now apply Hascii.
    now apply (spaces_match_suffix _ before).
  - intros [= <- <-]. repeat split; auto.
    + now apply spaces_match_None.
    + destruct line; [congruence | cbn; lia].
    + exists line. now rewrite append_empty_r.
Qed.

Lemma HasPrefix_colon line :
  HasPrefix line ":" = true -> exists text, line = String ":" text.
Proof.
  unfold HasPrefix. destruct line as [|c t]; [discriminate|].
  cbn [String.prefix]. destruct (ascii_dec ":" c) as [<-|]; [|discriminate].
  intros _. now exists t.
Qed.

Lemma HasPrefix_colon_space line :
  HasPrefix line ":" = true -> starts_with_space line = false.
Proof. intros H. apply HasPrefix_colon in H as [text ->]. reflexivity. Qed.

Context `{U : UnicodeText}.

(** The loop of [ParseLine] adds normalized tokens and, at most once and
    last, the normalized trailing text. *)
Lemma ParseLine_loop_shape fuel :
  forall line args,
    starts_with_space line = false ->
    exists toks trailing,
      ParseLine_loop fuel line args
        = args ++ map NFKC_String toks ++ trailing_list (NFC_String <$> trailing)
      /\ Forall token toks
      /\ (forall text, trailing = Some text -> string_suffix (String ":" text) line).
Proof.
  induction fuel as [|fuel IH]; intros line args Hstart.
  - exists [], None. cbn. rewrite app_nil_r. repeat split; [constructor | discriminate].
  - cbn [ParseLine_loop].
    destruct line as [|c t] eqn:Hline.
    { exists [], None. cbn. rewrite app_nil_r. repeat split; [constructor | discriminate]. }
    rewrite <- Hline in *. replace (0 <? String.length line) with true by now subst.
    destruct (HasPrefix line ":") eqn:Hcolon.
    + exists [], (Some (string_from 1 line)). repeat split; [constructor|].
      intros text [= <-]. apply HasPrefix_colon in Hcolon as [text ->].
      apply string_suffix_refl.
    + destruct (splitArg line) as [arg rest] eqn:Hsplit.
      destruct (splitArg_spec _ _ _ Hsplit) as (Harg & Hrest & _ & Hne & _ & Hsuf).
      destruct (IH rest (args ++ [NFKC_String arg]) Hrest)
        as (toks & trailing & Hrun & Htoks & Htrail).
      exists (arg :: toks), trailing. repeat split.
      * rewrite Hrun, <- app_assoc. reflexivity.
      * constructor; [|exact Htoks]. split; [exact Harg|]. apply Hne; [exact Hstart | now subst].
      * intros text Ht. eapply string_suffix_trans; [now apply Htrail | exact Hsuf].
Qed.

(** Every turn shortens the line, so the loop does not depend on the fuel
    once it covers the line. *)
Lemma ParseLine_loop_fuel fuel :
  forall fuel' line args,
    String.length line <= fuel -> String.length line <= fuel' ->
    ParseLine_loop fuel line args = ParseLine_loop fuel' line args.
Proof.
  induction fuel as [|fuel IH]; intros fuel' line args Hf Hf'.
  - destruct line; [|cbn in Hf; lia]. now destruct fuel'.
  - destruct line as [|c t] eqn:Hline; [now destruct fuel'|].
    destruct fuel' as [|fuel']; [cbn in Hf'; lia|].
    rewrite <- Hline in *. cbn [ParseLine_loop].
    destruct (0 <? String.length line); [|reflexivity].
    destruct (HasPrefix line ":"); [reflexivity|].
    destruct (splitArg line) as [arg rest] eqn:Hsplit.
    destruct (splitArg_spec _ _ _ Hsplit) as (_ & _ & Hlen & _).
    assert (String.length rest < String.length line) by (apply Hlen; now subst).
    apply IH; lia.
Qed.

Lemma ParseLine_shape line :
  exists toks trailing,
    snd (ParseLine line) = map NFKC_String toks ++ trailing_list (NFC_String <$> trailing)
    /\ Forall token toks
    /\ (forall text, trailing = Some text -> string_suffix (String ":" text) line).
Proof.
  unfold ParseLine.
  set (line1 := if HasPrefix line ":" then snd (splitArg line) else line).
  assert (Hline1 : string_suffix line1 line).
  { subst line1. destruct (HasPrefix line ":"); [|apply string_suffix_refl].
    destruct (splitArg line) as [a r] eqn:Hs.
    now destruct (splitArg_spec _ _ _ Hs) as (_ & _ & _ & _ & _ & Hsuf). }
  destruct (splitArg line1) as [arg rest] eqn:Hsplit. cbn [snd].
  destruct (splitArg_spec _ _ _ Hsplit) as (_ & Hrest & _ & _ & _ & Hsuf).
  destruct (ParseLine_loop_shape (String.length rest) rest [] Hrest)
    as (toks & trailing & Hrun & Htoks & Htrail).
  exists toks, trailing. repeat split; [exact Hrun | exact Htoks |].
  intros text Ht.
  eapply string_suffix_trans; [now apply Htrail|].
  eapply string_suffix_trans; [exact Hsuf | exact Hline1].
Qed.

Lemma after_space_trans a b c : after_space a b -> after_space b c -> after_space a c.
Proof.
  intros [p ->] [q ->]. exists (q +:+ String space p).
  now rewrite append_assoc, append_cons.
Qed.

(** The text behind a space, trimmed, still stands behind a space. *)
Lemma trim_spaces_after_space gap :
  after_space (trim_spaces gap) (String space gap).
Proof.
  induction gap as [|c gap IH]; [now exists EmptyString|].
  cbn [trim_spaces]. destruct (Ascii.eqb_spec c space) as [->|_].
  - destruct IH as [before Hbefore]. exists (String space before).
    rewrite append_cons. now rewrite <- Hbefore.
  - now exists EmptyString.
Qed.

(** The match of [spacesExpr]: the text before it ends at a space, and the
    text after it stands behind one. *)
Lemma spaces_match_cut s before after :
  spaces_match s = Some (before, after) ->
  (exists gap, s = before +:+ String space gap) /\ after_space after s.
Proof.
  revert before after. induction s as [|c s IH]; intros before after; [discriminate|].
  cbn [spaces_match]. destruct (Ascii.eqb_spec c space) as [->|_].
  - intros [= <- <-]. split; [now exists s | apply trim_spaces_after_space].
  - destruct (spaces_match s) as [[before' after']|] eqn:Hs; [|discriminate].
    intros [= <- <-]. destruct (IH _ _ eq_refl) as [[gap Hgap] [pre Hpre]]. split.
    + exists gap. now rewrite append_cons, <- Hgap.
    + exists (String c pre). now rewrite append_cons, <- Hpre.
Qed.

(** What [splitArg] cuts off is followed by the end of the line or a space,
    and what it leaves is empty or stands behind a space. *)
Lemma splitArg_cut line arg rest :
  splitArg line = (arg, rest) ->
  (exists after, line = arg +:+ after
                 /\ (after = EmptyString \/ starts_with_space after = true))
  /\ (rest = EmptyString \/ after_space rest line).
Proof.
  rewrite splitArg_cases.
  destruct (spaces_match line) as [[before after]|] eqn:Hm.
  - intros [= <- <-]. destruct (spaces_match_cut _ _ _ Hm) as [[gap Hgap] Hafter]. split.
    + exists (String space gap). split; [exact Hgap | now right].
    + now right.
  - intros [= <- <-]. split; [|now left].
    exists EmptyString. split; [now rewrite append_empty_r | now left].
Qed.

(** The loop of [ParseLine] over a text that stands behind a space of the
    line: the tokens it adds are pieces of the line. *)
Lemma ParseLine_loop_pieces fuel :
  forall line args whole,
    starts_with_space line = false ->
    line = EmptyString \/ after_space line whole ->
    exists toks trailing,
      ParseLine_loop fuel line args
        = args ++ map NFKC_String toks ++ trailing_list (NFC_String <$> trailing)
      /\ Forall (fun tok => token tok /\ piece tok whole) toks
      /\ (forall text, trailing = Some text -> string_suffix (String ":" text) line).
Proof.
  induction fuel as [|fuel IH]; intros line args whole Hstart Hwhole.
  - exists [], None. cbn. rewrite app_nil_r. repeat split; [constructor | discriminate].
  - cbn [ParseLine_loop].
    destruct line as [|c t] eqn:Hline.
    { exists [], None. cbn. rewrite app_nil_r. repeat split; [constructor | discriminate]. }
    rewrite <- Hline in *. replace (0 <? String.length line) with true by now subst.
    destruct Hwhole as [Hempty|[before Hbefore]]; [congruence|].
    destruct (HasPrefix line ":") eqn:Hcolon.
    + exists [], (Some (string_from 1 line)). repeat split; [constructor|].
      intros text [= <-]. apply HasPrefix_colon in Hcolon as [text ->].
      apply string_suffix_refl.
    + destruct (splitArg line) as [arg rest] eqn:Hsplit.
      destruct (splitArg_spec _ _ _ Hsplit) as (Harg & Hrest & _ & Hne & _ & Hsuf).
      destruct (splitArg_cut _ _ _ Hsplit) as [(after & Hafter & Hend) Hcut].
      assert (Hnext : rest = EmptyString \/ after_space rest whole).
      { destruct Hcut as [->|Hcut]; [now left | right].
        eapply after_space_trans; [exact Hcut | now exists before]. }
      destruct (IH rest (args ++ [NFKC_String arg]) whole Hrest Hnext)
        as (toks & trailing & Hrun & Htoks & Htrail).
      exists (arg :: toks), trailing. repeat split.
      * rewrite Hrun, <- app_assoc. reflexivity.
      * constructor; [|exact Htoks]. split.
        -- split; [exact Harg|]. apply Hne; [exact Hstart | now subst].
        -- exists before, after. split; [now rewrite Hbefore, Hafter at 1 | exact Hend].
      * intros text Ht. eapply string_suffix_trans; [now apply Htrail | exact Hsuf].
Qed.

(** The parameters of a line: normalized pieces of the line and, at most
    once and last, the normalized text behind a colon. *)
Lemma ParseLine_pieces line :
  exists toks trailing,
    snd (ParseLine line) = map NFKC_String toks ++ trailing_list (NFC_String <$> trailing)
    /\ Forall (fun tok => token tok /\ piece tok line) toks
    /\ (forall text, trailing = Some text -> string_suffix (String ":" text) line).
Proof.
  unfold ParseLine.
  set (line1 := if HasPrefix line ":" then snd (splitArg line) else line).
  assert (Hline1 : string_suffix line1 line
                   /\ (line1 = EmptyString \/ line1 = line \/ after_space line1 line)).
  { subst line1. destruct (HasPrefix line ":");
      [|split; [apply string_suffix_refl | right; now left]].
    destruct (splitArg line) as [a r] eqn:Hs. cbn [snd].
    destruct (splitArg_spec _ _ _ Hs) as (_ & _ & _ & _ & _ & Hsuf).
    destruct (splitArg_cut _ _ _ Hs) as [_ [->|Hcut]]; split; auto. }
  destruct Hline1 as [Hsuffix Hline1].
  destruct (splitArg line1) as [arg rest] eqn:Hsplit. cbn [snd].
  destruct (splitArg_spec _ _ _ Hsplit) as (_ & Hrest & _ & _ & _ & Hsuf).
  assert (Hwhole : rest = EmptyString \/ after_space rest line).
  { destruct (splitArg_cut _ _ _ Hsplit) as [_ [->|Hcut]]; [now left|].
    destruct Hline1 as [Hempty|[Hsame|Hafter]].
    - rewrite Hempty in Hcut. destruct Hcut as [before Hbefore].
      destruct before; discriminate Hbefore.
    - right. now rewrite <- Hsame.
    - right. eapply after_space_trans; eauto. }
  destruct (ParseLine_loop_pieces (String.length rest) rest [] line Hrest Hwhole)
    as (toks & trailing & Hrun & Htoks & Htrail).
  exists toks, trailing. repeat split; [exact Hrun | exact Htoks |].
  intros text Ht.
  eapply string_suffix_trans; [now apply Htrail|].
  eapply string_suffix_trans; [exact Hsuf | exact Hsuffix].
Qed.

(** On an ASCII line the tokenizer does not depend on the text library: the
    normal forms leave every piece as it is, and the code gets its letters
    upper-cased byte by byte. *)
Lemma is_ascii_string_from n s : is_ascii s = true -> is_ascii (string_from n s) = true.
Proof.
  revert s. induction n as [|n IH]; intros s Hs; [now destruct s|].
  destruct s as [|c s]; [reflexivity|].
  cbn [string_from]. cbn [is_ascii] in Hs. apply andb_prop in Hs as [_ Hs]. now apply IH.
Qed.

Lemma ParseLine_loop_ascii fuel :
  forall line args,
    is_ascii line = true ->
    ParseLine_loop fuel line args = @ParseLine_loop ascii_text fuel line args.
Proof.
  induction fuel as [|fuel IH]; intros line args Hascii; [reflexivity|].
  cbn [ParseLine_loop].
  destruct (0 <? String.length line); [|reflexivity].
  destruct (HasPrefix line ":").
  - rewrite NFC_ascii by now apply is_ascii_string_from. reflexivity.
  - destruct (splitArg line) as [arg rest] eqn:Hsplit.
    destruct (splitArg_spec _ _ _ Hsplit) as (_ & _ & _ & _ & Ha & _).
    destruct (Ha Hascii) as [Harg Hrest].
    rewrite NFKC_ascii by exact Harg. now apply IH.
Qed.

Lemma ParseLine_ascii line :
  is_ascii line = true -> ParseLine line = @ParseLine ascii_text line.
Proof.
  intros Hascii. unfold ParseLine.
  set (line1 := if HasPrefix line ":" then snd (splitArg line) else line).
  assert (Hline1 : is_ascii line1 = true).
  { subst line1. destruct (HasPrefix line ":"); [|exact Hascii].
    destruct (splitArg line) as [a r] eqn:Hs.
    destruct (splitArg_spec _ _ _ Hs) as (_ & _ & _ & _ & Ha & _). now apply Ha. }
  destruct (splitArg line1) as [arg rest] eqn:Hsplit.
  destruct (splitArg_spec _ _ _ Hsplit) as (_ & _ & _ & _ & Ha & _).
  destruct (Ha Hline1) as [Harg Hrest].
  rewrite ToUpper_ascii by exact Harg.
  now rewrite ParseLine_loop_ascii by exact Hrest.
Qed.

End Tokens.

(** ** JOIN and KICK: the pairing loops *)

Section Pairing.
Local Open Scope nat_scope.

(** With no key twice, every pair is in the map. *)
Lemma pair_up_lookup (pairs : list (string * string)) :
  NoDup pairs.*1 ->
  forall c v, (c, v) ∈ pairs -> pair_up ∅ pairs !! c = Some v.
Proof.
  unfold pair_up.
  induction pairs as [|p pairs IH] using rev_ind; intros Hnodup c v Hin.
  - by apply elem_of_nil in Hin.
  - rewrite foldl_snoc. rewrite fmap_app in Hnodup.
    apply NoDup_app in Hnodup as (Hnd & Hfresh & _).
    apply elem_of_app in Hin as [Hin | Hin].
    + rewrite lookup_insert_ne; [by apply IH|].
      intros Heq. apply (Hfresh c); [|rewrite <- Heq; cbn; left].
      apply list_elem_of_fmap. by exists (c, v).
    + apply list_elem_of_singleton in Hin as <-. cbn. apply lookup_insert_eq.
Qed.

(** Positional pairing: the channel at [i] maps to the value at [i]. *)
Lemma pair_up_positional (channels vals : list string) i c v :
  NoDup channels -> length channels <= length vals ->
  channels !! i = Some c -> vals !! i = Some v ->
  pair_up ∅ (zip channels vals) !! c = Some v.
Proof.
  intros Hnodup Hlen Hc Hv. apply pair_up_lookup.
  - by rewrite fst_zip.
  - apply list_elem_of_lookup. exists i. apply lookup_zip_with_Some. eauto.
Qed.

(** [for i, key := range ks { keys[i] = key }] from index [i]: it overwrites
    as many entries as there are keys, and panics at the first key that has
    no entry. *)
Lemma for_range_store (ks : list string) :
  forall i (keys : list string),
    i <= length keys ->
    for_range (fun i key keys => store keys i key) i ks keys
    = if i + length ks <=? length keys
      then Returned (take i keys ++ ks ++ drop (i + length ks) keys)
      else Panicked (IndexOutOfRange (length keys) (length keys)).
Proof.
  induction ks as [|k ks IH]; intros i keys Hi.
  - cbn [for_range length]. rewrite Nat.add_0_r.
    destruct (Nat.leb_spec i (length keys)); [|lia].
    cbn [app]. now rewrite take_drop.
  - cbn [for_range length].
    destruct (Nat.eq_dec i (length keys)) as [->|Hne].
    + rewrite store_ge by lia.
      destruct (Nat.leb_spec (length keys + S (length ks)) (length keys)); [lia | reflexivity].
    + rewrite store_lt by lia.
      rewrite IH by (rewrite length_insert; lia).
      rewrite length_insert.
      replace (S i + length ks) with (i + S (length ks)) by lia.
      destruct (Nat.leb_spec (i + S (length ks)) (length keys)); [|reflexivity].
      f_equal. rewrite take_insert_lt by lia.
      rewrite drop_insert_lt by lia.
      assert (Hlook : is_Some (keys !! i)) by (apply lookup_lt_is_Some; lia).
      destruct Hlook as [x Hx].
      rewrite (take_S_r _ _ _ Hx), insert_app_r_alt by (rewrite length_take; lia).
      rewrite length_take, Nat.min_l, Nat.sub_diag by lia.
      cbn [list_insert]. now rewrite <- app_assoc.
Qed.

(** [for i, channel := range channels { m[channel] = vals[i] }] from index
    [i], when every index has a value. *)
Lemma for_range_pairs (vals : list string) (channels : list string) :
  forall i (m : gmap string string),
    i + length channels <= length vals ->
    for_range (fun i channel (m : gmap string string) =>
                 v ← index vals i; mret (<[channel := v]> m)) i channels m
    = Returned (pair_up m (zip channels (drop i vals))).
Proof.
  induction channels as [|c channels IH]; intros i m Hlen; [reflexivity|].
  cbn [for_range length] in *.
  destruct (index_lt vals i) as (v & Hlook & Hidx); [lia|].
  rewrite Hidx. cbn [mbind outcome_bind mret outcome_ret].
  rewrite IH by lia. rewrite (drop_S _ _ _ Hlook). reflexivity.
Qed.

(** The same loop with one value for every channel. *)
Lemma for_range_single (v : string) (channels : list string) :
  forall i (m : gmap string string),
    for_range (fun (_ : nat) channel (m : gmap string string) =>
                 v ← index [v] 0; mret (<[channel := v]> m)) i channels m
    = Returned (pair_up m (zip channels (replicate (length channels) v))).
Proof.
  induction channels as [|c channels IH]; intros i m; [reflexivity|].
  cbn [for_range length index lookup list_lookup mbind outcome_bind mret outcome_ret].
  now rewrite IH.
Qed.

Lemma strings_Split_length s sep : 1 <= length (strings_Split s sep).
Proof.
  induction s as [|c s IH]; cbn [strings_Split]; [cbn; lia|].
  destruct (Ascii.eqb c sep); [cbn; lia|].
  destruct (strings_Split s sep); cbn in *; lia.
Qed.

(** What [NewJoinCommand] does, by cases. *)
Lemma NewJoinCommand_cases args :
  NewJoinCommand args
  = match args with
    | [] => failed NotEnoughArgsError
    | arg0 :: rest =>
      if String.eqb arg0 "0" then ok (JoinCommand base0 ∅ true)
      else
        let channels := strings_Split arg0 comma in
        let keys := join_keys rest in
        if length keys <=? length channels
        then ok (JoinCommand base0
                   (pair_up ∅ (zip channels
                      (keys ++ replicate (length channels - length keys) EmptyString)))
                   false)
        else Panicked (IndexOutOfRange (length channels) (length channels))
    end.
Proof.
  destruct args as [|arg0 rest]; [reflexivity|].
  unfold NewJoinCommand.
  cbn [length Nat.eqb index lookup list_lookup mbind outcome_bind].
  destruct (String.eqb arg0 "0"); [reflexivity|].
  cbn zeta. generalize (strings_Split arg0 comma). intros channels.
  destruct rest as [|arg1 rest].
  - cbn [length Nat.ltb Nat.leb mret outcome_ret mbind outcome_bind join_keys].
    rewrite for_range_pairs by (rewrite length_replicate; lia).
    rewrite drop_0, Nat.sub_0_r. reflexivity.
  - cbn [length Nat.ltb Nat.leb index lookup list_lookup mbind outcome_bind join_keys].
    generalize (strings_Split arg1 comma). intros keys.
    rewrite for_range_store by lia.
    rewrite length_replicate, take_0. cbn [Nat.add app].
    destruct (Nat.leb_spec (length keys) (length channels)) as [Hle|Hgt];
      [|reflexivity].
    cbn [mbind outcome_bind].
    rewrite drop_replicate.
    rewrite for_range_pairs by (rewrite length_app, length_replicate; lia).
    now rewrite drop_0.
Qed.

(** What [NewKickCommand] does, by cases. *)
Lemma NewKickCommand_cases args :
  NewKickCommand args
  = match args with
    | arg0 :: arg1 :: rest =>
      let channels := strings_Split arg0 comma in
      let users := strings_Split arg1 comma in
      if negb (length channels =? length users) && negb (length users =? 1)
      then failed NotEnoughArgsError
      else ok (KickCommand base0 (pair_up ∅ (zip channels (kick_users channels users)))
                 (hd EmptyString rest))
    | _ => failed NotEnoughArgsError
    end.
Proof.
  destruct args as [|arg0 [|arg1 rest]]; [reflexivity | reflexivity |].
  unfold NewKickCommand.
  cbn [length Nat.ltb Nat.leb index lookup list_lookup mbind outcome_bind].
  cbn zeta. generalize (strings_Split arg0 comma) (strings_Split arg1 comma).
  intros channels users.
  destruct (negb (length channels =? length users) && negb (length users =? 1)) eqn:Hcond;
    [reflexivity|].
  assert (Hcomment : optional (arg0 :: arg1 :: rest) 2 = Returned (hd EmptyString rest))
    by now destruct rest.
  destruct (Nat.eqb_spec (length users) 1) as [Hone|Hmany].
  - destruct users as [|user [|? ?]]; try discriminate Hone.
    rewrite for_range_single. cbn [mbind outcome_bind]. rewrite Hcomment. reflexivity.
  - rewrite andb_true_r in Hcond. apply negb_false_iff, Nat.eqb_eq in Hcond.
    rewrite for_range_pairs by lia. cbn [mbind outcome_bind]. rewrite Hcomment, drop_0.
    destruct users as [|user [|? ?]]; try reflexivity. cbn in Hmany. lia.
Qed.

End Pairing.

(** ** USER *)

Lemma land_pow2 a n :
  (0 <= n)%Z -> (Z.land a (2 ^ n) =? 2 ^ n)%Z = Z.testbit a n.
Proof.
  intros Hn.
  assert (H : Z.land a (2 ^ n) = if Z.testbit a n then 2 ^ n else 0).
  { apply Z.bits_inj'. intros m Hm. rewrite Z.land_spec, Z.pow2_bits_eqb by exact Hn.
    destruct (Z.eqb_spec n m) as [<-|Hne].
    - destruct (Z.testbit a n); [now rewrite Z.pow2_bits_true | now rewrite Z.bits_0].
    - rewrite andb_false_r.
      destruct (Z.testbit a n); [now rewrite Z.pow2_bits_false | now rewrite Z.bits_0]. }
  rewrite H. destruct (Z.testbit a n); [apply Z.eqb_refl|].
  apply Z.eqb_neq. pose proof (Z.pow_pos_nonneg 2 n ltac:(lia) Hn). lia.
Qed.

Lemma ParseUint8_digits_range s :
  forall n, 0 <= n <= 255 -> forall m, ParseUint8_digits s n = Some m -> 0 <= m <= 255.
Proof.
  induction s as [|c s IH]; intros n Hn m; cbn [ParseUint8_digits].
  - intros [= <-]. exact Hn.
  - unfold digit_val. destruct ((48 <=? byte_val c) && (byte_val c <=? 57)) eqn:Hd; [|discriminate].
    apply andb_prop in Hd as [H1 H2]. apply Z.leb_le in H1, H2.
    destruct (Z.ltb_spec 255 (n * 10 + (byte_val c - 48))); [discriminate|].
    apply IH. lia.
Qed.

Lemma ParseUint8_range s m : ParseUint8 s = Some m -> 0 <= m <= 255.
Proof.
  destruct s; [discriminate|]. apply ParseUint8_digits_range. lia.
Qed.

Section User.
Context `{D : Declarations}.

Lemma NewUserCommand_cases args :
  NewUserCommand args
  = match args with
    | [username; arg1; arg2; realname] =>
      match ParseUint8 arg1 with
      | Some mode => ok (RFC2812UserCommand base0 username realname mode arg2)
      | None => ok (RFC1459UserCommand base0 username realname arg1 arg2)
      end
    | _ => failed NotEnoughArgsError
    end.
Proof.
  destruct args as [|a0 [|a1 [|a2 [|a3 [|a4 rest]]]]]; reflexivity.
Qed.

Lemma Flags_bits base username realname mode unused :
  Flags (RFC2812UserCommand base username realname mode unused)
  = (if Z.testbit mode 2 then [WallOps] else [])
    ++ (if Z.testbit mode 3 then [Invisible] else []).
Proof.
  cbn [Flags]. change 4 with (2 ^ 2). change 8 with (2 ^ 3).
  rewrite !land_pow2 by lia.
  now destruct (Z.testbit mode 2), (Z.testbit mode 3).
Qed.

End User.

(** Every piece takes at least one byte off the text, so the split does not
    depend on the fuel once it covers the text. *)
Lemma spacesExpr_Split_go_fuel fuel :
  forall fuel' s n,
    (String.length s <= fuel)%nat -> (String.length s <= fuel')%nat ->
    spacesExpr_Split_go fuel s n = spacesExpr_Split_go fuel' s n.
Proof.
  assert (Hempty : forall k n, spacesExpr_Split_go k EmptyString n = [EmptyString]).
  { intros [|k] n; [reflexivity|]. cbn. now destruct (n =? 1). }
  induction fuel as [|fuel IH]; intros fuel' s n Hf Hf'.
  - destruct s; [|cbn in Hf; lia]. now rewrite !Hempty.
  - destruct s as [|c t] eqn:Hs; [now rewrite !Hempty|].
    destruct fuel' as [|fuel']; [cbn in Hf'; lia|].
    rewrite <- Hs in *. cbn [spacesExpr_Split_go].
    destruct (n =? 1); [reflexivity|].
    destruct (spaces_match s) as [[before after]|] eqn:Hm; [|reflexivity].
    destruct (spaces_match_Some _ _ _ Hm) as (_ & _ & Hlen & _).
    f_equal. apply IH; lia.
Qed.

Section SingleUser.
Local Open Scope nat_scope.

(** One user for every channel: every channel maps to that user. *)
Lemma pair_up_single (user : string) (channels : list string) :
  forall (m : gmap string string) c,
    m !! c = Some user \/ c ∈ channels ->
    pair_up m (zip channels (replicate (length channels) user)) !! c = Some user.
Proof.
  unfold pair_up.
  induction channels as [|c0 channels IH]; intros m c Hc.
  - destruct Hc as [Hc|Hc]; [exact Hc | by apply elem_of_nil in Hc].
  - cbn [length replicate zip zip_with foldl fst snd]. apply IH.
    destruct (decide (c = c0)) as [->|Hne].
    + left. apply lookup_insert_eq.
    + destruct Hc as [Hc|Hc].
      * left. by rewrite lookup_insert_ne.
      * right. apply elem_of_cons in Hc as [Hc|Hc]; [congruence | exact Hc].
Qed.

End SingleUser.

Lemma mode_arg_ok_false rest :
  forallb mode_arg_ok rest = false <-> List.Exists unsigned_arg rest.
Proof.
  induction rest as [|a rest IH]; cbn [forallb].
  - split; [discriminate | intros H; inversion H].
  - rewrite andb_false_iff, IH, List.Exists_cons. unfold unsigned_arg.
    split; (intros [H|H]; [left | now right]).
    + destruct a as [|b t]; [discriminate | eauto].
    + now destruct H as (b & t & -> & Hb).
Qed.

Section ModeErrors.
Local Open Scope nat_scope.
Context `{D : Declarations} `{U : UnicodeText}.

(** A mode argument without a sign: its letters, the first byte included,
    all come out under [List]. *)
Lemma NewChannelModeCommand_unsigned channel b t rest :
  signed b = false ->
  exists letters later,
    NewChannelModeCommand (channel :: String b t :: rest)
    = ok (ChannelModeCommand base0 channel (letters ++ later))
    /\ map cmode letters = range_runes (String b t)
    /\ Forall (fun c => cop c = List) letters.
Proof.
  intros Hb. unfold NewChannelModeCommand.
  cbn [index lookup list_lookup mbind outcome_bind slice_from length Nat.leb drop].
  rewrite channelModeLoop_token.
  unfold token_op, token_letters. rewrite Hb.
  destruct (channelModeLetters_returns (String b t :: rest) List
              (range_runes (String b t)) [] 1)
    as (letters & Hrun & Hmodes & Hops & _); [cbn; lia|].
  rewrite Hrun. cbn [mbind outcome_bind app].
  rewrite slice_from_le by lia. cbn [mbind outcome_bind].
  match goal with
  | |- context [channelModeLoop ?f ?a ?c] =>
    destruct (channelModeLoop_returns f a c) as (later & Hlater)
  end.
  rewrite Hlater. exists letters, later. repeat split; assumption.
Qed.

Lemma NewModeCommand_grammar_error args cmd :
  NewModeCommand args = Returned (cmd, Some ErrParseCommand) ->
  exists subject rest,
    args = subject :: rest /\ IsChannel subject = false /\ cmd = None
    /\ List.Exists unsigned_arg rest.
Proof.
  rewrite NewModeCommand_cases. destruct args as [|subject rest]; [discriminate|].
  destruct (IsChannel subject) eqn:Hch.
  - destruct (NewChannelModeCommand_returns subject rest) as [changes ->]. discriminate.
  - destruct (forallb mode_arg_ok rest) eqn:Hok; [discriminate|].
    intros [= <-]. exists subject, rest. repeat split; try assumption.
    now apply mode_arg_ok_false.
Qed.

End ModeErrors.

(** ** The registry *)

Section Registry.
Context `{D : Declarations} `{U : UnicodeText}.

Lemma ParseCommand_unknown line :
  parseCommandFuncs !! (fst (ParseLine line)) = None ->
  ParseCommand line
  = Returned (Some (UnknownCommand {| client := None; code := fst (ParseLine line) |}
                      (snd (ParseLine line))), None).
Proof.
  intros Hlook. unfold ParseCommand.
  destruct (ParseLine line) as [code args]. cbn [fst snd] in *.
  cbv beta iota zeta.
  match goal with
  | |- context [match ?x with Some _ => _ | None => _ end] =>
    replace x with (@None parseCommandFunc) by (symmetry; exact Hlook)
  end.
  reflexivity.
Qed.

Lemma parseCommandFuncs_ZORP : parseCommandFuncs !! "ZORP" = None.
Proof.
  unfold parseCommandFuncs. apply not_elem_of_list_to_map_1.
  cbn [fmap list_fmap fst]. intros Hin.
  repeat (apply elem_of_cons in Hin as [Hin|Hin]; [discriminate Hin|]).
  by apply elem_of_nil in Hin.
Qed.

End Registry.

(** * The claims of the specification *)

(** ** C1: channel modes of [MODE #chan +o-v alice bob] *)

(** C1, as stated, fails.  Whatever the letters of the other argument-taking
    modes are, the arguments [#chan +o-v alice bob] do not yield the two
    changes (operator, add, alice), (voice, remove, bob). *)
Lemma C1_counterexample :
  ~ exists D : Declarations,
      channel_changes_of (NewChannelModeCommand ["#chan"; "+o-v"; "alice"; "bob"])
      = Some [ChannelModeChange.Build_t ChannelOperator Add "alice";
              ChannelModeChange.Build_t Voice Remove "bob"].
Proof.
  intros [D H]. rewrite plus_o_dash_v in H. cbn [channel_changes_of ok] in H.
  discriminate H.
Qed.

(** C1, amended.  The line [MODE #chan +o-v alice bob] tokenizes to the
    arguments [#chan +o-v alice bob], and channel-mode parsing yields three
    changes, all under the operation add: only the first byte of a mode
    argument sets the operation, and the [-] inside [+o-v] is one more mode
    letter.  Operator claims [alice]; [bob] goes to voice when [-] is no
    argument-taking letter, and to [-] otherwise.  The two changes
    (operator, add, alice), (voice, remove, bob) are what
    [MODE #chan +o alice -v bob] yields.  In general the letters of one mode
    argument become changes in order, under the operation of that argument;
    the argument-taking letters among them claim the arguments from the
    cursor on, one each, left to right, as long as one remains, and the
    others claim none. *)
Theorem C1_channel_mode_changes `{D : Declarations} `{U : UnicodeText} :
  ParseLine "MODE #chan +o-v alice bob" = (MODE, ["#chan"; "+o-v"; "alice"; "bob"])
  /\ NewChannelModeCommand ["#chan"; "+o-v"; "alice"; "bob"]
     = ok (ChannelModeCommand base0 "#chan"
             [ChannelModeChange.Build_t ChannelOperator Add "alice";
              ChannelModeChange.Build_t dash Add
                (if takes_arg dash then "bob" else EmptyString);
              ChannelModeChange.Build_t Voice Add
                (if takes_arg dash then EmptyString else "bob")])
  /\ NewChannelModeCommand ["#chan"; "+o"; "alice"; "-v"; "bob"]
     = ok (ChannelModeCommand base0 "#chan"
             [ChannelModeChange.Build_t ChannelOperator Add "alice";
              ChannelModeChange.Build_t Voice Remove "bob"])
  /\ forall (args : list string) (op : ModeOp) (modes : list rune)
            (changes : ChannelModeChanges) (skipArgs : nat),
       (skipArgs <= length args)%nat ->
       let n := length (List.filter takes_arg modes) in
       exists added,
         channelModeLetters args op modes changes skipArgs
           = Returned (changes ++ added, Nat.min (length args) (skipArgs + n))
         /\ map cmode added = modes
         /\ Forall (fun c => cop c = op) added
         /\ map carg (List.filter with_arg added)
            = take n (drop skipArgs args)
              ++ replicate (n - (length args - skipArgs)) EmptyString
         /\ Forall (fun c => carg c = EmptyString)
                   (List.filter (fun c => negb (with_arg c)) added).
Proof.
  split; [|split; [|split]].
  - rewrite ParseLine_ascii by reflexivity. reflexivity.
  - apply plus_o_dash_v.
  - apply plus_o_minus_v.
  - intros args op modes changes skipArgs Hle. now apply channelModeLetters_returns.
Qed.

(** The letters law of C1 at the arguments of the example, with the letters
    of RFC 2811. *)
Lemma C1_witness :
  exists added,
    @channelModeLetters rfc_declarations ["+o-v"; "alice"; "bob"] Add
      [ChannelOperator; dash; Voice] [] 1
    = Returned ([] ++ added, 3%nat)
    /\ map cmode added = [ChannelOperator; dash; Voice].
Proof.
  destruct (proj2 (proj2 (proj2 (@C1_channel_mode_changes rfc_declarations ascii_text)))
              ["+o-v"; "alice"; "bob"] Add [ChannelOperator; dash; Voice] [] 1%nat)
    as (added & Hrun & Hmodes & _).
  - cbn. lia.
  - exists added. split; [exact Hrun | exact Hmodes].
Defined.

(** ** C2: user modes of [MODE nick +iw-o] *)

(** C2, as stated, fails: the arguments [nick +iw-o] do not yield the changes
    (i, add), (w, add), (o, remove), and the rendering of those three changes
    is not [+iw-o]. *)
Lemma C2_counterexample :
  user_changes_of (NewUserModeCommand ["nick"; "+iw-o"])
    <> Some [ModeChange.Build_t (byte_val "i") Add;
             ModeChange.Build_t (byte_val "w") Add;
             ModeChange.Build_t (byte_val "o") Remove]
  /\ ModeChanges_String [ModeChange.Build_t (byte_val "i") Add;
                         ModeChange.Build_t (byte_val "w") Add;
                         ModeChange.Build_t (byte_val "o") Remove]
     <> Returned "+iw-o".
Proof. split; intros H; vm_compute in H; discriminate H. Qed.

(** C2, amended.  With [nick] no channel name, [MODE nick +iw-o] parses
    without error to four changes, all under add: (i, add), (w, add),
    (-, add), (o, add); the first byte of an argument sets the operation of
    every later letter of that argument, [-] included.  Rendering these four
    changes gives [+iw-o] back.  The changes (i, add), (w, add), (o, remove)
    are what [MODE nick +iw -o] yields.  In general a signed argument of
    ASCII letters parses to one change per letter under its sign, and the
    rendering of such a run is the sign once, followed by the letters: the
    argument itself. *)
Theorem C2_user_mode_changes `{D : Declarations} `{U : UnicodeText} :
  IsChannel "nick" = false ->
  ParseLine "MODE nick +iw-o" = (MODE, ["nick"; "+iw-o"])
  /\ NewModeCommand ["nick"; "+iw-o"]
     = ok (ModeCommand base0 "nick"
             [ModeChange.Build_t (byte_val "i") Add;
              ModeChange.Build_t (byte_val "w") Add;
              ModeChange.Build_t dash Add;
              ModeChange.Build_t (byte_val "o") Add])
  /\ ModeChanges_String [ModeChange.Build_t (byte_val "i") Add;
                         ModeChange.Build_t (byte_val "w") Add;
                         ModeChange.Build_t dash Add;
                         ModeChange.Build_t (byte_val "o") Add]
     = Returned "+iw-o"
  /\ NewModeCommand ["nick"; "+iw"; "-o"]
     = ok (ModeCommand base0 "nick"
             [ModeChange.Build_t (byte_val "i") Add;
              ModeChange.Build_t (byte_val "w") Add;
              ModeChange.Build_t (byte_val "o") Remove])
  /\ forall (nickname : string) (b : ascii) (letters : string),
       signed b = true -> is_ascii letters = true -> letters <> EmptyString ->
       exists changes,
         NewUserModeCommand [nickname; String b letters]
           = ok (ModeCommand base0 nickname changes)
         /\ map umode changes = range_runes letters
         /\ Forall (fun c => uop c = byte_val b) changes
         /\ ModeChanges_String changes = Returned (String b letters).
Proof.
  intros Hnick. split; [|split; [|split; [|split]]].
  - rewrite ParseLine_ascii by reflexivity. reflexivity.
  - rewrite NewModeCommand_cases, Hnick. reflexivity.
  - reflexivity.
  - rewrite NewModeCommand_cases, Hnick. reflexivity.
  - intros nickname b letters Hb Hascii Hne.
    destruct (user_mode_round_trip nickname b letters Hb Hascii Hne) as [Hparse Hrender].
    exists (sign_changes (String b letters)). split; [exact Hparse|].
    split; [|split; [|exact Hrender]].
    + cbn [sign_changes]. rewrite map_map. cbn [umode]. apply map_id.
    + cbn [sign_changes]. apply List.Forall_forall. intros c Hc.
      apply in_map_iff in Hc as (mode & <- & _). reflexivity.
Qed.

(** C2 with the channel names of RFC 2811, of which [nick] is none. *)
Lemma C2_witness :
  @IsChannel rfc_declarations "nick" = false
  /\ @NewModeCommand rfc_declarations ["nick"; "+iw-o"]
     = ok (ModeCommand base0 "nick"
             [ModeChange.Build_t (byte_val "i") Add;
              ModeChange.Build_t (byte_val "w") Add;
              ModeChange.Build_t dash Add;
              ModeChange.Build_t (byte_val "o") Add]).
Proof.
  split; [reflexivity|].
  exact (proj1 (proj2 (@C2_user_mode_changes rfc_declarations ascii_text eq_refl))).
Defined.

(** ** C3: the two shapes of USER *)

(** C3, as stated, fails: the flags of [USER a 12 * realname] include
    invisible, whatever the two flag constants are. *)
Lemma C3_counterexample :
  ~ exists D : Declarations,
      exists cmd,
        NewUserCommand ["a"; "12"; "*"; "realname"] = ok cmd
        /\ In WallOps (Flags cmd) /\ ~ In Invisible (Flags cmd).
Proof.
  intros (D & cmd & Hcmd & _ & Hinv).
  rewrite NewUserCommand_cases in Hcmd. cbn in Hcmd. injection Hcmd as <-.
  apply Hinv. rewrite Flags_bits. right. left. reflexivity.
Qed.

(** C3, amended.  USER takes exactly 4 arguments, any other count is the
    arity error.  With 4, argument 2 is parsed as an unsigned 8-bit decimal
    integer: on success the result is the modern variant (username, mode,
    unused, realname), whose flags are wallops when bit 2 of the mode is set,
    then invisible when bit 3 is set; on failure it is the legacy variant
    (username, hostname, servername, realname).  So [USER a 12 * realname]
    yields the modern variant with both flags, wallops and invisible
    (12 = 8 + 4); a mode of 4 gives wallops alone; and
    [USER a host serv realname] yields the legacy variant. *)
Theorem C3_user_command `{D : Declarations} `{U : UnicodeText} :
  (forall args : list string,
     length args <> 4%nat -> NewUserCommand args = failed NotEnoughArgsError)
  /\ (forall username arg1 arg2 realname : string,
        NewUserCommand [username; arg1; arg2; realname]
        = match ParseUint8 arg1 with
          | Some mode => ok (RFC2812UserCommand base0 username realname mode arg2)
          | None => ok (RFC1459UserCommand base0 username realname arg1 arg2)
          end)
  /\ (forall (s : string) (mode : Z), ParseUint8 s = Some mode -> 0 <= mode <= 255)
  /\ (forall base username realname mode unused,
        Flags (RFC2812UserCommand base username realname mode unused)
        = (if Z.testbit mode 2 then [WallOps] else [])
          ++ (if Z.testbit mode 3 then [Invisible] else []))
  /\ ParseLine "USER a 12 * realname" = (USER, ["a"; "12"; "*"; "realname"])
  /\ NewUserCommand ["a"; "12"; "*"; "realname"]
     = ok (RFC2812UserCommand base0 "a" "realname" 12 "*")
  /\ Flags (RFC2812UserCommand base0 "a" "realname" 12 "*") = [WallOps; Invisible]
  /\ Flags (RFC2812UserCommand base0 "a" "realname" 4 "*") = [WallOps]
  /\ ParseLine "USER a host serv realname" = (USER, ["a"; "host"; "serv"; "realname"])
  /\ NewUserCommand ["a"; "host"; "serv"; "realname"]
     = ok (RFC1459UserCommand base0 "a" "realname" "host" "serv").
Proof.
  split_and!.
  - intros args Hlen. rewrite NewUserCommand_cases.
    destruct args as [|a0 [|a1 [|a2 [|a3 [|a4 rest]]]]]; try reflexivity.
    now contradiction Hlen.
  - intros. now rewrite NewUserCommand_cases.
  - intros s mode H. now apply ParseUint8_range in H.
  - intros. apply Flags_bits.
  - rewrite ParseLine_ascii by reflexivity. reflexivity.
  - reflexivity.
  - now rewrite Flags_bits.
  - now rewrite Flags_bits.
  - rewrite ParseLine_ascii by reflexivity. reflexivity.
  - reflexivity.
Qed.

(** C3 at two arguments, too few for USER. *)
Lemma C3_witness :
  NewUserCommand ["a"; "host"] = failed NotEnoughArgsError.
Proof.
  apply (proj1 (@C3_user_command rfc_declarations ascii_text)). cbn. lia.
Defined.

(** ** C4: the users of KICK *)

(** C4.  With at least 2 arguments, KICK succeeds exactly when the
    comma-split user list has length 1 or the length of the comma-split
    channel list, and fails with the arity error otherwise.  On success the
    map pairs every channel with the single user, or the channels with the
    users position by position.  So [KICK #a,#b alice] yields
    [#a: alice, #b: alice], [KICK #a,#b alice,bob] yields
    [#a: alice, #b: bob], and [KICK #a,#b,#c alice,bob] is the arity
    error. *)
Theorem C4_kick_pairing (arg0 arg1 : string) (rest : list string) :
  let channels := strings_Split arg0 comma in
  let users := strings_Split arg1 comma in
  let kicks := pair_up ∅ (zip channels (kick_users channels users)) in
  ((exists cmd, NewKickCommand (arg0 :: arg1 :: rest) = ok cmd)
     <-> (length users = 1%nat \/ length users = length channels))
  /\ (length users = 1%nat \/ length users = length channels ->
        NewKickCommand (arg0 :: arg1 :: rest)
        = ok (KickCommand base0 kicks (hd EmptyString rest)))
  /\ (~ (length users = 1%nat \/ length users = length channels) ->
        NewKickCommand (arg0 :: arg1 :: rest) = failed NotEnoughArgsError)
  /\ (forall user c, users = [user] -> c ∈ channels -> kicks !! c = Some user)
  /\ (forall i c user,
        length users = length channels -> NoDup channels ->
        channels !! i = Some c -> users !! i = Some user -> kicks !! c = Some user)
  /\ NewKickCommand ["#a,#b"; "alice"]
     = ok (KickCommand base0 (<["#a" := "alice"]> (<["#b" := "alice"]> ∅)) EmptyString)
  /\ NewKickCommand ["#a,#b"; "alice,bob"]
     = ok (KickCommand base0 (<["#a" := "alice"]> (<["#b" := "bob"]> ∅)) EmptyString)
  /\ NewKickCommand ["#a,#b,#c"; "alice,bob"] = failed NotEnoughArgsError.
Proof.
  intros channels users kicks.
  assert (Hcases := NewKickCommand_cases (arg0 :: arg1 :: rest)).
  cbn zeta iota in Hcases. fold channels users in Hcases. fold kicks in Hcases.
  assert (Hcond : negb (length channels =? length users)%nat && negb (length users =? 1)%nat
                  = false <-> (length users = 1%nat \/ length users = length channels)).
  { destruct (Nat.eqb_spec (length channels) (length users)),
             (Nat.eqb_spec (length users) 1); cbn; split; intros; try lia; congruence. }
  split_and!.
  - split.
    + intros [cmd Hcmd]. apply Hcond. rewrite Hcmd in Hcases.
      destruct (negb _ && negb _); [discriminate | reflexivity].
    + intros H. apply Hcond in H. rewrite H in Hcases. eauto.
  - intros H. apply Hcond in H. now rewrite H in Hcases.
  - intros H. rewrite Hcases.
    destruct (negb _ && negb _) eqn:Hc; [reflexivity|].
    exfalso. apply H, Hcond. reflexivity || exact Hc.
  - intros user c Hu Hc. subst kicks. rewrite Hu. cbn [kick_users].
    apply pair_up_single. now right.
  - intros i c user Hlen Hnodup Hc Hu. subst kicks.
    assert (Hk : kick_users channels users = users \/ exists u, users = [u]).
    { destruct users as [|u [|? ?]]; eauto. }
    destruct Hk as [->|[u Hueq]].
    + eapply pair_up_positional; eauto. lia.
    + rewrite Hueq in *. cbn [kick_users].
      rewrite pair_up_single; [|right; eapply list_elem_of_lookup_2; eauto].
      cbn [length] in Hlen. destruct i; [now injection Hu as -> |].
      apply lookup_lt_Some in Hc. lia.
  - reflexivity.
  - reflexivity.
  - reflexivity.
Qed.

(** C4 at [KICK #a,#b alice,bob]: two users for two channels. *)
Lemma C4_witness :
  NewKickCommand ["#a,#b"; "alice,bob"]
  = ok (KickCommand base0
          (pair_up ∅ (zip ["#a"; "#b"] (kick_users ["#a"; "#b"] ["alice"; "bob"])))
          EmptyString).
Proof.
  apply (proj1 (proj2 (C4_kick_pairing "#a,#b" "alice,bob" []))).
  right. reflexivity.
Defined.

(** ** C5: the channels and keys of JOIN *)

(** C5, as stated, fails: [0] followed by a key is not the sole argument
    [0], yet [JOIN 0 k] pairs no channel [0] with the key [k]. *)
Lemma C5_counterexample :
  ~ exists base channels zero,
      NewJoinCommand ["0"; "k"] = ok (JoinCommand base channels zero)
      /\ channels !! "0" = Some "k".
Proof.
  intros (base & channels & zero & Hcmd & Hlook).
  vm_compute in Hcmd. injection Hcmd as <- <- <-. discriminate Hlook.
Qed.

(** C5, amended.  A first argument [0], alone or followed by more, sets the
    leave-all flag and leaves the channel map empty.  Otherwise argument 1
    is comma-split into channel names and argument 2, if present, into keys;
    when the keys do not outnumber the channels they are paired position by
    position, the channels beyond the key list receiving the empty key.  So
    [JOIN #a,#b key1] yields [#a: key1] and [#b] with the empty key. *)
Theorem C5_join_pairing (arg0 : string) (rest : list string) :
  let channels := strings_Split arg0 comma in
  let keys := join_keys rest in
  let padded := keys ++ replicate (length channels - length keys) EmptyString in
  (arg0 = "0" -> NewJoinCommand (arg0 :: rest) = ok (JoinCommand base0 ∅ true))
  /\ (arg0 <> "0" -> (length keys <= length channels)%nat ->
        NewJoinCommand (arg0 :: rest)
        = ok (JoinCommand base0 (pair_up ∅ (zip channels padded)) false))
  /\ (forall i c,
        (length keys <= length channels)%nat -> NoDup channels ->
        channels !! i = Some c ->
        pair_up ∅ (zip channels padded) !! c = Some (default EmptyString (keys !! i)))
  /\ NewJoinCommand ["0"] = ok (JoinCommand base0 ∅ true)
  /\ NewJoinCommand ["#a,#b"; "key1"]
     = ok (JoinCommand base0 (<["#a" := "key1"]> (<["#b" := EmptyString]> ∅)) false).
Proof.
  intros channels keys padded.
  assert (Hcases := NewJoinCommand_cases (arg0 :: rest)).
  cbn zeta iota in Hcases. fold channels keys in Hcases. fold padded in Hcases.
  split_and!.
  - intros ->. reflexivity.
  - intros Hne Hlen. rewrite Hcases.
    destruct (String.eqb_spec arg0 "0"); [contradiction|].
    destruct (Nat.leb_spec (length keys) (length channels)); [reflexivity | lia].
  - intros i c Hlen Hnodup Hc.
    assert (Hi : (i < length channels)%nat) by (eapply lookup_lt_Some; eauto).
    eapply pair_up_positional; eauto.
    + subst padded. rewrite length_app, length_replicate. lia.
    + subst padded. destruct (keys !! i) as [k|] eqn:Hk.
      * cbn. now apply lookup_app_l_Some.
      * cbn. apply lookup_ge_None in Hk.
        rewrite lookup_app_r by exact Hk. apply lookup_replicate_2. lia.
  - reflexivity.
  - reflexivity.
Qed.

(** C5 at [JOIN #a,#b key1]: one key for two channels. *)
Lemma C5_witness :
  NewJoinCommand ["#a,#b"; "key1"]
  = ok (JoinCommand base0 (pair_up ∅ (zip ["#a"; "#b"] ["key1"; EmptyString])) false).
Proof.
  apply (proj1 (proj2 (C5_join_pairing "#a,#b" ["key1"]))).
  - discriminate.
  - cbn. lia.
Defined.

(** ** C6: the parameters of a line *)

(** C6, as stated, fails: in the line [PRIVMSG a<TAB>b c] the first
    parameter, which is not the last, contains a TAB, whatever the text
    library does outside ASCII. *)
Lemma C6_counterexample :
  ~ exists U : UnicodeText,
      forall line i p,
        (i + 1 < length (snd (ParseLine line)))%nat ->
        snd (ParseLine line) !! i = Some p ->
        has_whitespace p = false.
Proof.
  intros [U H].
  specialize (H ("PRIVMSG a" +:+ String tab "b c") 0%nat ("a" +:+ String tab "b")).
  rewrite ParseLine_ascii in H by reflexivity.
  change (snd (@ParseLine ascii_text ("PRIVMSG a" +:+ String tab "b c")))
    with ["a" +:+ String tab "b"; "c"] in H.
  discriminate H; [cbn; lia | reflexivity].
Qed.

(** C6, amended.  For every line, every parameter but the last is the NFKC
    form of a token: a non-empty piece of the line without a space character
    (U+0020, the only delimiter of the tokenizer; other white space, a TAB
    for one, stays inside a token, and nothing is said of white space that
    normalization itself may put in).  The token is a piece of the line
    itself: it stands in the line behind a space, and a space or the end of
    the line follows it.  The last parameter is either such a normalized
    token or the trailing parameter: the NFC form of all that follows a colon
    in the line, spaces included.  The loop that gathers the parameters
    shortens the line at every turn, so it runs to the end of the line. *)
Theorem C6_parameters `{U : UnicodeText} (line : string) :
  let args := snd (ParseLine line) in
  (forall i p,
     (i + 1 < length args)%nat -> args !! i = Some p ->
     exists tok, token tok /\ piece tok line /\ p = NFKC_String tok)
  /\ (forall p,
        last args = Some p ->
        (exists tok, token tok /\ piece tok line /\ p = NFKC_String tok)
        \/ (exists text, string_suffix (String ":" text) line /\ p = NFC_String text))
  /\ (forall fuel rest params,
        (String.length rest <= fuel)%nat ->
        ParseLine_loop fuel rest params = ParseLine_loop (String.length rest) rest params).
Proof.
  intros args.
  destruct (ParseLine_pieces line) as (toks & trailing & Hargs & Htoks & Htrail).
  fold args in Hargs.
  assert (Htok : forall i p, map NFKC_String toks !! i = Some p ->
                             exists tok, token tok /\ piece tok line /\ p = NFKC_String tok).
  { intros i p Hp. change (map NFKC_String toks) with (NFKC_String <$> toks) in Hp.
    apply list_lookup_fmap_Some in Hp as (tok & -> & Htok).
    exists tok. rewrite List.Forall_forall in Htoks.
    destruct (Htoks tok) as [Htoken Hpiece];
      [apply list_elem_of_In; eapply list_elem_of_lookup_2; eauto|].
    split_and!; (assumption || reflexivity). }
  split_and!.
  - intros i p Hi Hp. rewrite Hargs in Hi, Hp.
    destruct trailing as [text|]; cbn [fmap option_fmap option_map trailing_list] in *.
    + rewrite length_app in Hi. cbn [length] in Hi.
      rewrite lookup_app_l in Hp by lia. eauto.
    + rewrite app_nil_r in Hp. eauto.
  - intros p Hp. rewrite Hargs in Hp.
    destruct trailing as [text|]; cbn [fmap option_fmap option_map trailing_list] in *.
    + rewrite last_snoc in Hp. injection Hp as <-. right. exists text. split; [|reflexivity].
      now apply Htrail.
    + rewrite app_nil_r in Hp. left. apply last_Some in Hp as [front Hfront].
      apply (Htok (length front)). rewrite Hfront. apply list_lookup_middle. reflexivity.
  - intros fuel rest params Hfuel. apply ParseLine_loop_fuel; lia.
Qed.

(** C6 at [PRIVMSG #chan :hello world]: the first parameter is a token, a
    piece of the line, and the last one the trailing text. *)
Lemma C6_witness :
  exists tok, token tok /\ piece tok "PRIVMSG #chan :hello world"
              /\ "#chan"%string = @NFKC_String ascii_text tok.
Proof.
  apply (proj1 (@C6_parameters ascii_text "PRIVMSG #chan :hello world") 0%nat "#chan"%string).
  - apply Nat.ltb_lt. reflexivity.
  - reflexivity.
Defined.

(** ** C7: unknown command codes *)

(** C7.  A line whose tokenized, upper-cased command code is not in the
    registry parses, with no error, to the UNKNOWN variant that carries the
    tokenized parameters and is stamped with that code.  [ZORP] is no
    registered code, so [ZORP arg1 arg2] yields UNKNOWN with code [ZORP] and
    the parameters [arg1], [arg2]. *)
Theorem C7_unknown_command `{D : Declarations} `{U : UnicodeText} :
  (forall line,
     parseCommandFuncs !! (fst (ParseLine line)) = None ->
     ParseCommand line
     = Returned (Some (UnknownCommand {| client := None; code := fst (ParseLine line) |}
                         (snd (ParseLine line))), None))
  /\ ParseLine "ZORP arg1 arg2" = ("ZORP", ["arg1"; "arg2"])
  /\ parseCommandFuncs !! "ZORP" = None
  /\ ParseCommand "ZORP arg1 arg2"
     = Returned (Some (UnknownCommand {| client := None; code := "ZORP" |}
                         ["arg1"; "arg2"]), None).
Proof.
  assert (Hline : ParseLine "ZORP arg1 arg2" = ("ZORP", ["arg1"; "arg2"])).
  { rewrite ParseLine_ascii by reflexivity. reflexivity. }
  split_and!.
  - apply ParseCommand_unknown.
  - exact Hline.
  - apply parseCommandFuncs_ZORP.
  - rewrite ParseCommand_unknown; rewrite Hline; [reflexivity|].
    apply parseCommandFuncs_ZORP.
Qed.

(** C7 at the lower-case line [zorp arg1 arg2]. *)
Lemma C7_witness :
  @ParseCommand rfc_declarations ascii_text "zorp arg1 arg2"
  = Returned (Some (UnknownCommand {| client := None; code := "ZORP" |}
                      ["arg1"; "arg2"]), None).
Proof.
  apply (proj1 (@C7_unknown_command rfc_declarations ascii_text) "zorp arg1 arg2").
  apply (@parseCommandFuncs_ZORP rfc_declarations ascii_text).
Defined.

(** ** C9: JOIN and the number of keys *)

(** C9.  With no argument JOIN is the arity error.  With a first argument
    other than [0], JOIN returns a command when the comma-split keys of
    argument 2 (none without it) do not outnumber the comma-split channels of
    argument 1; and when they do, the loop that stores each key at its own
    index of the key slice, which has one entry per channel, panics with an
    index out of range. *)
Theorem C9_join_total_iff_keys_fit (args : list string) :
  (args = [] -> NewJoinCommand args = failed NotEnoughArgsError)
  /\ (forall arg0 rest,
        args = arg0 :: rest -> arg0 <> "0" ->
        let channels := strings_Split arg0 comma in
        let keys := join_keys rest in
        ((length keys <= length channels)%nat ->
           exists channel_map, NewJoinCommand args = ok (JoinCommand base0 channel_map false))
        /\ ((length channels < length keys)%nat ->
              NewJoinCommand args
              = Panicked (IndexOutOfRange (length channels) (length channels))))
  /\ NewJoinCommand ["#a"; "k1,k2"] = Panicked (IndexOutOfRange 1 1).
Proof.
  split_and!.
  - intros ->. reflexivity.
  - intros arg0 rest -> Hne channels keys.
    assert (Hcases := NewJoinCommand_cases (arg0 :: rest)).
    cbn zeta iota in Hcases. fold channels keys in Hcases.
    destruct (String.eqb_spec arg0 "0"); [contradiction|].
    split; intros Hlen; rewrite Hcases.
    + destruct (Nat.leb_spec (length keys) (length channels)); [eauto | lia].
    + destruct (Nat.leb_spec (length keys) (length channels)); [lia | reflexivity].
  - reflexivity.
Qed.

(** C9 at [JOIN #a k1,k2]: two keys for one channel. *)
Lemma C9_witness :
  NewJoinCommand ["#a"; "k1,k2"]
  = Panicked (IndexOutOfRange (length (strings_Split "#a" comma))
                              (length (strings_Split "#a" comma))).
Proof.
  apply (proj1 (proj2 (C9_join_total_iff_keys_fit ["#a"; "k1,k2"])) "#a" ["k1,k2"]).
  - reflexivity.
  - discriminate.
  - cbn. lia.
Defined.

(** ** C10: where the grammar error comes from *)

(** C10.  When the first argument is recognized as a channel name, MODE
    returns a channel-mode command and no error, whatever the other arguments
    are.  A mode argument whose first byte is neither [+] nor [-] is read as
    mode letters under the list operation, that first byte included.  The
    grammar error comes from the user-mode parser only: MODE returns it
    exactly when the subject is no channel name and some mode argument is
    neither empty nor led by [+] or [-]; and a line that parses to the
    grammar error is such a MODE line. *)
Theorem C10_grammar_error_only_from_user_mode `{D : Declarations} `{U : UnicodeText} :
  (forall channel rest,
     IsChannel channel = true ->
     exists changes,
       NewModeCommand (channel :: rest) = ok (ChannelModeCommand base0 channel changes))
  /\ (forall channel b t rest,
        signed b = false ->
        exists letters later,
          NewChannelModeCommand (channel :: String b t :: rest)
          = ok (ChannelModeCommand base0 channel (letters ++ later))
          /\ map cmode letters = range_runes (String b t)
          /\ Forall (fun c => cop c = List) letters)
  /\ (forall args cmd,
        NewModeCommand args = Returned (cmd, Some ErrParseCommand)
        <-> exists subject rest,
              args = subject :: rest /\ IsChannel subject = false /\ cmd = None
              /\ List.Exists unsigned_arg rest)
  /\ (forall line cmd,
        ParseCommand line = Returned (cmd, Some ErrParseCommand) ->
        fst (ParseLine line) = MODE
        /\ exists subject rest,
             snd (ParseLine line) = subject :: rest /\ IsChannel subject = false
             /\ List.Exists unsigned_arg rest).
Proof.
  split_and!.
  - intros channel rest Hch. rewrite NewModeCommand_cases, Hch.
    apply NewChannelModeCommand_returns.
  - intros channel b t rest Hb. now apply NewChannelModeCommand_unsigned.
  - intros args cmd. split; [apply NewModeCommand_grammar_error|].
    intros (subject & rest & -> & Hch & -> & Hbad).
    rewrite NewModeCommand_cases, Hch.
    apply mode_arg_ok_false in Hbad. now rewrite Hbad.
  - intros line cmd Hparse.
    destruct (ParseCommand_grammar_error line cmd Hparse) as [Hcode Hmode].
    split; [exact Hcode|].
    destruct (NewModeCommand_grammar_error _ _ Hmode) as (subject & rest & Hargs & Hch & _ & Hbad).
    now exists subject, rest.
Qed.

(** C10 at [MODE #chan b]: a channel subject and an argument without a
    sign. *)
Lemma C10_witness :
  exists changes,
    @NewModeCommand rfc_declarations ["#chan"; "b"]
    = ok (ChannelModeCommand base0 "#chan" changes).
Proof.
  apply (proj1 (@C10_grammar_error_only_from_user_mode rfc_declarations ascii_text)).
  reflexivity.
Defined.

(** * Further properties of the code *)

(** ** The tokenizer, from the wire form and back *)

Section Wire.
Local Open Scope nat_scope.

Lemma append_length (a b : string) :
  String.length (a +:+ b) = String.length a + String.length b.
Proof. induction a as [|c a IH]; [reflexivity|]. rewrite append_cons. cbn. now rewrite IH. Qed.

Lemma trim_spaces_id s : starts_with_space s = false -> trim_spaces s = s.
Proof. destruct s as [|c s]; [reflexivity|]. cbn. now intros ->. Qed.

Lemma trim_spaces_spaces n s : trim_spaces (spaces n +:+ s) = trim_spaces s.
Proof.
  induction n as [|n IH]; [reflexivity|]. cbn [spaces]. rewrite append_cons. cbn. exact IH.
Qed.

Lemma spaces_match_word w r :
  no_space w = true ->
  spaces_match (w +:+ String space r) = Some (w, trim_spaces r).
Proof.
  induction w as [|c w IH]; intros Hw.
  - cbn. reflexivity.
  - cbn [no_space] in Hw. apply andb_prop in Hw as [Hc Hw].
    rewrite append_cons. cbn [spaces_match].
    apply negb_true_iff in Hc. rewrite Hc, IH by exact Hw. reflexivity.
Qed.

Lemma spaces_match_no_space w : no_space w = true -> spaces_match w = None.
Proof.
  induction w as [|c w IH]; intros Hw; [reflexivity|].
  cbn [no_space] in Hw. apply andb_prop in Hw as [Hc Hw].
  cbn [spaces_match]. apply negb_true_iff in Hc. now rewrite Hc, IH.
Qed.

(** A word, a run of spaces and a text that does not start with one: the
    word and the text. *)
Lemma splitArg_word w n r :
  no_space w = true -> starts_with_space r = false ->
  splitArg (w +:+ spaces (S n) +:+ r) = (w, r).
Proof.
  intros Hw Hr. rewrite splitArg_cases. cbn [spaces]. rewrite append_cons.
  rewrite spaces_match_word by exact Hw.
  now rewrite trim_spaces_spaces, trim_spaces_id.
Qed.

Lemma splitArg_last w : no_space w = true -> splitArg w = (w, EmptyString).
Proof. intros Hw. rewrite splitArg_cases. now rewrite spaces_match_no_space. Qed.

Lemma token_start p : token p -> starts_with_space p = false.
Proof.
  intros [Hp Hne]. destruct p as [|c p]; [reflexivity|].
  cbn in *. apply andb_prop in Hp as [Hc _]. now apply negb_true_iff in Hc.
Qed.

Lemma append_start (p s : string) :
  p <> EmptyString -> starts_with_space (p +:+ s) = starts_with_space p.
Proof. destruct p; [congruence | reflexivity]. Qed.

Lemma prefix_empty (s : string) : String.prefix EmptyString s = true.
Proof. now destruct s. Qed.

Lemma HasPrefix_colon_cons (text : string) : HasPrefix (String ":" text) ":" = true.
Proof.
  unfold HasPrefix. cbn [String.prefix].
  destruct (ascii_dec ":" ":"); [apply prefix_empty | congruence].
Qed.

Lemma HasPrefix_append (p s : string) :
  p <> EmptyString -> HasPrefix (p +:+ s) ":" = HasPrefix p ":".
Proof.
  destruct p as [|c p]; [congruence|]. intros _. unfold HasPrefix.
  rewrite append_cons. cbn [String.prefix]. destruct (ascii_dec ":" c); [|reflexivity].
  now rewrite !prefix_empty.
Qed.

Lemma wire_params_text params n trailing :
  wire_params params (wire_tail n trailing) = EmptyString
  /\ params_text params n trailing = EmptyString
  \/ exists k,
       wire_params params (wire_tail n trailing)
       = spaces (S k) +:+ params_text params n trailing.
Proof.
  destruct params as [|[k p] params]; [destruct trailing as [text|]|];
    cbn [wire_params wire_tail params_text].
  - right. now exists n.
  - destruct n as [|n]; [now left|]. right. exists n. now rewrite append_empty_r.
  - right. now exists k.
Qed.

Lemma params_text_start params n trailing :
  Forall (fun p => middle p.2) params ->
  starts_with_space (params_text params n trailing) = false.
Proof.
  intros Hps. destruct params as [|[k p] params]; [now destruct trailing|].
  apply Forall_cons in Hps as [[Hp _] _]. cbn [params_text].
  rewrite append_start by apply Hp. now apply token_start.
Qed.

Lemma splitArg_wire w params n trailing :
  no_space w = true -> Forall (fun p => middle p.2) params ->
  splitArg (w +:+ wire_params params (wire_tail n trailing))
  = (w, params_text params n trailing).
Proof.
  intros Hw Hps. destruct (wire_params_text params n trailing) as [[-> ->]|[k ->]].
  - rewrite append_empty_r. now apply splitArg_last.
  - apply splitArg_word; [exact Hw | now apply params_text_start].
Qed.

Context `{U : UnicodeText}.

Lemma ParseLine_loop_wire params :
  forall n trailing fuel args,
    Forall (fun p => middle p.2) params ->
    String.length (params_text params n trailing) <= fuel ->
    ParseLine_loop fuel (params_text params n trailing) args
    = args ++ map (fun p => NFKC_String p.2) params
           ++ trailing_list (NFC_String <$> trailing).
Proof.
  induction params as [|[k p] params IH]; intros n trailing fuel args Hps Hfuel.
  - destruct trailing as [text|]; cbn [params_text] in *.
    + destruct fuel as [|fuel]; [cbn in Hfuel; lia|].
      cbn [ParseLine_loop String.length Nat.ltb Nat.leb]. now rewrite HasPrefix_colon_cons.
    + destruct fuel; cbn; now rewrite app_nil_r.
  - apply Forall_cons in Hps as [Hp Hps]. destruct Hp as [[Hsp Hne] Hcolon].
    cbn [params_text snd] in *. rewrite append_length in Hfuel.
    destruct fuel as [|fuel]; [destruct p; [congruence | cbn in Hfuel; lia]|].
    cbn [ParseLine_loop].
    replace (0 <? String.length (p +:+ wire_params params (wire_tail n trailing)))
      with true by (destruct p; [congruence | reflexivity]).
    rewrite HasPrefix_append, Hcolon by exact Hne.
    rewrite splitArg_wire by assumption.
    rewrite IH; [cbn [map snd]; now rewrite <- app_assoc | exact Hps |].
    assert (Hlen : String.length (params_text params n trailing)
                   <= String.length (wire_params params (wire_tail n trailing))).
    { destruct (wire_params_text params n trailing) as [[-> ->]|[j ->]]; [reflexivity|].
      rewrite append_length. lia. }
    destruct p; [congruence|]. cbn [String.length] in Hfuel. lia.
Qed.

(** The line written from its parts, tokenized. *)
Lemma ParseLine_of_wire (command : string) (params : list (nat * string)) (n : nat)
    (trailing : option string) :
  command_word command -> Forall (fun p => middle p.2) params ->
  ParseLine (wire command params n trailing)
  = (ToUpper command,
     map (fun p => NFKC_String p.2) params ++ trailing_list (NFC_String <$> trailing)).
Proof.
  intros [Hsp Hcolon] Hps. unfold ParseLine, wire.
  assert (Hpre : HasPrefix (command +:+ wire_params params (wire_tail n trailing)) ":"
                 = false).
  { destruct command as [|c command]; [|now rewrite HasPrefix_append].
    destruct (wire_params_text params n trailing) as [[-> _]|[k ->]]; reflexivity. }
  rewrite Hpre, splitArg_wire by assumption.
  now rewrite ParseLine_loop_wire.
Qed.

(** X1: a command word, middle parameters and an optional trailing parameter,
    written with runs of one or more spaces between them and any number of
    spaces at the end, tokenize to the upper-cased word and the normalized
    parameters, in order and none lost; the number of spaces makes no
    difference. *)
Theorem ParseLine_wire (command : string) (params : list (nat * string)) (n : nat)
    (trailing : option string) :
  command_word command -> Forall (fun p => middle p.2) params ->
  ParseLine (wire command params n trailing)
  = (ToUpper command,
     map (fun p => NFKC_String p.2) params ++ trailing_list (NFC_String <$> trailing)).
Proof. apply ParseLine_of_wire. Qed.

End Wire.

(** [PRIVMSG  #chan   :hello  world ] with its runs of spaces. *)
Lemma ParseLine_wire_witness :
  @ParseLine ascii_text "privmsg  #chan   :hello  world "
  = ("PRIVMSG"%string, ["#chan"; "hello  world "]%string).
Proof.
  apply (@ParseLine_wire ascii_text "privmsg" [(1%nat, "#chan"%string)] 2
           (Some "hello  world "%string)).
  - split; reflexivity.
  - repeat constructor; discriminate.
Defined.

Section Prefix.
Local Open Scope nat_scope.
Context `{D : Declarations} `{U : UnicodeText}.

(** X2: the prefix of a line, the word after a leading colon, and the spaces
    after it are dropped: the line parses as the line without them. *)
Theorem ParseLine_prefix_ignored (prefix line : string) (n : nat) :
  no_space prefix = true -> starts_with_space line = false -> HasPrefix line ":" = false ->
  ParseLine (":" +:+ prefix +:+ spaces (S n) +:+ line) = ParseLine line.
Proof.
  intros Hprefix Hstart Hcolon. unfold ParseLine.
  change (":" +:+ prefix +:+ spaces (S n) +:+ line)
    with (String ":" prefix +:+ spaces (S n) +:+ line).
  rewrite HasPrefix_append, HasPrefix_colon_cons by discriminate.
  rewrite splitArg_word by (cbn [no_space]; (now rewrite Hprefix) || assumption).
  cbn [snd]. now rewrite Hcolon.
Qed.

Lemma ToUpper_empty : ToUpper EmptyString = EmptyString.
Proof. now rewrite ToUpper_ascii. Qed.

Lemma parseCommandFuncs_empty : parseCommandFuncs !! EmptyString = None.
Proof.
  unfold parseCommandFuncs. apply not_elem_of_list_to_map_1.
  cbn [fmap list_fmap fst]. intros Hin.
  repeat (apply elem_of_cons in Hin as [Hin|Hin]; [discriminate Hin|]).
  by apply elem_of_nil in Hin.
Qed.

Lemma splitArg_space line :
  starts_with_space line = true -> fst (splitArg line) = EmptyString.
Proof.
  destruct line as [|c t]; [discriminate|]. cbn [starts_with_space]. intros Hc.
  rewrite splitArg_cases. cbn [spaces_match]. now rewrite Hc.
Qed.

Lemma ParseLine_space line :
  starts_with_space line = true -> fst (ParseLine line) = EmptyString.
Proof.
  intros Hstart. unfold ParseLine.
  replace (HasPrefix line ":") with false.
  - pose proof (splitArg_space line Hstart) as Hs.
    destruct (splitArg line) as [arg rest]. cbn [fst] in *. subst arg. apply ToUpper_empty.
  - symmetry. destruct (HasPrefix line ":") eqn:Hp; [|reflexivity].
    apply HasPrefix_colon_space in Hp. congruence.
Qed.

Lemma ParseLine_prefix_only prefix n :
  no_space prefix = true ->
  ParseLine (":" +:+ prefix +:+ spaces n) = (EmptyString, []).
Proof.
  intros Hprefix. unfold ParseLine.
  change (":" +:+ prefix +:+ spaces n) with (String ":" prefix +:+ spaces n).
  assert (Hpre : HasPrefix (String ":" prefix +:+ spaces n) ":" = true).
  { rewrite HasPrefix_append by discriminate. apply HasPrefix_colon_cons. }
  rewrite Hpre.
  assert (Hsplit : snd (splitArg (String ":" prefix +:+ spaces n)) = EmptyString).
  { destruct n as [|n].
    - cbn [spaces]. rewrite append_empty_r, splitArg_last; [reflexivity|].
      cbn [no_space]. now rewrite Hprefix.
    - rewrite <- (append_empty_r (spaces (S n))).
      now rewrite splitArg_word by (cbn [no_space]; (now rewrite Hprefix) || reflexivity). }
  rewrite Hsplit. cbn. now rewrite ToUpper_empty.
Qed.

(** X3: a line without a command word is not dispatched.  A line that starts
    with a space parses to the unknown command with the empty code, whatever
    follows the space, a registered keyword included; the empty line and a
    line that holds a prefix only parse to the unknown command with the empty
    code and no parameter. *)
Theorem ParseCommand_no_command_word :
  (forall line,
     starts_with_space line = true ->
     ParseCommand line
     = Returned (Some (UnknownCommand {| client := None; code := EmptyString |}
                         (snd (ParseLine line))), None))
  /\ ParseCommand EmptyString
     = Returned (Some (UnknownCommand {| client := None; code := EmptyString |} []), None)
  /\ (forall prefix n,
        no_space prefix = true ->
        ParseCommand (":" +:+ prefix +:+ spaces n)
        = Returned (Some (UnknownCommand {| client := None; code := EmptyString |} []), None)).
Proof.
  assert (Hgen : forall line,
            fst (ParseLine line) = EmptyString ->
            ParseCommand line
            = Returned (Some (UnknownCommand {| client := None; code := EmptyString |}
                                (snd (ParseLine line))), None)).
  { intros line Hcode. rewrite ParseCommand_unknown; rewrite Hcode;
      [reflexivity | apply parseCommandFuncs_empty]. }
  split_and!.
  - intros line Hstart. apply Hgen. now apply ParseLine_space.
  - rewrite Hgen; [reflexivity|]. cbn. apply ToUpper_empty.
  - intros prefix n Hprefix. rewrite Hgen; now rewrite ParseLine_prefix_only.
Qed.

End Prefix.

(** [:irc.example.org  NICK bob] parses as [NICK bob]. *)
Lemma ParseLine_prefix_ignored_witness :
  @ParseLine ascii_text ":irc.example.org  NICK bob" = @ParseLine ascii_text "NICK bob".
Proof.
  apply (@ParseLine_prefix_ignored ascii_text "irc.example.org" "NICK bob" 1); reflexivity.
Defined.

(** ** The case of the command word *)

Lemma upper_byte_idem c : upper_byte (upper_byte c) = upper_byte c.
Proof. destruct c as [[] [] [] [] [] [] [] []]; reflexivity. Qed.

Lemma upper_byte_space c : Ascii.eqb (upper_byte c) space = Ascii.eqb c space.
Proof. destruct c as [[] [] [] [] [] [] [] []]; reflexivity. Qed.

Lemma upper_byte_colon c : Ascii.eqb (upper_byte c) ":" = Ascii.eqb c ":".
Proof. destruct c as [[] [] [] [] [] [] [] []]; reflexivity. Qed.

Lemma upper_byte_ascii c : (byte_val (upper_byte c) <? 0x80) = (byte_val c <? 0x80).
Proof. destruct c as [[] [] [] [] [] [] [] []]; reflexivity. Qed.

Lemma HasPrefix_colon_eqb (s : string) :
  HasPrefix s ":" = match s with
                    | String c _ => Ascii.eqb c ":"
                    | EmptyString => false
                    end.
Proof.
  destruct s as [|c t]; [reflexivity|]. unfold HasPrefix. cbn [String.prefix].
  destruct (ascii_dec ":" c) as [<-|Hne].
  - now rewrite prefix_empty.
  - symmetry. apply Ascii.eqb_neq. congruence.
Qed.

Lemma ascii_upper_word command :
  command_word command -> command_word (ascii_upper command).
Proof.
  intros [Hsp Hcolon]. split.
  - clear Hcolon. induction command as [|c t IH]; [reflexivity|].
    cbn [no_space ascii_upper] in *. apply andb_prop in Hsp as [Hc Ht].
    now rewrite upper_byte_space, Hc, IH.
  - rewrite HasPrefix_colon_eqb in *. destruct command as [|c t]; [reflexivity|].
    cbn [ascii_upper]. now rewrite upper_byte_colon.
Qed.

Lemma ascii_upper_idem s : ascii_upper (ascii_upper s) = ascii_upper s.
Proof. induction s as [|c t IH]; [reflexivity|]. cbn. now rewrite upper_byte_idem, IH. Qed.

Lemma ascii_upper_ascii s : is_ascii (ascii_upper s) = is_ascii s.
Proof. induction s as [|c t IH]; [reflexivity|]. cbn [ascii_upper is_ascii]. now rewrite upper_byte_ascii, IH. Qed.

(** X4: the command word is read without regard to the case of its ASCII
    letters: a line parses as the same line with the word in upper case. *)
Theorem ParseCommand_case_insensitive `{D : Declarations} `{U : UnicodeText}
    (command : string) (params : list (nat * string)) (n : nat) (trailing : option string) :
  is_ascii command = true -> command_word command ->
  Forall (fun p => middle p.2) params ->
  ParseCommand (wire command params n trailing)
  = ParseCommand (wire (ascii_upper command) params n trailing).
Proof.
  intros Hascii Hword Hparams. unfold ParseCommand.
  rewrite !ParseLine_of_wire by (try apply ascii_upper_word; assumption).
  rewrite !ToUpper_ascii by (try rewrite ascii_upper_ascii; assumption).
  now rewrite ascii_upper_idem.
Qed.

(** [join #a] and [JOIN #a] are one command. *)
Lemma ParseCommand_case_insensitive_witness :
  @ParseCommand rfc_declarations ascii_text "join #a"
  = @ParseCommand rfc_declarations ascii_text "JOIN #a".
Proof.
  apply (@ParseCommand_case_insensitive rfc_declarations ascii_text "join"
           [(0%nat, "#a"%string)] 0 None).
  - reflexivity.
  - split; reflexivity.
  - repeat constructor; discriminate.
Defined.

(** ** What the dispatcher hands back *)

Ltac settle :=
  intros args;
  destruct args as [|? [|? [|? [|? [|? ?]]]]];
  first [ left; eexists; split; reflexivity | right; eexists; reflexivity ].

Section Dispatch.
Local Open Scope nat_scope.
Context `{D : Declarations} `{U : UnicodeText}.

Lemma settled_constructors :
  Forall (fun f : parseCommandFunc => forall args, settled (f args))
    [NewAwayCommand; NewCapCommand; NewDebugCommand; NewInviteCommand; NewIsOnCommand;
     NewKillCommand; NewListCommand; NewMOTDCommand;
     NewNamesCommand; NewNickCommand; NewNoticeCommand; NewOperCommand; NewPartCommand;
     NewPassCommand; NewPingCommand; NewPongCommand; NewPrivMsgCommand; NewProxyCommand;
     NewQuitCommand; NewTimeCommand; NewTopicCommand; NewVersionCommand;
     NewWhoCommand; NewWhoisCommand].
Proof. repeat (apply List.Forall_cons; [settle|]). apply List.Forall_nil. Qed.

Lemma NewKickCommand_settled args : settled (NewKickCommand args).
Proof.
  rewrite NewKickCommand_cases. destruct args as [|arg0 [|arg1 rest]];
    [right; eexists; reflexivity..|].
  cbn zeta. case_match; [right | left]; eexists; [|split]; reflexivity.
Qed.

Lemma NewUserCommand_settled args : settled (NewUserCommand args).
Proof.
  rewrite NewUserCommand_cases.
  destruct args as [|a0 [|a1 [|a2 [|a3 [|a4 rest]]]]]; try (right; eexists; reflexivity).
  case_match; left; eexists; split; reflexivity.
Qed.

Lemma NewModeCommand_settled args : settled (NewModeCommand args).
Proof.
  rewrite NewModeCommand_cases. destruct args as [|subject rest]; [right; eexists; reflexivity|].
  destruct (IsChannel subject).
  - destruct (NewChannelModeCommand_returns subject rest) as [changes ->].
    left; eexists; split; reflexivity.
  - case_match; [left | right]; eexists; [split|]; reflexivity.
Qed.

(** JOIN returns as the others do, or panics where it stores a key that has
    no channel. *)
Lemma NewJoinCommand_settled args :
  settled (NewJoinCommand args)
  \/ exists arg0 rest,
       args = arg0 :: rest /\ arg0 <> "0"%string
       /\ length (strings_Split arg0 comma) < length (join_keys rest)
       /\ NewJoinCommand args
          = Panicked (IndexOutOfRange (length (strings_Split arg0 comma))
                                      (length (strings_Split arg0 comma))).
Proof.
  rewrite NewJoinCommand_cases. destruct args as [|arg0 rest].
  { left; right; eexists; reflexivity. }
  destruct (String.eqb_spec arg0 "0") as [->|Hne].
  { left; left; eexists; split; reflexivity. }
  cbn zeta. destruct (Nat.leb_spec (length (join_keys rest)) (length (strings_Split arg0 comma))).
  - left; left; eexists; split; reflexivity.
  - right. exists arg0, rest. split_and!; done.
Qed.

(** The registry, entry by entry: JOIN, or a constructor that returns. *)
Lemma parseCommandFuncs_settled code constructor :
  parseCommandFuncs !! code = Some constructor ->
  (code = JOIN /\ constructor = NewJoinCommand) \/ forall args, settled (constructor args).
Proof.
  intros H. unfold parseCommandFuncs in H.
  apply elem_of_list_to_map_2 in H.
  pose proof settled_constructors as Hall.
  repeat (apply Forall_cons in Hall as [? Hall]).
  pose proof NewKickCommand_settled. pose proof NewUserCommand_settled.
  pose proof NewModeCommand_settled.
  repeat (apply elem_of_cons in H as [H|H]; [simplify_eq; (by right) || (left; by split)|]).
  by apply elem_of_nil in H.
Qed.

Lemma Base_with_base f cmd : Base (with_base f cmd) = f (Base cmd).
Proof. now destruct cmd. Qed.

Lemma NewJoinCommand_panics args p :
  NewJoinCommand args = Panicked p ->
  exists arg0 rest,
    args = arg0 :: rest /\ arg0 <> "0"%string
    /\ length (strings_Split arg0 comma) < length (join_keys rest).
Proof.
  intros Hp. destruct (NewJoinCommand_settled args) as [[(c & Hc & _)|(e & He)]|Hpanic].
  - rewrite Hc in Hp. discriminate.
  - rewrite He in Hp. discriminate.
  - destruct Hpanic as (arg0 & rest & ? & ? & ? & _). eauto.
Qed.

(** X5: what [ParseCommand] hands back when it returns is a command or an
    error, never both and never neither; the command carries the code of the
    line and no client yet. *)
Theorem ParseCommand_result (line : string) (cmd : option editableCommand)
    (err : option error) :
  ParseCommand line = Returned (cmd, err) ->
  (exists c, cmd = Some c /\ err = None
             /\ Code c = fst (ParseLine line) /\ Client c = None)
  \/ (cmd = None /\ exists e, err = Some e).
Proof.
  unfold ParseCommand. destruct (ParseLine line) as [code args]. cbn [fst].
  assert (Hset : forall r : outcome parsed,
            settled r ->
            ('(cmd, err) ← r;
             mret (match cmd with Some cmd => Some (SetCode cmd code) | None => None end, err))
            = Returned (cmd, err) ->
            (exists c, cmd = Some c /\ err = None /\ Code c = code /\ Client c = None)
            \/ (cmd = None /\ exists e, err = Some e)).
  { intros r [(c & -> & Hbase)|(e & ->)] Hr.
    - injection Hr as <- <-. left. eexists. split_and!; [reflexivity..| |].
      + unfold Code, SetCode. now rewrite Base_with_base.
      + unfold Client, SetCode. now rewrite Base_with_base, Hbase.
    - injection Hr as <- <-. right. eauto. }
  destruct (parseCommandFuncs !! code) as [constructor|] eqn:Hlook.
  - apply parseCommandFuncs_settled in Hlook as [[-> ->]|Hsettled].
    + destruct (NewJoinCommand_settled args) as [Hs|(? & ? & _ & _ & _ & ->)];
        [now apply Hset | discriminate].
    + apply Hset, Hsettled.
  - apply Hset. left. eexists. split; reflexivity.
Qed.

(** X6: the only panic of [ParseCommand] is that of JOIN: a line panics
    exactly when its code is JOIN, its first parameter is not [0] and its
    second parameter lists more keys than the first lists channels.  No
    other constructor of the registry indexes or slices out of range; the
    functions declared outside [commands.go] are taken to return. *)
Theorem ParseCommand_panics_iff (line : string) :
  (exists p, ParseCommand line = Panicked p)
  <-> fst (ParseLine line) = JOIN
      /\ exists arg0 rest,
           snd (ParseLine line) = arg0 :: rest /\ arg0 <> "0"%string
           /\ length (strings_Split arg0 comma) < length (join_keys rest).
Proof.
  unfold ParseCommand. destruct (ParseLine line) as [code args]. cbn [fst snd].
  assert (Hset : forall r : outcome parsed,
            settled r ->
            ~ exists p,
                ('(cmd, err) ← r;
                 mret (match cmd with Some cmd => Some (SetCode cmd code) | None => None end,
                       err))
                = Panicked p).
  { intros r [(c & -> & _)|(e & ->)] [p Hp]; discriminate. }
  split.
  - intros Hpanic.
    destruct (parseCommandFuncs !! code) as [constructor|] eqn:Hlook.
    + apply parseCommandFuncs_settled in Hlook as [[-> ->]|Hsettled].
      * split; [reflexivity|].
        destruct (NewJoinCommand_settled args) as [Hs|(arg0 & rest & ? & ? & ? & _)];
          [now apply Hset in Hs | eauto].
      * now apply Hset in Hpanic.
    + exfalso. revert Hpanic. apply Hset. left. eexists. split; reflexivity.
  - intros [-> (arg0 & rest & -> & Hne & Hlen)].
    replace (parseCommandFuncs !! JOIN) with (Some NewJoinCommand) by reflexivity.
    rewrite NewJoinCommand_cases.
    destruct (String.eqb_spec arg0 "0"); [contradiction|]. cbn zeta.
    destruct (Nat.leb_spec (length (join_keys rest)) (length (strings_Split arg0 comma)));
      [lia|]. eexists. reflexivity.
Qed.

End Dispatch.

(** [NICK alice] gives a command, [PRIVMSG #chan] an error. *)
Lemma ParseCommand_result_witness :
  ((exists c, Some (NickCommand {| client := None; code := NICK |} "alice") = Some c
              /\ @None error = None
              /\ Code c = fst (@ParseLine ascii_text "NICK alice") /\ Client c = None)
   \/ (Some (NickCommand {| client := None; code := NICK |} "alice") = None
       /\ exists e, @None error = Some e))
  /\ ((exists c, @None editableCommand = Some c /\ Some NotEnoughArgsError = None
                 /\ Code c = fst (@ParseLine ascii_text "PRIVMSG #chan") /\ Client c = None)
      \/ (@None editableCommand = None /\ exists e, Some NotEnoughArgsError = Some e)).
Proof.
  split.
  - apply (@ParseCommand_result rfc_declarations ascii_text "NICK alice"). reflexivity.
  - apply (@ParseCommand_result rfc_declarations ascii_text "PRIVMSG #chan"). reflexivity.
Defined.

(** ** The arguments the constructors read *)

Ltac reads_row :=
  intros args;
  destruct args as [|? [|? [|? [|? [|? [|? ?]]]]]];
  (split_and!;
   [ split; [ intros H; first [ cbn [length]; lia | discriminate H ]
            | intros H; first [ reflexivity | cbn [length] in H; lia ] ]
   | intros H; first [ eexists; reflexivity | cbn [length] in H; lia ]
   | reflexivity ]).

Section Arity.
Local Open Scope nat_scope.
Context `{D : Declarations} `{U : UnicodeText}.

(** X7: each constructor of the table fails, with the arity error, exactly
    when it is given fewer arguments than it requires, returns a command
    otherwise, and reads no argument beyond the number the table gives: the
    arguments after them do not change the result. *)
Theorem arity_table_reads : Forall reads arity_table.
Proof.
  unfold arity_table.
  repeat (apply List.Forall_cons; [unfold reads; reads_row|]). apply List.Forall_nil.
Qed.

(** X8: NICK and USER take an exact number of arguments, one and four: with
    more they fail as they do with fewer.  ISON takes any number but none,
    and keeps them all. *)
Theorem exact_arity (args : list string) :
  (NewNickCommand args = failed NotEnoughArgsError <-> length args <> 1)
  /\ (NewUserCommand args = failed NotEnoughArgsError <-> length args <> 4)
  /\ (NewIsOnCommand args = failed NotEnoughArgsError <-> args = [])
  /\ (args <> [] -> NewIsOnCommand args = ok (IsOnCommand base0 args)).
Proof.
  split_and!.
  - destruct args as [|? [|? ?]]; cbn [length]; split; intros H;
      first [reflexivity | discriminate H | lia].
  - rewrite NewUserCommand_cases.
    destruct args as [|? [|arg1 [|? [|? [|? ?]]]]]; cbn [length]; split; intros H;
      try first [reflexivity | discriminate H | lia].
    destruct (ParseUint8 arg1); discriminate H.
  - destruct args; split; intros H; first [reflexivity | discriminate H].
  - destruct args; [congruence | reflexivity].
Qed.

End Arity.

(** ** Comma lists *)

Lemma strings_Split_cons c s sep :
  Ascii.eqb c sep = false ->
  strings_Split (String c s) sep
  = String c (hd EmptyString (strings_Split s sep)) :: tl (strings_Split s sep).
Proof.
  intros Hc. cbn [strings_Split]. rewrite Hc.
  pose proof (strings_Split_length s sep) as Hlen.
  destruct (strings_Split s sep); [cbn in Hlen; lia | reflexivity].
Qed.

Lemma strings_Split_field field sep rest :
  no_byte sep field = true ->
  strings_Split (field +:+ String sep rest) sep = field :: strings_Split rest sep.
Proof.
  induction field as [|c field IH]; intros Hfield.
  - cbn [String.append strings_Split]. change (EmptyString +:+ String sep rest) with (String sep rest).
    cbn [strings_Split]. now rewrite Ascii.eqb_refl.
  - cbn [no_byte] in Hfield. apply andb_prop in Hfield as [Hc Hfield].
    apply negb_true_iff in Hc. rewrite append_cons, strings_Split_cons by exact Hc.
    now rewrite IH.
Qed.

Lemma strings_Split_single field sep :
  no_byte sep field = true -> strings_Split field sep = [field].
Proof.
  induction field as [|c field IH]; intros Hfield; [reflexivity|].
  cbn [no_byte] in Hfield. apply andb_prop in Hfield as [Hc Hfield].
  apply negb_true_iff in Hc. rewrite strings_Split_cons by exact Hc. now rewrite IH.
Qed.

(** Splitting what was joined gives the fields back. *)
Lemma strings_Split_join sep fields :
  fields <> [] -> Forall (fun field => no_byte sep field = true) fields ->
  strings_Split (join_with sep fields) sep = fields.
Proof.
  induction fields as [|field fields IH]; intros Hne Hall; [congruence|].
  apply Forall_cons in Hall as [Hfield Hall].
  destruct fields as [|field' fields].
  - now apply strings_Split_single.
  - change (join_with sep (field :: field' :: fields))
      with (field +:+ String sep (join_with sep (field' :: fields))).
    rewrite strings_Split_field by exact Hfield.
    now rewrite IH.
Qed.

(** Joining what was split gives the text back, and no field holds the
    separator. *)
Lemma join_strings_Split sep s :
  join_with sep (strings_Split s sep) = s
  /\ Forall (fun field => no_byte sep field = true) (strings_Split s sep).
Proof.
  induction s as [|c s [IHjoin IHall]]; [split; [reflexivity | repeat constructor]|].
  pose proof (strings_Split_length s sep) as Hlen.
  destruct (Ascii.eqb c sep) eqn:Hc.
  - cbn [strings_Split]. rewrite Hc. apply Ascii.eqb_eq in Hc as ->. split.
    + destruct (strings_Split s sep) as [|f fs] eqn:Hs; [cbn in Hlen; lia|].
      change (join_with sep (EmptyString :: f :: fs))
        with (EmptyString +:+ String sep (join_with sep (f :: fs))).
      now rewrite IHjoin.
    + constructor; [reflexivity | exact IHall].
  - rewrite strings_Split_cons by exact Hc.
    destruct (strings_Split s sep) as [|f fs] eqn:Hs; [cbn in Hlen; lia|].
    cbn [hd tl]. apply Forall_cons in IHall as [Hf Hfs]. split.
    + rewrite <- IHjoin. destruct fs; reflexivity.
    + constructor; [|exact Hfs]. cbn [no_byte]. now rewrite Hc, Hf.
Qed.

Section CommaLists.
Context `{D : Declarations} `{U : UnicodeText}.

(** X9: the channel lists of PART, LIST and NAMES and the mask list of WHOIS
    are the comma-separated fields of their argument, all of them: a list of
    comma-free names, joined by commas, comes back as it was, empty names
    included; and the list a constructor holds is never empty when the
    argument is given, holds no comma, and joins back to the argument. *)
Theorem comma_lists (fields : list string) (arg : string) :
  (fields <> [] -> Forall (fun field => no_byte comma field = true) fields ->
     NewPartCommand [join_with comma fields] = ok (PartCommand base0 fields EmptyString)
     /\ NewListCommand [join_with comma fields] = ok (ListCommand base0 fields EmptyString)
     /\ NewNamesCommand [join_with comma fields] = ok (NamesCommand base0 fields EmptyString)
     /\ NewWhoisCommand [join_with comma fields] = ok (WhoisCommand base0 EmptyString fields))
  /\ (exists channels,
        NewPartCommand [arg] = ok (PartCommand base0 channels EmptyString)
        /\ NewListCommand [arg] = ok (ListCommand base0 channels EmptyString)
        /\ NewNamesCommand [arg] = ok (NamesCommand base0 channels EmptyString)
        /\ NewWhoisCommand [arg] = ok (WhoisCommand base0 EmptyString channels)
        /\ channels <> []
        /\ Forall (fun field => no_byte comma field = true) channels
        /\ join_with comma channels = arg).
Proof.
  split.
  - intros Hne Hall.
    unfold NewPartCommand, NewListCommand, NewNamesCommand, NewWhoisCommand, optional_list,
      optional.
    cbn [length Nat.ltb Nat.leb index lookup list_lookup mbind outcome_bind mret outcome_ret].
    now rewrite strings_Split_join.
  - exists (strings_Split arg comma).
    destruct (join_strings_Split comma arg) as [Hjoin Hall].
    pose proof (strings_Split_length arg comma) as Hlen.
    split_and!; try reflexivity; try assumption.
    intros Hnil. rewrite Hnil in Hlen. cbn in Hlen. lia.
Qed.

End CommaLists.

(** ** The capabilities of CAP *)

Lemma spacesExpr_Split_go_pieces fuel :
  forall s n,
    n < 0 -> (String.length s <= fuel)%nat ->
    Forall (fun piece => no_space piece = true) (spacesExpr_Split_go fuel s n).
Proof.
  induction fuel as [|fuel IH]; intros s n Hn Hfuel.
  - destruct s; [|cbn in Hfuel; lia]. repeat constructor.
  - cbn [spacesExpr_Split_go]. destruct (Z.eqb_spec n 1); [lia|].
    destruct (spaces_match s) as [[before after]|] eqn:Hm.
    + destruct (spaces_match_Some _ _ _ Hm) as (Hb & _ & Hlen & _).
      constructor; [exact Hb|]. apply IH; lia.
    + constructor; [now apply spaces_match_None | constructor].
Qed.

Lemma join_with_start toks :
  Forall token toks -> starts_with_space (join_with space toks) = false.
Proof.
  intros Htoks. destruct toks as [|tok toks]; [reflexivity|].
  apply Forall_cons in Htoks as [Htok _].
  destruct toks; cbn [join_with]; [|rewrite append_start by apply Htok];
    now apply token_start.
Qed.

Lemma spacesExpr_Split_go_join toks :
  forall fuel n,
    n < 0 -> toks <> [] -> Forall token toks ->
    (String.length (join_with space toks) <= fuel)%nat ->
    spacesExpr_Split_go fuel (join_with space toks) n = toks.
Proof.
  induction toks as [|tok toks IH]; intros fuel n Hn Hne Htoks Hfuel; [congruence|].
  apply Forall_cons in Htoks as [[Hsp Htok] Htoks].
  destruct fuel as [|fuel].
  { exfalso. destruct tok as [|c tok]; [congruence|].
    destruct toks as [|tok' toks];
      [|change (join_with space (String c tok :: tok' :: toks))
          with (String c (tok +:+ String space (join_with space (tok' :: toks))))
          in Hfuel];
      cbn [join_with String.length] in Hfuel; lia. }
  cbn [spacesExpr_Split_go]. destruct (Z.eqb_spec n 1); [lia|].
  destruct toks as [|tok' toks].
  - cbn [join_with]. now rewrite spaces_match_no_space.
  - change (join_with space (tok :: tok' :: toks))
      with (tok +:+ String space (join_with space (tok' :: toks))) in *.
    rewrite spaces_match_word by exact Hsp.
    rewrite trim_spaces_id by now apply join_with_start.
    rewrite IH; [reflexivity | lia | discriminate | exact Htoks |].
    rewrite append_length in Hfuel. cbn [String.length] in Hfuel. lia.
Qed.

Lemma foldl_insert_true (pieces : list string) :
  forall (m : gmap string bool) c,
    foldl (fun m str => <[str := true]> m) m pieces !! c
    = if decide (c ∈ pieces) then Some true else m !! c.
Proof.
  induction pieces as [|piece pieces IH]; intros m c; cbn [foldl].
  - destruct (decide (c ∈ [])) as [Hin|]; [by apply elem_of_nil in Hin | reflexivity].
  - rewrite IH. destruct (decide (c ∈ pieces)) as [Hin|Hout].
    + rewrite decide_True by (right; exact Hin). reflexivity.
    + destruct (decide (c = piece)) as [->|Hne].
      * rewrite decide_True by left. apply lookup_insert_eq.
      * rewrite decide_False by (intros Hin; apply elem_of_cons in Hin as [?|?]; done).
        now apply lookup_insert_ne.
Qed.

Section Cap.
Context `{D : Declarations} `{U : UnicodeText}.

(** X10: CAP upper-cases its sub-command and holds as capabilities, each with
    the value true, exactly the pieces that the runs of spaces cut out of
    its second argument, and nothing else; no capability has a space in it.
    With a second argument there is always a piece (of the empty text, the
    empty capability), and the tokens of a single-spaced list are the
    capabilities. *)
Theorem cap_capabilities (sub : string) (rest : list string) :
  exists capabilities,
    NewCapCommand (sub :: rest) = ok (CapCommand base0 (ToUpper sub) capabilities)
    /\ (forall c, capabilities !! c = if decide (c ∈ cap_pieces rest) then Some true else None)
    /\ Forall (fun piece => no_space piece = true) (cap_pieces rest)
    /\ (rest <> [] -> cap_pieces rest <> [])
    /\ (forall toks later,
          toks <> [] -> Forall token toks -> rest = join_with space toks :: later ->
          cap_pieces rest = toks).
Proof.
  exists (foldl (fun (m : gmap Capability bool) str => <[str := true]> m) ∅ (cap_pieces rest)).
  split_and!.
  - destruct rest; reflexivity.
  - intros c. now rewrite foldl_insert_true, lookup_empty.
  - destruct rest as [|arg1 rest]; [constructor|].
    cbn [cap_pieces]. unfold spacesExpr_Split. cbn [Z.eqb].
    apply spacesExpr_Split_go_pieces; lia.
  - destruct rest as [|arg1 rest]; [congruence|]. intros _.
    cbn [cap_pieces]. unfold spacesExpr_Split. cbn [Z.eqb].
    destruct (String.length arg1); cbn [spacesExpr_Split_go Z.eqb]; [discriminate|].
    now destruct (spaces_match arg1) as [[? ?]|].
  - intros toks later Hne Htoks ->. cbn [cap_pieces]. unfold spacesExpr_Split. cbn [Z.eqb].
    apply spacesExpr_Split_go_join; (lia || assumption).
Qed.

End Cap.

(** ** The mode field of USER *)

Lemma decimal_from_ge s : forall n, 0 <= n -> all_digits s = true -> n <= decimal_from n s.
Proof.
  induction s as [|c s IH]; intros n Hn Hs; [cbn; lia|].
  cbn [all_digits] in Hs. apply andb_prop in Hs as [Hc Hs]. apply andb_prop in Hc as [Hlo Hhi].
  apply Z.leb_le in Hlo, Hhi.
  cbn [decimal_from]. specialize (IH (n * 10 + (byte_val c - 48)) ltac:(lia) Hs). lia.
Qed.

Lemma ParseUint8_digits_decimal s :
  forall n,
    0 <= n <= 255 ->
    ParseUint8_digits s n
    = if all_digits s && (decimal_from n s <=? 255) then Some (decimal_from n s) else None.
Proof.
  induction s as [|c s IH]; intros n Hn.
  - cbn [ParseUint8_digits all_digits decimal_from andb].
    destruct (Z.leb_spec n 255); [reflexivity | lia].
  - cbn [ParseUint8_digits all_digits decimal_from]. unfold digit_val.
    destruct ((48 <=? byte_val c) && (byte_val c <=? 57)) eqn:Hc; [|reflexivity].
    apply andb_prop in Hc as [Hlo Hhi]. apply Z.leb_le in Hlo, Hhi.
    cbn [andb]. destruct (Z.ltb_spec 255 (n * 10 + (byte_val c - 48))) as [Hover|Hfits].
    + destruct (all_digits s) eqn:Hs; [|reflexivity]. cbn [andb].
      pose proof (decimal_from_ge s (n * 10 + (byte_val c - 48)) ltac:(lia) Hs) as Hge.
      destruct (Z.leb_spec (decimal_from (n * 10 + (byte_val c - 48)) s) 255); [lia | reflexivity].
    + apply IH. lia.
Qed.

Lemma ParseUint8_decimal s :
  ParseUint8 s = if numeric_mode s then Some (decimal s) else None.
Proof.
  unfold numeric_mode, decimal. destruct s as [|c s]; [reflexivity|].
  cbn [ParseUint8 String.eqb negb andb]. now rewrite ParseUint8_digits_decimal by lia.
Qed.

(** X11: USER takes the RFC 2812 form exactly when its second argument is a
    text of decimal digits, not empty, that writes a number up to 255
    (leading zeros allowed), and the mode is that number; any other second
    argument, a number above 255 included, is the host name of the RFC 1459
    form. *)
Theorem user_numeric_mode `{D : Declarations} (username arg1 arg2 realname : string) :
  NewUserCommand [username; arg1; arg2; realname]
  = if numeric_mode arg1
    then ok (RFC2812UserCommand base0 username realname (decimal arg1) arg2)
    else ok (RFC1459UserCommand base0 username realname arg1 arg2).
Proof.
  rewrite NewUserCommand_cases, ParseUint8_decimal. now destruct (numeric_mode arg1).
Qed.

(** ** The maps of JOIN and KICK *)

Section Maps.
Local Open Scope nat_scope.

Lemma pair_up_snoc (m : gmap string string) pairs p :
  pair_up m (pairs ++ [p]) = <[p.1 := p.2]> (pair_up m pairs).
Proof. unfold pair_up. now rewrite foldl_snoc. Qed.

Lemma pair_up_other (pairs : list (string * string)) :
  forall (m : gmap string string) c,
    Forall (fun p => p.1 <> c) pairs -> pair_up m pairs !! c = m !! c.
Proof.
  induction pairs as [|p pairs IH]; intros m c Hall; [reflexivity|].
  apply Forall_cons in Hall as [Hp Hall]. unfold pair_up in *. cbn [foldl].
  rewrite IH by exact Hall. now apply lookup_insert_ne.
Qed.

Lemma pair_up_domain (pairs : list (string * string)) c :
  is_Some (pair_up ∅ pairs !! c) <-> c ∈ pairs.*1.
Proof.
  induction pairs as [|p pairs IH] using rev_ind.
  - cbn. rewrite lookup_empty. split; [intros [? ?]; discriminate | intros H; by apply elem_of_nil in H].
  - rewrite pair_up_snoc, fmap_app, elem_of_app. cbn [fmap list_fmap].
    destruct (decide (p.1 = c)) as [<-|Hne].
    + rewrite lookup_insert_eq. split; [intros _; right; left | eauto].
    + rewrite lookup_insert_ne by exact Hne. rewrite IH. split; [tauto|].
      intros [?|Hin]; [assumption|]. apply list_elem_of_singleton in Hin. congruence.
Qed.

(** The value under a key is the one paired with its last occurrence. *)
Lemma pair_up_last (channels vals : list string) i c :
  length channels <= length vals -> last_at channels c i ->
  pair_up ∅ (zip channels vals) !! c = vals !! i.
Proof.
  intros Hlen [Hi Hlast].
  assert (Hlt : i < length channels) by (eapply lookup_lt_Some; eauto).
  destruct (lookup_lt_is_Some_2 vals i) as [v Hv]; [lia|].
  rewrite <- (take_drop_middle channels i c Hi), <- (take_drop_middle vals i v Hv).
  rewrite zip_with_app by (rewrite !length_take; lia).
  cbn [zip_with]. unfold pair_up. rewrite foldl_app. cbn [foldl].
  fold (pair_up (<[c := v]> (foldl (fun m p => <[p.1 := p.2]> m) ∅
                               (zip (take i channels) (take i vals))))
                (zip (drop (S i) channels) (drop (S i) vals))).
  rewrite pair_up_other.
  - rewrite lookup_insert_eq. rewrite (take_drop_middle vals i v Hv). now rewrite Hv.
  - apply Forall_forall. intros [c' v'] Hin Heq. cbn in Heq. subst c'.
    apply list_elem_of_lookup in Hin as [j Hj].
    apply lookup_zip_with_Some in Hj as (c' & v'' & [= <- <-] & Hc & _).
    rewrite lookup_drop in Hc. apply (Hlast (S i + j)); [lia | exact Hc].
Qed.

Lemma zip_fst_domain (channels vals : list string) c :
  length channels <= length vals -> c ∈ (zip channels vals).*1 <-> c ∈ channels.
Proof. intros Hlen. now rewrite fst_zip. Qed.

Lemma kick_users_length channels users :
  length users = 1 \/ length users = length channels ->
  length channels <= length (kick_users channels users).
Proof.
  intros [H|H].
  - destruct users as [|u [|? ?]]; try discriminate. cbn. now rewrite length_replicate.
  - destruct users as [|u [|? ?]]; cbn in *; try lia.
    rewrite length_replicate. lia.
Qed.

(** X12: the map of KICK has the channels named as its keys, and a channel
    named more than once keeps the user of its last occurrence. *)
Theorem kick_last_wins (arg0 arg1 : string) (rest : list string) :
  let channels := strings_Split arg0 comma in
  let users := strings_Split arg1 comma in
  length users = 1 \/ length users = length channels ->
  exists kicks,
    NewKickCommand (arg0 :: arg1 :: rest) = ok (KickCommand base0 kicks (hd EmptyString rest))
    /\ (forall c, is_Some (kicks !! c) <-> c ∈ channels)
    /\ (forall c i, last_at channels c i -> kicks !! c = kick_users channels users !! i).
Proof.
  intros channels users Hlen.
  pose proof (kick_users_length channels users Hlen) as Hfit.
  exists (pair_up ∅ (zip channels (kick_users channels users))). split_and!.
  - rewrite NewKickCommand_cases. cbn zeta. fold channels users.
    destruct (Nat.eqb_spec (length channels) (length users)),
             (Nat.eqb_spec (length users) 1); cbn [negb andb]; try reflexivity.
    lia.
  - intros c. now rewrite pair_up_domain, zip_fst_domain.
  - intros c i. now apply pair_up_last.
Qed.

(** [KICK #a,#b,#a x,y,z]: the channel [#a] keeps [z]. *)
Lemma kick_last_wins_witness :
  exists kicks,
    NewKickCommand ["#a,#b,#a"; "x,y,z"]%string = ok (KickCommand base0 kicks EmptyString)
    /\ (forall c, is_Some (kicks !! c) <-> c ∈ ["#a"; "#b"; "#a"]%string)
    /\ (forall c i, last_at ["#a"; "#b"; "#a"]%string c i ->
                    kicks !! c = ["x"; "y"; "z"]%string !! i).
Proof.
  apply (kick_last_wins "#a,#b,#a" "x,y,z" []). right. reflexivity.
Defined.

(** X13: the map of JOIN has the channels named as its keys, and a channel
    named more than once keeps the key at its last occurrence, the empty key
    when the keys end before it. *)
Theorem join_last_wins (arg0 : string) (rest : list string) :
  let channels := strings_Split arg0 comma in
  let keys := join_keys rest in
  arg0 <> "0"%string -> length keys <= length channels ->
  exists joined,
    NewJoinCommand (arg0 :: rest) = ok (JoinCommand base0 joined false)
    /\ (forall c, is_Some (joined !! c) <-> c ∈ channels)
    /\ (forall c i, last_at channels c i ->
                    joined !! c = Some (default EmptyString (keys !! i))).
Proof.
  intros channels keys Hne Hlen.
  set (padded := keys ++ replicate (length channels - length keys) EmptyString).
  assert (Hfit : length channels <= length padded).
  { subst padded. rewrite length_app, length_replicate. lia. }
  exists (pair_up ∅ (zip channels padded)). split_and!.
  - rewrite NewJoinCommand_cases. cbn zeta. fold channels keys.
    destruct (String.eqb_spec arg0 "0"); [contradiction|].
    destruct (Nat.leb_spec (length keys) (length channels)); [reflexivity | lia].
  - intros c. now rewrite pair_up_domain, zip_fst_domain.
  - intros c i Hlast. rewrite (pair_up_last channels padded i c Hfit Hlast).
    destruct Hlast as [Hi _]. apply lookup_lt_Some in Hi. subst padded.
    destruct (keys !! i) as [k|] eqn:Hk; cbn [default].
    + now apply lookup_app_l_Some.
    + apply lookup_ge_None in Hk. rewrite lookup_app_r by exact Hk.
      apply lookup_replicate_2. lia.
Qed.

(** [JOIN #a,#b,#a k1,k2]: the channel [#a] ends with the empty key. *)
Lemma join_last_wins_witness :
  exists joined,
    NewJoinCommand ["#a,#b,#a"; "k1,k2"]%string = ok (JoinCommand base0 joined false)
    /\ (forall c, is_Some (joined !! c) <-> c ∈ ["#a"; "#b"; "#a"]%string)
    /\ (forall c i, last_at ["#a"; "#b"; "#a"]%string c i ->
                    joined !! c = Some (default EmptyString (["k1"; "k2"]%string !! i))).
Proof.
  apply (join_last_wins "#a,#b,#a" ["k1,k2"]%string); [discriminate | cbn; lia].
Defined.

End Maps.

(** ** User modes over several arguments *)

Lemma range_runes_ascii_cons c s :
  is_ascii (String c s) = true -> range_runes (String c s) = byte_val c :: range_runes s.
Proof.
  intros Hs. unfold range_runes. rewrite range_runes_from_ascii by exact Hs.
  cbn [is_ascii] in Hs. apply andb_prop in Hs as [_ Hs].
  now rewrite (range_runes_from_ascii s Hs).
Qed.

Lemma byte_val_inj b1 b2 : byte_val b1 = byte_val b2 -> b1 = b2.
Proof. intros H. now rewrite <- (byte_of_val b1), <- (byte_of_val b2), H. Qed.

(** X14: MODE for a nickname gives every letter of a signed argument the sign
    of that argument, so the changes of two arguments are those of the first
    followed by those of the second.  Rendered, two arguments of one sign run
    together under one sign; at a change of sign the rendering writes a
    space and the new sign but not the letter that brought it, so the first
    letter of the second argument is missing from the text. *)
Theorem user_mode_two_arguments (nickname : string) (b1 b2 m : ascii) (l1 l2 : string) :
  signed b1 = true -> signed b2 = true ->
  is_ascii l1 = true -> l1 <> EmptyString -> is_ascii (String m l2) = true ->
  NewUserModeCommand [nickname; String b1 l1; String b2 (String m l2)]
  = ok (ModeCommand base0 nickname
          (sign_changes (String b1 l1) ++ sign_changes (String b2 (String m l2))))
  /\ Forall (fun c => uop c = byte_val b1) (sign_changes (String b1 l1))
  /\ Forall (fun c => uop c = byte_val b2) (sign_changes (String b2 (String m l2)))
  /\ ModeChanges_String
       (sign_changes (String b1 l1) ++ sign_changes (String b2 (String m l2)))
     = Returned (if Ascii.eqb b1 b2
                 then String b1 (l1 +:+ String m l2)
                 else String b1 l1 +:+ " " +:+ String b2 l2).
Proof.
  intros Hb1 Hb2 Hl1 Hne Hl2. split_and!.
  - rewrite NewUserModeCommand_cases. cbn [forallb mode_arg_ok]. rewrite Hb1, Hb2.
    cbn [andb map List.concat]. now rewrite app_nil_r.
  - cbn [sign_changes]. apply Forall_forall. intros c Hin.
    apply list_elem_of_fmap in Hin as (mode & -> & _). reflexivity.
  - cbn [sign_changes]. apply Forall_forall. intros c Hin.
    apply list_elem_of_fmap in Hin as (mode & -> & _). reflexivity.
  - cbn [sign_changes].
    destruct l1 as [|c1 l1]; [congruence|].
    rewrite (range_runes_ascii_cons c1 l1 Hl1), (range_runes_ascii_cons m l2 Hl2).
    unfold ModeChanges_String.
    cbn [map app length Nat.eqb index lookup list_lookup mbind outcome_bind mret outcome_ret
         uop umode].
    change (ModeChange.Build_t (byte_val c1) (byte_val b1)
            :: map (fun mode => ModeChange.Build_t mode (byte_val b1)) (range_runes l1)
            ++ ModeChange.Build_t (byte_val m) (byte_val b2)
            :: map (fun mode => ModeChange.Build_t mode (byte_val b2)) (range_runes l2))
      with (map (fun mode => ModeChange.Build_t mode (byte_val b1))
                (byte_val c1 :: range_runes l1)
            ++ ModeChange.Build_t (byte_val m) (byte_val b2)
            :: map (fun mode => ModeChange.Build_t mode (byte_val b2)) (range_runes l2)).
    rewrite foldl_app, render_run. cbn [foldl uop umode].
    rewrite <- (range_runes_ascii_cons c1 l1 Hl1), (join_runes_ascii _ Hl1).
    assert (Hsym1 : ModeOp_String (byte_val b1) = String b1 EmptyString)
      by (apply string_of_rune_ascii; now apply signed_ascii).
    assert (Hsym2 : ModeOp_String (byte_val b2) = String b2 EmptyString)
      by (apply string_of_rune_ascii; now apply signed_ascii).
    assert (Hl2' : is_ascii l2 = true)
      by (cbn [is_ascii] in Hl2; now apply andb_prop in Hl2 as [_ ?]).
    assert (Hm : UserMode_String (byte_val m) = String m EmptyString).
    { apply string_of_rune_ascii. cbn [is_ascii] in Hl2. now apply andb_prop in Hl2 as [? _]. }
    destruct (Ascii.eqb_spec b1 b2) as [<-|Hdiff].
    + rewrite Z.eqb_refl, render_run, (join_runes_ascii _ Hl2'), Hsym1, Hm. f_equal.
      rewrite !append_assoc. reflexivity.
    + destruct (Z.eqb_spec (byte_val b2) (byte_val b1)) as [Heq|_].
      { exfalso. apply Hdiff. symmetry. now apply byte_val_inj. }
      rewrite render_run, (join_runes_ascii _ Hl2'), Hsym1, Hsym2. f_equal.
      rewrite !append_assoc. reflexivity.
Qed.

(** The arguments [+iw -o]: rendered, the [o] is missing. *)
Lemma user_mode_two_arguments_witness :
  NewUserModeCommand ["nick"; "+iw"; "-o"]%string
  = ok (ModeCommand base0 "nick" (sign_changes "+iw" ++ sign_changes "-o"))
  /\ Forall (fun c => uop c = byte_val "+") (sign_changes "+iw")
  /\ Forall (fun c => uop c = byte_val "-") (sign_changes "-o")
  /\ ModeChanges_String (sign_changes "+iw" ++ sign_changes "-o") = Returned "+iw -"%string.
Proof.
  apply (user_mode_two_arguments "nick" "+" "-" "o" "iw" EmptyString);
    first [reflexivity | discriminate].
Defined.

(** ** Channel modes and their arguments *)

Lemma filter_sublist {A : Type} (f : A -> bool) (l : list A) : sublist (List.filter f l) l.
Proof.
  induction l as [|x l IH]; [constructor|].
  cbn [List.filter]. destruct (f x); now constructor.
Qed.

Lemma filter_replicate_empty n : List.filter non_empty (replicate n EmptyString) = [].
Proof. induction n as [|n IH]; [reflexivity | exact IH]. Qed.

Section ChannelArguments.
Local Open Scope nat_scope.
Context `{D : Declarations}.

(** The arguments that a list of changes holds are held by its
    argument-taking changes, when the others hold none. *)
Lemma claimed_with_arg (added : ChannelModeChanges) :
  Forall (fun c => carg c = EmptyString) (List.filter (fun c => negb (with_arg c)) added) ->
  claimed added = List.filter non_empty (map carg (List.filter with_arg added)).
Proof.
  unfold claimed. induction added as [|c added IH]; intros Hnone; [reflexivity|].
  cbn [List.filter map] in *. destruct (with_arg c) eqn:Hc; cbn [negb] in Hnone.
  - cbn [map List.filter]. now rewrite IH.
  - apply Forall_cons in Hnone as [Hempty Hnone]. rewrite Hempty. cbn [non_empty String.eqb negb].
    now apply IH.
Qed.

Lemma token_op_cases b : token_op b = Add \/ token_op b = Remove \/ token_op b = List.
Proof.
  unfold token_op, signed. destruct (Z.eqb_spec (byte_val b) Add) as [->|_]; [now left|].
  destruct (Z.eqb_spec (byte_val b) Remove) as [->|_]; [right; now left|].
  right; right; reflexivity.
Qed.

(** What the outer loop adds: changes under the three operations, arguments
    only at the modes that take one, and the arguments that are not empty
    taken from those after the first, in order and each once. *)
Lemma channelModeLoop_claims fuel :
  forall args changes, exists added,
    channelModeLoop fuel args changes = Returned (changes ++ added)
    /\ Forall (fun c => cop c = Add \/ cop c = Remove \/ cop c = List) added
    /\ Forall (fun c => carg c <> EmptyString -> with_arg c = true) added
    /\ sublist (claimed added) (tl args).
Proof.
  induction fuel as [|fuel IH]; intros args changes.
  { exists []. cbn. rewrite app_nil_r. split_and!; [reflexivity | constructor.. | apply sublist_nil_l]. }
  destruct args as [|[|b t] rest].
  - exists []. cbn. rewrite app_nil_r. split_and!; [reflexivity | constructor.. ].
  - rewrite channelModeLoop_empty_arg.
    destruct (IH rest changes) as (added & Hrun & Hops & Hargs & Hsub).
    exists added. split_and!; try assumption. cbn [tl].
    etrans; [exact Hsub|]. destruct rest; [constructor | now apply sublist_cons].
  - rewrite channelModeLoop_token.
    destruct (channelModeLetters_returns (String b t :: rest) (token_op b)
                (range_runes (token_letters b t)) changes 1)
      as (added & Hrun & _ & Hop & Hclaim & Hnone); [cbn; lia|].
    rewrite Hrun. cbn [mbind outcome_bind].
    rewrite slice_from_le by lia. cbn [mbind outcome_bind].
    set (n := length (List.filter takes_arg (range_runes (token_letters b t)))) in *.
    destruct (IH (drop (Nat.min (length (String b t :: rest)) (1 + n)) (String b t :: rest))
                 (changes ++ added)) as (later & Hlater & Hops & Hargs & Hsub).
    rewrite Hlater. exists (added ++ later). split_and!.
    + now rewrite app_assoc.
    + apply Forall_app. split; [|exact Hops].
      eapply Forall_impl; [exact Hop|]. intros c ->. apply token_op_cases.
    + apply Forall_app. split; [|exact Hargs].
      apply Forall_forall. intros c Hin Harg.
      destruct (with_arg c) eqn:Hc; [reflexivity|]. exfalso. apply Harg.
      rewrite List.Forall_forall in Hnone. apply Hnone.
      apply filter_In. split; [now apply list_elem_of_In | now rewrite Hc].
    + unfold claimed in *. rewrite map_app, List.filter_app.
      fold (claimed added). rewrite (claimed_with_arg added Hnone), Hclaim.
      rewrite List.filter_app, filter_replicate_empty, app_nil_r.
      cbn [tl drop]. rewrite drop_0.
      rewrite <- (take_drop n rest) at 2.
      apply sublist_app; [apply filter_sublist|].
      cbn [length] in Hsub.
      destruct (Nat.le_gt_cases (1 + n) (S (length rest))) as [Hle|Hgt].
      * rewrite Nat.min_r in Hsub by exact Hle. cbn [Nat.add drop] in Hsub.
        etrans; [exact Hsub|].
        destruct (drop n rest); [constructor | now apply sublist_cons].
      * rewrite Nat.min_l in Hsub by lia. cbn [drop] in Hsub. rewrite drop_all in Hsub.
        etrans; [exact Hsub|]. apply sublist_nil_l.
Qed.

(** X15: MODE for a channel returns for every argument list.  Every change is
    under add, remove or list; a change holds an argument only if its mode
    is one that takes an argument; and the arguments held, the empty ones
    apart, are arguments of the command after the first mode argument, in
    their order and each used once at most. *)
Theorem channel_mode_claims (channel : string) (rest : list string) :
  exists changes,
    NewChannelModeCommand (channel :: rest) = ok (ChannelModeCommand base0 channel changes)
    /\ Forall (fun c => cop c = Add \/ cop c = Remove \/ cop c = List) changes
    /\ Forall (fun c => carg c <> EmptyString -> with_arg c = true) changes
    /\ sublist (claimed changes) (tl rest).
Proof.
  unfold NewChannelModeCommand.
  cbn [index lookup list_lookup mbind outcome_bind slice_from length Nat.leb drop].
  rewrite drop_0.
  destruct (channelModeLoop_claims (length rest) rest []) as (added & Hrun & Hops & Hargs & Hsub).
  rewrite Hrun. exists added. split_and!; (reflexivity || assumption).
Qed.

End ChannelArguments.

(** ** Channel modes, parsed and rendered *)

Lemma render_modes (changes : ChannelModeChanges) :
  forall str,
    foldl (fun str change => str +:+ ChannelMode_String (cmode change)) str changes
    = str +:+ join (map ChannelMode_String (map cmode changes)).
Proof.
  induction changes as [|c changes IH]; intros str; cbn [foldl map join fold_right].
  - now rewrite append_empty_r.
  - rewrite IH. now rewrite append_assoc.
Qed.

Lemma render_args (changes : ChannelModeChanges) :
  forall str,
    foldl (fun str change =>
             if String.eqb (carg change) EmptyString then str
             else str +:+ " " +:+ carg change)
          str changes
    = str +:+ spaced (claimed changes).
Proof.
  unfold spaced, claimed.
  induction changes as [|c changes IH]; intros str; cbn [foldl map List.filter].
  - cbn. now rewrite append_empty_r.
  - rewrite IH. unfold non_empty at 2. destruct (String.eqb (carg c) EmptyString); cbn [negb].
    + reflexivity.
    + cbn [map join fold_right]. now rewrite !append_assoc.
Qed.

Lemma filter_non_empty args :
  Forall (fun a => a <> EmptyString) args -> List.filter non_empty args = args.
Proof.
  induction args as [|a args IH]; intros Hall; [reflexivity|].
  apply Forall_cons in Hall as [Ha Hall]. cbn [List.filter]. unfold non_empty at 1.
  destruct (String.eqb_spec a EmptyString); [contradiction|]. cbn [negb]. now rewrite IH.
Qed.

Lemma signed_symbol b :
  signed b = true ->
  (if byte_val b =? Remove then "-"%string else "+"%string) = String b EmptyString.
Proof.
  unfold signed. intros H. apply orb_prop in H as [H|H]; apply Z.eqb_eq in H.
  - assert (b = "+"%char) as -> by (apply byte_val_inj; exact H). reflexivity.
  - assert (b = "-"%char) as -> by (apply byte_val_inj; exact H). reflexivity.
Qed.

Section ChannelRoundTrip.
Local Open Scope nat_scope.
Context `{D : Declarations}.

(** X16: one signed mode argument of ASCII letters, followed by exactly one
    argument, not empty, for each of its letters that takes one, parses to
    one change per letter and renders back to the text it came from: the
    mode argument, then each argument after a space. *)
Theorem channel_mode_round_trip (channel : string) (b : ascii) (letters : string)
    (args : list string) :
  signed b = true -> is_ascii letters = true -> letters <> EmptyString ->
  length args = length (List.filter takes_arg (range_runes letters)) ->
  Forall (fun a => a <> EmptyString) args ->
  exists changes,
    NewChannelModeCommand (channel :: String b letters :: args)
    = ok (ChannelModeCommand base0 channel changes)
    /\ map cmode changes = range_runes letters
    /\ Forall (fun c => cop c = byte_val b) changes
    /\ claimed changes = args
    /\ ChannelModeChanges_String changes = Returned (String b letters +:+ spaced args).
Proof.
  intros Hb Hascii Hne Hlen Hargs.
  unfold NewChannelModeCommand.
  cbn [index lookup list_lookup mbind outcome_bind slice_from length Nat.leb drop].
  rewrite channelModeLoop_token.
  assert (Hop : token_op b = byte_val b) by (unfold token_op; now rewrite Hb).
  assert (Hletters : token_letters b letters = letters)
    by (unfold token_letters; now rewrite Hb).
  rewrite Hop, Hletters.
  destruct (channelModeLetters_returns (String b letters :: args) (byte_val b)
              (range_runes letters) [] 1)
    as (added & Hrun & Hmodes & Hops & Hclaim & Hnone); [cbn; lia|].
  rewrite Hrun. cbn [mbind outcome_bind app]. rewrite <- Hlen in *.
  rewrite slice_from_le by lia. cbn [mbind outcome_bind length].
  rewrite Nat.min_r by lia. cbn [Nat.add drop]. rewrite drop_all.
  replace (channelModeLoop (length args) [] added) with (Returned added)
    by now destruct (length args).
  cbn [mbind outcome_bind].
  assert (Hclaimed : claimed added = args).
  { rewrite (claimed_with_arg added Hnone), Hclaim. cbn [length drop]. rewrite drop_0.
    rewrite firstn_all.
    replace (length args - (S (length args) - 1)) with 0 by lia.
    cbn [replicate]. rewrite app_nil_r.
    now apply filter_non_empty. }
  exists added. split_and!; try (reflexivity || assumption).
  destruct letters as [|c letters]; [congruence|].
  rewrite (range_runes_ascii_cons c letters Hascii) in Hmodes.
  destruct added as [|first added]; [discriminate|].
  unfold ChannelModeChanges_String.
  cbn [length Nat.eqb index lookup list_lookup mbind outcome_bind mret outcome_ret].
  apply Forall_cons in Hops as [Hfirst _]. rewrite Hfirst, signed_symbol by exact Hb.
  rewrite render_args, render_modes, Hclaimed, Hmodes.
  rewrite <- (range_runes_ascii_cons c letters Hascii).
  change ChannelMode_String with UserMode_String.
  match goal with
  | |- context [join ?l] =>
    change (join l) with (join (map UserMode_String (range_runes (String c letters))))
  end.
  rewrite (join_runes_ascii _ Hascii). reflexivity.
Qed.

End ChannelRoundTrip.

(** [MODE #chan +ov alice bob] *)
Lemma channel_mode_round_trip_witness :
  exists changes,
    @NewChannelModeCommand rfc_declarations ["#chan"; "+ov"; "alice"; "bob"]%string
    = ok (ChannelModeCommand base0 "#chan" changes)
    /\ map cmode changes = range_runes "ov"
    /\ Forall (fun c => cop c = byte_val "+") changes
    /\ claimed changes = ["alice"; "bob"]%string
    /\ ChannelModeChanges_String changes
       = Returned ("+ov" +:+ spaced ["alice"; "bob"]%string).
Proof.
  apply (@channel_mode_round_trip rfc_declarations "#chan" "+" "ov" ["alice"; "bob"]%string);
    first [reflexivity | discriminate | repeat constructor; discriminate].
Defined.

(** ** Credentials *)

Section Credentials.
Context `{D : Declarations} `{U : UnicodeText}.
Variable ComparePassword : string -> string -> option error.

(** X17: PASS and OPER are built with no hash and no error.  Checking
    compares the password with the hash that loading found, and records
    what the comparison says; with no hash to compare with, a server without
    a password or an operator name the server does not have, the check is
    skipped and no error is recorded, whatever the password. *)
Theorem credentials_checked (server : Server) (name pass : string) (rest : list string) :
  (exists cmd,
     NewPassCommand (pass :: rest) = ok cmd
     /\ password_err cmd = None
     /\ password_err (CheckPassword ComparePassword cmd) = None
     /\ password_err (CheckPassword ComparePassword (LoadPassword cmd server))
        = match password server with
          | Some hash => ComparePassword hash pass
          | None => None
          end)
  /\ (exists cmd,
        NewOperCommand (name :: pass :: rest) = ok cmd
        /\ password_err cmd = None
        /\ password_err (CheckPassword ComparePassword cmd) = None
        /\ password_err (CheckPassword ComparePassword (LoadPassword cmd server))
           = match operators server !! name with
             | Some (Some hash) => ComparePassword hash pass
             | _ => None
             end).
Proof.
  split; eexists; (split_and!; [reflexivity..|]); cbn [LoadPassword].
  - now destruct (password server).
  - now destruct (operators server !! name) as [[hash|]|].
Qed.

End Credentials.

(** ** The message of PART and the comment of KICK *)

Section Fallback.
Context `{D : Declarations} `{U : UnicodeText}.
Variable Nick : option ClientRef -> outcome string.

Lemma optional_hd (args : list string) : optional args 0 = Returned (hd EmptyString args).
Proof. now destruct args. Qed.

(** X18: the message of PART and the comment of KICK are the argument after
    the lists when it is there and not empty, and otherwise, with the
    argument absent or empty alike, the nickname of the client that the
    command has at the time of the call; the client is the one set after
    construction, and the code set on the command does not change it. *)
Theorem nick_fallback (arg0 arg1 : string) (rest : list string) (code : StringCode)
    (client : option ClientRef) :
  (exists cmd,
     NewPartCommand (arg0 :: rest) = ok cmd
     /\ Message Nick (SetClient (SetCode cmd code) client)
        = if String.eqb (hd EmptyString rest) EmptyString then Nick client
          else Returned (hd EmptyString rest))
  /\ (forall cmd,
        NewKickCommand (arg0 :: arg1 :: rest) = ok cmd ->
        Comment Nick (SetClient (SetCode cmd code) client)
        = if String.eqb (hd EmptyString rest) EmptyString then Nick client
          else Returned (hd EmptyString rest)).
Proof.
  split.
  - eexists. split.
    + unfold NewPartCommand.
      cbn [length Nat.ltb Nat.leb index lookup list_lookup mbind outcome_bind].
      replace (optional (arg0 :: rest) 1) with (Returned (hd EmptyString rest))
        by now destruct rest.
      reflexivity.
    + reflexivity.
  - intros cmd Hcmd. rewrite NewKickCommand_cases in Hcmd. cbn zeta in Hcmd.
    case_match; [discriminate|]. injection Hcmd as <-. reflexivity.
Qed.

End Fallback.

(** ** An empty trailing parameter *)

Section EmptyTrailing.
Context `{D : Declarations} `{U : UnicodeText}.

Lemma NFC_empty : NFC_String EmptyString = EmptyString.
Proof. now rewrite NFC_ascii. Qed.

(** X19: a trailing parameter that is empty, a colon that ends the line, is
    one parameter more, and an empty one.  PART and QUIT read it as they read
    a missing message, so the line with the colon and the line without
    parse to one command; TOPIC and AWAY note that the parameter is there,
    so [TOPIC #chan :] sets an empty topic where [TOPIC #chan] sets none, and
    [AWAY :] marks away where [AWAY] does not. *)
Theorem empty_trailing (channel : string) (k n : nat) :
  middle channel ->
  ParseCommand (wire "PART" [(k, channel)] n (Some EmptyString))
  = ParseCommand (wire "PART" [(k, channel)] n None)
  /\ ParseCommand (wire "QUIT" [] n (Some EmptyString)) = ParseCommand (wire "QUIT" [] n None)
  /\ ParseCommand (wire "TOPIC" [(k, channel)] n (Some EmptyString))
     = Returned (Some (TopicCommand {| client := None; code := TOPIC |}
                         (NFKC_String channel) true EmptyString), None)
  /\ ParseCommand (wire "TOPIC" [(k, channel)] n None)
     = Returned (Some (TopicCommand {| client := None; code := TOPIC |}
                         (NFKC_String channel) false EmptyString), None)
  /\ ParseCommand (wire "AWAY" [] n (Some EmptyString))
     = Returned (Some (AwayCommand {| client := None; code := AWAY |} EmptyString true), None)
  /\ ParseCommand (wire "AWAY" [] n None)
     = Returned (Some (AwayCommand {| client := None; code := AWAY |} EmptyString false), None).
Proof.
  intros Hchannel.
  assert (Hparams : Forall (fun p : nat * string => middle p.2) [(k, channel)])
    by (repeat constructor; apply Hchannel).
  unfold ParseCommand.
  rewrite !ParseLine_of_wire by first [split; reflexivity | assumption | constructor].
  rewrite !ToUpper_ascii by reflexivity.
  cbn [map snd fmap option_fmap option_map trailing_list app ascii_upper].
  rewrite NFC_empty.
  split_and!; reflexivity.
Qed.

End EmptyTrailing.

(** [TOPIC #chan :] and [TOPIC #chan] *)
Lemma empty_trailing_witness :
  @ParseCommand rfc_declarations ascii_text "TOPIC #chan :"
  = Returned (Some (TopicCommand {| client := None; code := TOPIC |} "#chan" true EmptyString),
              None)
  /\ @ParseCommand rfc_declarations ascii_text "TOPIC #chan"
     = Returned (Some (TopicCommand {| client := None; code := TOPIC |} "#chan" false
                         EmptyString), None).
Proof.
  assert (Hchan : middle "#chan") by (repeat constructor; discriminate).
  split;
    apply (@empty_trailing rfc_declarations ascii_text "#chan" 0 0 Hchan).
Defined.

(** ** One change, rendered alone and as a list *)

Section OneChange.
Context `{D : Declarations}.

(** X20: a user-mode change renders alone as it does as a list of one.  A
    channel-mode change does under add or remove; under any other operation
    the single change writes no sign, and the list writes [+]. *)
Theorem one_change_rendered (change : ModeChange.t) (cchange : ChannelModeChange.t) :
  ModeChanges_String [change] = Returned (ModeChange_String change)
  /\ ChannelModeChanges_String [cchange]
     = Returned ((if (cop cchange =? Add) || (cop cchange =? Remove)
                  then EmptyString else "+"%string)
                 +:+ ChannelModeChange_String cchange).
Proof.
  split.
  - unfold ModeChanges_String, ModeChange_String.
    cbn [length Nat.eqb index lookup list_lookup mbind outcome_bind mret outcome_ret foldl snd].
    now rewrite Z.eqb_refl.
  - unfold ChannelModeChanges_String, ChannelModeChange_String.
    cbn [length Nat.eqb index lookup list_lookup mbind outcome_bind mret outcome_ret foldl].
    destruct (Z.eqb_spec (cop cchange) Remove) as [->|Hremove].
    + cbn [orb Z.eqb]. change (Remove =? Add) with false. cbn [orb].
      change (ModeOp_String Remove) with "-"%string.
      now destruct (String.eqb (carg cchange) EmptyString).
    + rewrite orb_false_r. destruct (Z.eqb_spec (cop cchange) Add) as [->|Hadd].
      * change (ModeOp_String Add) with "+"%string.
        now destruct (String.eqb (carg cchange) EmptyString).
      * destruct (String.eqb (carg cchange) EmptyString); cbn [negb];
          now rewrite ?append_assoc.
Qed.

End OneChange.
